(** * Semantic Subtitle Translator: the playback-synchronised hydration engine

    A shallow embedding of [src/frontend/content.js]: the in-memory cache,
    line selection, the tick handler with its two-stage request, the mode
    state machine and the popup command handlers; then the video id of a
    URL, the listener list of the video element, and the popup script that
    sends the commands.

    Conventions of the embedding.
    - [performance.now()], [video.currentTime] and the [start]/[end] of a
      line are JavaScript numbers; they are modelled as rationals ([Q]),
      compared with boolean tests.  Comparisons of doubles are exact.  The
      subtraction in the lookahead test of [renderFromWindow] is rounded
      to binary64 ([fl64]), since the rounding decides the test at its
      bound; the difference of two clock readings in the throttle is taken
      as exact.  [NaN] and the infinities are outside the model.
    - [Date.now()] is an integral number of milliseconds: [Z].
    - [state.cache] is a JavaScript [Map], whose iteration order is the
      order in which keys were first inserted: an association list, oldest
      key first.
    - The global [state] object becomes a record threaded through every
      handler.  What the browser keeps for the script (pending promises,
      abort controllers, timers, the overlay element) is part of the same
      record.
    - What the browser decides (clock readings, whether the player exists,
      the current URL, how a request settles) comes with each event in an
      [Env] record or in the event itself. *)

From Stdlib Require Import ZArith QArith Qround Qpower String Ascii List
  DecimalString Bool Lia Lqa Sorted.
Import ListNotations.
Local Open Scope string_scope.
Local Open Scope list_scope.
Local Open Scope Z_scope.

(** ** Numbers *)

(** [a < b] on JavaScript numbers. *)
Definition Qltb (a b : Q) : bool := negb (Qle_bool b a).

(** *** Binary64 rounding *)

(** A JavaScript number is a binary64 double, and the result of an
    arithmetic operation on doubles is the exact result rounded to the
    nearest double, ties to the one with an even significand. *)

Definition pow2 (k : Z) : Q := (2 ^ k)%Q.

(** The binade of a positive number: the [k] with [2^k <= x < 2^(k+1)]. *)
Definition binade (x : Q) : Z :=
  let k := Z.log2 (Qnum x) - Z.log2 (Zpos (Qden x)) in
  if Qle_bool (pow2 k) x then k else k - 1.

(** The nearest integer, ties to the even one. *)
Definition roundHalfEven (y : Q) : Z :=
  let f := Qfloor y in
  match (y - inject_Z f ?= 1 # 2)%Q with
  | Lt => f
  | Gt => f + 1
  | Eq => if Z.even f then f else f + 1
  end.

(** The double nearest to a positive number: a significand of 53 bits
    (an integer below [2^53]) times [2^e], where the exponent [e] is 52
    below the binade and at least [-1074] (the subnormal numbers). *)
Definition fl64pos (x : Q) : Q :=
  let e := Z.max (binade x - 52) (-1074) in
  (inject_Z (roundHalfEven (x / pow2 e)) * pow2 e)%Q.

(** The double nearest to [x].  From [2^1024] on a double operation gives
    [Infinity], which is not a rational: the value here stays finite, and
    compares with every double below [2^1023] as the infinity does. *)
Definition fl64 (x : Q) : Q :=
  match (x ?= 0)%Q with
  | Eq => 0%Q
  | Gt => fl64pos x
  | Lt => (- fl64pos (- x))%Q
  end.

(** ** Constants: the [SST] object *)

Module SST.
Inductive MODES := IDLE | ACTIVE | ERROR.
Definition TICK_HZ : Q := 4.
Definition WINDOW_SEC : Q := 6.
Definition CHUNK_AHEAD_SEC : Q := 2.
Definition CACHE_TTL_MS : Z := 2 * 60 * 1000.
(** The literal of the size test in [cacheSet]. *)
Definition CACHE_MAX : nat := 500.
(** The delay of the recovery [setTimeout] in [onTimeTick]. *)
Definition RECOVER_MS : Z := 1200.
(** [MAX] and the retry delay of [tryStartActive]. *)
Definition ATTACH_MAX : nat := 20.
Definition ATTACH_RETRY_MS : Z := 150.
End SST.
Import SST.

Definition mode_eqb (a b : MODES) : bool :=
  match a, b with
  | IDLE, IDLE | ACTIVE, ACTIVE | ERROR, ERROR => true
  | _, _ => false
  end.

(** ** Lines and line selection ([renderFromWindow]) *)

Record Line := mkLine { start : Q; end_ : Q; text : string }.

(** [t >= ln.start && t < ln.end] *)
Definition spans (t : Q) (ln : Line) : bool :=
  Qle_bool (start ln) t && Qltb t (end_ ln).

(** [ln.start - t <= SST.CHUNK_AHEAD_SEC && ln.start > t]: the difference
    of the two doubles is a double, the comparisons are exact. *)
Definition ahead (t : Q) (ln : Line) : bool :=
  Qle_bool (fl64 (start ln - t)) CHUNK_AHEAD_SEC && Qltb t (start ln).

(** The [for ... of] loop with its [break]: the first spanning line. *)
Fixpoint firstSpanning (t : Q) (lines : list Line) : option Line :=
  match lines with
  | [] => None
  | ln :: rest => if spans t ln then Some ln else firstSpanning t rest
  end.

(** The value of [current] when [setCaptionText] is reached. *)
Definition pickLine (lines : list Line) (t : Q) : option Line :=
  match firstSpanning t lines with
  | Some ln => Some ln
  | None => find (ahead t) lines
  end.

(** The argument [renderFromWindow] passes to [setCaptionText]. *)
Definition renderText (lines : list Line) (t : Q) : string :=
  match pickLine lines t with
  | Some ln => text ln
  | None => ""
  end.

(** ** The cache *)

(** [String(Math.floor(tSec))], for buckets below 1e21 in absolute value
    (above, JavaScript switches to exponent notation). *)
Definition bucketString (tSec : Q) : string :=
  NilZero.string_of_int (Z.to_int (Qfloor tSec)).

(** [`${videoId}|${lang}|${bucket}`] *)
Definition cacheKey (videoId lang : string) (tSec : Q) : string :=
  (videoId ++ "|" ++ lang ++ "|" ++ bucketString tSec)%string.

(** [{ ts, data }] *)
Record CacheEntry := mkEntry { ts : Z; data : list Line }.

(** A JavaScript [Map] with string keys, in insertion order. *)
Module JsMap.
Section WithValue.
Context {V : Type}.

Definition t := list (string * V).

Fixpoint get (k : string) (m : t) : option V :=
  match m with
  | [] => None
  | (k', v) :: rest => if String.eqb k' k then Some v else get k rest
  end.

(** [set] on a present key replaces the value and keeps the key's
    place; on an absent key it appends. *)
Fixpoint set (k : string) (v : V) (m : t) : t :=
  match m with
  | [] => [(k, v)]
  | (k', v') :: rest =>
    if String.eqb k' k then (k, v) :: rest else (k', v') :: set k v rest
  end.

Fixpoint delete (k : string) (m : t) : t :=
  match m with
  | [] => []
  | (k', v) :: rest =>
    if String.eqb k' k then delete k rest else (k', v) :: delete k rest
  end.

Definition keys (m : t) : list string := map fst m.

Definition size (m : t) : nat := length m.
End WithValue.
Arguments t : clear implicits.
End JsMap.

Definition Cache := JsMap.t CacheEntry.

(** [cacheGet]: the value returned and the cache left behind. *)
Definition cacheGet (key : string) (now : Z) (cache : Cache)
  : option (list Line) * Cache :=
  match JsMap.get key cache with
  | None => (None, cache)
  | Some hit =>
      if CACHE_TTL_MS <? now - ts hit
      then (None, JsMap.delete key cache)
      else (Some (data hit), cache)
  end.

(** [state.cache.keys().next().value], then [delete]: drops the first key. *)
Definition dropFirstKey (cache : Cache) : Cache :=
  match cache with
  | [] => []
  | (firstKey, _) :: _ => JsMap.delete firstKey cache
  end.

(** [cacheSet], with the "naive trim". *)
Definition cacheSet (key : string) (now : Z) (d : list Line) (cache : Cache)
  : Cache :=
  let cache1 := JsMap.set key (mkEntry now d) cache in
  if (CACHE_MAX <? JsMap.size cache1)%nat then dropFirstKey cache1 else cache1.

(** The loop of [resetForNavigation]: delete every key that starts with
    [`${videoId}|`]. *)
Definition purgeVideo (videoId : string) (cache : Cache) : Cache :=
  fold_left
    (fun c k =>
       if String.prefix (videoId ++ "|")%string k then JsMap.delete k c else c)
    (JsMap.keys cache) cache.


(** ** The global [state], and what the browser holds for the script *)

(** [kind] of [state.inflight]. *)
Inductive Kind := chunks | translate.

(** [state.inflight = { ctrl, kind }].  An [AbortController] is named by the
    number it was created under. *)
Record Inflight := mkInflight { ctrl : nat; kind : Kind }.

(** Where a promise chain started by [onTimeTick] is suspended: in
    [fetchWindowChunks], or in [translateWindow] with the arguments it was
    called with. *)
Inductive Stage :=
| FetchingLines
| Translating (orig : list Line) (target hintArg : string).

(** A suspended promise chain, with what its closures captured: the
    controller [ctrl], [vid], [ckey] and [t]. *)
Record Request := mkRequest {
  rctrl : nat;
  rstage : Stage;
  rvid : string;
  rkey : string;
  rt : Q
}.

(** A pending [setTimeout]: the recovery callback of [onTimeTick]'s [catch]
    (1200 ms), or the [wait] closure of [tryStartActive] with its [attempts]
    counter (150 ms). *)
Inductive Timer :=
| TRecover
| TWait (attempts : nat).

Definition timerDelay (tm : Timer) : Z :=
  match tm with
  | TRecover => RECOVER_MS
  | TWait _ => ATTACH_RETRY_MS
  end.

Record State := mkState {
  (* the [state] object *)
  mode : MODES;
  enabled : bool;
  language : string;
  hint : string;
  videoEl : bool;                  (* [state.videoEl] is not null *)
  lastUrl : string;
  videoId : option string;
  lastTickAt : Q;
  inflight : option Inflight;
  cache : Cache;
  (* the document: the caption text when the overlay is present *)
  overlay : option string;
  (* the browser: suspended promise chains, aborted controllers, the next
     controller, pending timeouts *)
  pending : list Request;
  aborted : list nat;
  nextCtrl : nat;
  timers : list Timer;
  (* every argument [setCaptionText] was called with, latest first *)
  renders : list string
}.

Definition set_mode (x : MODES) (s : State) : State :=
  mkState x (enabled s) (language s) (hint s) (videoEl s) (lastUrl s)
    (videoId s) (lastTickAt s) (inflight s) (cache s) (overlay s) (pending s)
    (aborted s) (nextCtrl s) (timers s) (renders s).
Definition set_enabled (x : bool) (s : State) : State :=
  mkState (mode s) x (language s) (hint s) (videoEl s) (lastUrl s)
    (videoId s) (lastTickAt s) (inflight s) (cache s) (overlay s) (pending s)
    (aborted s) (nextCtrl s) (timers s) (renders s).
Definition set_language (x : string) (s : State) : State :=
  mkState (mode s) (enabled s) x (hint s) (videoEl s) (lastUrl s)
    (videoId s) (lastTickAt s) (inflight s) (cache s) (overlay s) (pending s)
    (aborted s) (nextCtrl s) (timers s) (renders s).
Definition set_hint (x : string) (s : State) : State :=
  mkState (mode s) (enabled s) (language s) x (videoEl s) (lastUrl s)
    (videoId s) (lastTickAt s) (inflight s) (cache s) (overlay s) (pending s)
    (aborted s) (nextCtrl s) (timers s) (renders s).
Definition set_videoEl (x : bool) (s : State) : State :=
  mkState (mode s) (enabled s) (language s) (hint s) x (lastUrl s)
    (videoId s) (lastTickAt s) (inflight s) (cache s) (overlay s) (pending s)
    (aborted s) (nextCtrl s) (timers s) (renders s).
Definition set_lastUrl (x : string) (s : State) : State :=
  mkState (mode s) (enabled s) (language s) (hint s) (videoEl s) x
    (videoId s) (lastTickAt s) (inflight s) (cache s) (overlay s) (pending s)
    (aborted s) (nextCtrl s) (timers s) (renders s).
Definition set_videoId (x : option string) (s : State) : State :=
  mkState (mode s) (enabled s) (language s) (hint s) (videoEl s) (lastUrl s)
    x (lastTickAt s) (inflight s) (cache s) (overlay s) (pending s)
    (aborted s) (nextCtrl s) (timers s) (renders s).
Definition set_lastTickAt (x : Q) (s : State) : State :=
  mkState (mode s) (enabled s) (language s) (hint s) (videoEl s) (lastUrl s)
    (videoId s) x (inflight s) (cache s) (overlay s) (pending s)
    (aborted s) (nextCtrl s) (timers s) (renders s).
Definition set_inflight (x : option Inflight) (s : State) : State :=
  mkState (mode s) (enabled s) (language s) (hint s) (videoEl s) (lastUrl s)
    (videoId s) (lastTickAt s) x (cache s) (overlay s) (pending s)
    (aborted s) (nextCtrl s) (timers s) (renders s).
Definition set_cache (x : Cache) (s : State) : State :=
  mkState (mode s) (enabled s) (language s) (hint s) (videoEl s) (lastUrl s)
    (videoId s) (lastTickAt s) (inflight s) x (overlay s) (pending s)
    (aborted s) (nextCtrl s) (timers s) (renders s).
Definition set_overlay (x : option string) (s : State) : State :=
  mkState (mode s) (enabled s) (language s) (hint s) (videoEl s) (lastUrl s)
    (videoId s) (lastTickAt s) (inflight s) (cache s) x (pending s)
    (aborted s) (nextCtrl s) (timers s) (renders s).
Definition set_pending (x : list Request) (s : State) : State :=
  mkState (mode s) (enabled s) (language s) (hint s) (videoEl s) (lastUrl s)
    (videoId s) (lastTickAt s) (inflight s) (cache s) (overlay s) x
    (aborted s) (nextCtrl s) (timers s) (renders s).
Definition set_aborted (x : list nat) (s : State) : State :=
  mkState (mode s) (enabled s) (language s) (hint s) (videoEl s) (lastUrl s)
    (videoId s) (lastTickAt s) (inflight s) (cache s) (overlay s) (pending s)
    x (nextCtrl s) (timers s) (renders s).
Definition set_nextCtrl (x : nat) (s : State) : State :=
  mkState (mode s) (enabled s) (language s) (hint s) (videoEl s) (lastUrl s)
    (videoId s) (lastTickAt s) (inflight s) (cache s) (overlay s) (pending s)
    (aborted s) x (timers s) (renders s).
Definition set_timers (x : list Timer) (s : State) : State :=
  mkState (mode s) (enabled s) (language s) (hint s) (videoEl s) (lastUrl s)
    (videoId s) (lastTickAt s) (inflight s) (cache s) (overlay s) (pending s)
    (aborted s) (nextCtrl s) x (renders s).
Definition set_renders (x : list string) (s : State) : State :=
  mkState (mode s) (enabled s) (language s) (hint s) (videoEl s) (lastUrl s)
    (videoId s) (lastTickAt s) (inflight s) (cache s) (overlay s) (pending s)
    (aborted s) (nextCtrl s) (timers s) x.

(** What a handler reads from the browser while it runs. *)
Record Env := mkEnv {
  perfNow : Q;                     (* [performance.now()] *)
  dateNow : Z;                     (* [Date.now()] *)
  currentTime : Q;                 (* [state.videoEl.currentTime || 0] *)
  adShowing : bool;                (* [isAdPlaying()] *)
  playerReady : bool;              (* [findPlayerShell()] and [findVideoEl()] both found *)
  href : string;                   (* [location.href] *)
  hrefVideoId : option string      (* [getVideoIdFromUrl()] on that URL *)
}.

(** How a backend call ends: its promise resolves with lines (the JSON
    body), rejects with an error named [AbortError], or rejects with any
    other error (network failure, [chunks 500], a body that is not JSON). *)
Inductive Outcome :=
| Resolved (lines : list Line)
| RejectedAbort
| RejectedOther.

(** [msg.settings]: [enabled] by its truthiness, [language] and [hint] when
    present. *)
Record Settings := mkSettings {
  s_enabled : bool;
  s_language : option string;
  s_hint : option string
}.

(** [msg.type], with [msg.settings] when the handler reads it. *)
Inductive Msg :=
| SETTINGS_CHANGED (settings : option Settings)
| START_TRANSLATION (settings : option Settings)
| STOP_TRANSLATION
| OtherMessage.

(** What the event loop can run next. *)
Inductive Event :=
| TimeUpdate                       (* video 'timeupdate' *)
| Seeked                           (* video 'seeked' *)
| RateChange                       (* video 'ratechange' *)
| Play                             (* video 'play' *)
| Pause                            (* video 'pause' *)
| Message (msg : Msg)              (* [chrome.runtime.onMessage] *)
| UrlCheck                         (* every caller of [onUrlMaybeChanged] *)
| Settle (c : nat) (o : Outcome)   (* the backend call of chain [c] ends *)
| TimerFired (k : nat).            (* the [k]-th pending timeout runs *)

(** ** Overlay and mode helpers *)

(** [setCaptionText]: writes [text || ''] into the caption when the overlay
    is in the document.  Every call is recorded in [renders]. *)
Definition setCaptionText (txt : string) (s : State) : State :=
  set_renders (txt :: renders s)
    (set_overlay (option_map (fun _ => txt) (overlay s)) s).

Definition renderFromWindow (lines : list Line) (t : Q) (s : State) : State :=
  setCaptionText (renderText lines t) s.

Definition setState (next : MODES) (s : State) : State :=
  if mode_eqb (mode s) next then s else set_mode next s.

(** [ensureOverlay]: an overlay already under the player is kept with its
    caption, otherwise a new one with an empty caption is created. *)
Definition ensureOverlay (s : State) : State :=
  match overlay s with
  | Some _ => s
  | None => set_overlay (Some "") s
  end.

(** [injectIfReady] when both the player and the video were found. *)
Definition injectIfReady (s : State) : State :=
  ensureOverlay (set_videoEl true s).

Definition removeOverlayAndListeners (s : State) : State :=
  set_overlay None (set_videoEl false s).

(** [if (state.inflight) { try { state.inflight.ctrl.abort(); } catch {}
    state.inflight = null; }], as in [onTimeTick] and [stopAll]. *)
Definition abortInflight (s : State) : State :=
  match inflight s with
  | Some i => set_inflight None (set_aborted (ctrl i :: aborted s) s)
  | None => s
  end.

(** ** Playback and hydration *)

(** [1000 / SST.TICK_HZ] *)
Definition tickInterval : Q := 1000 / TICK_HZ.

(** [new AbortController()], [state.inflight = { ctrl, kind: 'chunks' }] and
    the call of [fetchWindowChunks], which suspends the chain. *)
Definition startRequest (vid ckey : string) (t : Q) (s : State) : State :=
  let c := nextCtrl s in
  set_nextCtrl (S c)
    (set_pending (pending s ++ [mkRequest c FetchingLines vid ckey t])
       (set_inflight (Some (mkInflight c chunks)) s)).

(** The two guards at the top of [onTimeTick]: attached and ACTIVE, and not
    within the tick interval of the last accepted tick. *)
Definition tickAccepted (env : Env) (s : State) : bool :=
  negb (negb (videoEl s) || negb (mode_eqb (mode s) ACTIVE))
  && negb (Qltb (perfNow env - lastTickAt s) tickInterval).

Definition onTimeTick (env : Env) (s : State) : State :=
  if negb (videoEl s) || negb (mode_eqb (mode s) ACTIVE) then s else
  if Qltb (perfNow env - lastTickAt s) tickInterval then s else
  let s := set_lastTickAt (perfNow env) s in
  let t := currentTime env in
  match videoId s with
  | None => s
  | Some vid =>
    if String.eqb vid "" then s else
    if adShowing env then setCaptionText "" s else
    let ckey := cacheKey vid (language s) t in
    match cacheGet ckey (dateNow env) (cache s) with
    | (Some cached, cache') => renderFromWindow cached t (set_cache cache' s)
    | (None, cache') =>
      startRequest vid ckey t (abortInflight (set_cache cache' s))
    end
  end.

(** *** Settlement of a backend call *)

Definition findRequest (c : nat) (l : list Request) : option Request :=
  find (fun r => Nat.eqb (rctrl r) c) l.

Definition dropRequest (c : nat) (l : list Request) : list Request :=
  filter (fun r => negb (Nat.eqb (rctrl r) c)) l.

Definition advanceRequest (c : nat) (st : Stage) (l : list Request)
  : list Request :=
  map (fun r => if Nat.eqb (rctrl r) c
                then mkRequest (rctrl r) st (rvid r) (rkey r) (rt r) else r) l.

Definition isAborted (c : nat) (s : State) : bool :=
  existsb (Nat.eqb c) (aborted s).

(** What [fetch] hands to the chain: a call whose signal is aborted rejects
    with an [AbortError], whatever the network produced; otherwise the
    outcome is the network's. *)
Definition delivered (c : nat) (o : Outcome) (s : State) : Outcome :=
  if isAborted c s then RejectedAbort else o.

(** The [.catch] of [onTimeTick], for an error that is not an [AbortError]. *)
Definition hydrationFailed (s : State) : State :=
  set_timers (timers s ++ [TRecover]) (setCaptionText "" (setState ERROR s)).

(** The continuations of the chain, applied to the outcome [o] that reaches
    them: the first [.then] (stage [FetchingLines]), the second [.then]
    (stage [Translating]) and the [.catch]. *)
Definition continueChain (env : Env) (r : Request) (o : Outcome) (s : State)
  : State :=
  let c := rctrl r in
  match o, rstage r with
  | Resolved origLines, FetchingLines =>
    set_pending
      (advanceRequest c (Translating origLines (language s) (hint s)) (pending s))
      (set_inflight (Some (mkInflight c translate)) s)
  | Resolved translated, Translating _ _ _ =>
    let s := set_pending (dropRequest c (pending s)) s in
    let s := set_cache (cacheSet (rkey r) (dateNow env) translated (cache s)) s in
    let s := renderFromWindow translated (rt r) s in
    set_inflight None s
  | RejectedAbort, _ => set_pending (dropRequest c (pending s)) s
  | RejectedOther, _ => hydrationFailed (set_pending (dropRequest c (pending s)) s)
  end.

Definition settle (env : Env) (c : nat) (o : Outcome) (s : State) : State :=
  match findRequest c (pending s) with
  | None => s
  | Some r => continueChain env r (delivered c o s) s
  end.

(** ** Lifecycle *)

(** The closure [wait] of [tryStartActive], entered with [attempts] so far. *)
Definition wait (env : Env) (attempts : nat) (s : State) : State :=
  let attempts := S attempts in
  if playerReady env
  then onTimeTick env (set_lastTickAt 0 (injectIfReady s))
  else if (attempts <? ATTACH_MAX)%nat
       then set_timers (timers s ++ [TWait attempts]) s
       else setState ERROR s.

Definition tryStartActive (env : Env) (s : State) : State :=
  if negb (enabled s) then s else wait env 0 (setState ACTIVE s).

Definition stopAll (s : State) : State :=
  removeOverlayAndListeners (abortInflight (setState IDLE s)).

Definition resetForNavigation (env : Env) (s : State) : State :=
  let s := stopAll s in
  let s :=
    match videoId s with
    | Some v =>
      if String.eqb v "" then s else set_cache (purgeVideo v (cache s)) s
    | None => s
    end in
  set_videoId (hrefVideoId env) s.

Definition videoId_eqb (a b : option string) : bool :=
  match a, b with
  | Some x, Some y => String.eqb x y
  | None, None => true
  | _, _ => false
  end.

Definition onUrlMaybeChanged (env : Env) (s : State) : State :=
  if String.eqb (href env) (lastUrl s) then s else
  let s := set_lastUrl (href env) s in
  if negb (videoId_eqb (hrefVideoId env) (videoId s)) then
    let s := resetForNavigation env s in
    if enabled s && negb (mode_eqb (mode s) ERROR)
    then tryStartActive env s else s
  else s.

(** ** Messages from the popup *)

(** [x || d] for a string [x] that may be missing. *)
Definition orElse (x : option string) (d : string) : string :=
  match x with
  | Some v => if String.eqb v "" then d else v
  | None => d
  end.

Definition settingsEnabled (st : option Settings) : bool :=
  match st with Some x => s_enabled x | None => false end.

Definition settingsLanguage (st : option Settings) : option string :=
  match st with Some x => s_language x | None => None end.

Definition settingsHint (st : option Settings) : option string :=
  match st with Some x => s_hint x | None => None end.

Definition onMessage (env : Env) (msg : Msg) (s : State) : State :=
  match msg with
  | SETTINGS_CHANGED st =>
    let s := set_enabled (settingsEnabled st) s in
    let s := set_language (orElse (settingsLanguage st) (language s)) s in
    let s := set_hint (orElse (settingsHint st) (hint s)) s in
    if enabled s && mode_eqb (mode s) IDLE then tryStartActive env s
    else if negb (enabled s) && negb (mode_eqb (mode s) IDLE) then stopAll s
    else s
  | START_TRANSLATION st =>
    let s := set_enabled true s in
    let s := set_language (orElse (settingsLanguage st) (language s)) s in
    let s := set_hint (orElse (settingsHint st) (hint s)) s in
    let s := set_videoId (hrefVideoId env) s in
    tryStartActive env s
  | STOP_TRANSLATION => stopAll s
  | OtherMessage => s
  end.

(** ** Timers and the event loop *)

Fixpoint removeNth {A : Type} (k : nat) (l : list A) : list A :=
  match l, k with
  | [], _ => []
  | _ :: rest, O => rest
  | x :: rest, S k' => x :: removeNth k' rest
  end.

Definition onTimer (env : Env) (k : nat) (s : State) : State :=
  match nth_error (timers s) k with
  | None => s
  | Some tm =>
    let s := set_timers (removeNth k (timers s)) s in
    match tm with
    | TRecover => setState ACTIVE s
    | TWait attempts => wait env attempts s
    end
  end.

(** One turn of the event loop.  Playback events are delivered whether or
    not the script is attached: [onTimeTick] returns at once when
    [state.videoEl] is null, and [detachVideoListeners] leaves the
    'ratechange', 'play' and 'pause' closures registered.  With lines typed
    as lists no handler throws, so the [try ... catch] of the message
    listener and the [.catch] of the chain see rejections only. *)
Definition step (env : Env) (e : Event) (s : State) : State :=
  match e with
  | TimeUpdate | Seeked => onTimeTick env s
  | RateChange => onTimeTick env (set_lastTickAt 0 s)
  | Play | Pause => setCaptionText "" s
  | Message msg => onMessage env msg s
  | UrlCheck => onUrlMaybeChanged env s
  | Settle c o => settle env c o s
  | TimerFired k => onTimer env k s
  end.

(** The state after [boot]. *)
Definition boot (env : Env) : State :=
  mkState IDLE false "en" "" false (href env) (hrefVideoId env) 0 None []
    None [] [] 0%nat [] [].

Fixpoint run (s : State) (trace : list (Env * Event)) : State :=
  match trace with
  | [] => s
  | (env, e) :: rest => run (step env e s) rest
  end.

(** The states the script can be in. *)
Inductive reachable : State -> Prop :=
| reachable_boot env : reachable (boot env)
| reachable_step env e s : reachable s -> reachable (step env e s).


(** * Vocabulary of the statements *)

(** ** Line selection *)







Definition lineA : Line := mkLine 10 13 "A".
Definition lineB : Line := mkLine 13 16 "B".
Definition lineC : Line := mkLine (37 # 2) 21 "C".

(** ** Sequences of cache operations *)

Inductive CacheOp :=
| OpGet (key : string) (now : Z)
| OpSet (key : string) (now : Z) (d : list Line)
| OpPurge (videoId : string).

Definition applyOp (c : Cache) (op : CacheOp) : Cache :=
  match op with
  | OpGet key now => snd (cacheGet key now c)
  | OpSet key now d => cacheSet key now d c
  | OpPurge v => purgeVideo v c
  end.

Definition runOps (ops : list CacheOp) (c : Cache) : Cache :=
  fold_left applyOp ops c.

(** A history in which the clock never goes back and no [OpSet] writes a
    key that is present. *)
Fixpoint orderly (clock : Z) (c : Cache) (ops : list CacheOp) : Prop :=
  match ops with
  | [] => True
  | op :: rest =>
    match op with
    | OpGet _ now => clock <= now /\ orderly now (applyOp c op) rest
    | OpSet key now _ =>
      clock <= now /\ JsMap.get key c = None /\ orderly now (applyOp c op) rest
    | OpPurge _ => orderly clock (applyOp c op) rest
    end
  end.

Definition olderOrSame (a b : string * CacheEntry) : Prop :=
  ts (snd a) <= ts (snd b).

Definition oldestFirst (c : Cache) : Prop := StronglySorted olderOrSame c.

Definition stampedBy (clock : Z) (c : Cache) : Prop :=
  Forall (fun kv => ts (snd kv) <= clock) c.

Definition withinBound (c : Cache) : Prop := (JsMap.size c <= CACHE_MAX)%nat.

(** Properties that deleting a key and [cacheSet] both preserve. *)
Record CacheClosed (P : Cache -> Prop) : Prop := {
  closed_delete : forall k c, P c -> P (JsMap.delete k c);
  closed_cacheSet : forall k now d c, P c -> P (cacheSet k now d c)
}.

(** [n] insertions of distinct keys at times [0 .. n-1]. *)
Definition fillOps (n : nat) : list CacheOp :=
  map (fun i => OpSet (cacheKey "v" "en" (inject_Z (Z.of_nat i))) (Z.of_nat i) [])
      (seq 0 n).


(** ** Requests seen through their controllers *)

(** The part of the state the request invariants speak about: the
    controllers of the suspended chains, the aborted controllers, the next
    controller and [state.inflight]. *)
Record Chains := mkChains {
  c_pending : list nat;
  c_aborted : list nat;
  c_next : nat;
  c_inflight : option Inflight
}.

Definition chains (s : State) : Chains :=
  mkChains (map rctrl (pending s)) (aborted s) (nextCtrl s) (inflight s).

Definition cAbort (cs : Chains) : Chains :=
  match c_inflight cs with
  | Some i => mkChains (c_pending cs) (ctrl i :: c_aborted cs) (c_next cs) None
  | None => cs
  end.

Definition cStart (cs : Chains) : Chains :=
  mkChains (c_pending cs ++ [c_next cs]) (c_aborted cs) (S (c_next cs))
    (Some (mkInflight (c_next cs) chunks)).

Definition cRestart (cs : Chains) : Chains := cStart (cAbort cs).

Definition cAdvance (c : nat) (cs : Chains) : Chains :=
  mkChains (c_pending cs) (c_aborted cs) (c_next cs)
    (Some (mkInflight c translate)).

Definition cWithout (c : nat) (l : list nat) : list nat :=
  filter (fun x => negb (Nat.eqb x c)) l.

Definition cFinish (c : nat) (cs : Chains) : Chains :=
  mkChains (cWithout c (c_pending cs)) (c_aborted cs) (c_next cs) None.

Definition cDrop (c : nat) (cs : Chains) : Chains :=
  mkChains (cWithout c (c_pending cs)) (c_aborted cs) (c_next cs)
    (c_inflight cs).

Definition cCancelled (c : nat) (cs : Chains) : bool :=
  existsb (Nat.eqb c) (c_aborted cs).

(** [c] is the controller held by [state.inflight]. *)
Definition cCurrent (c : nat) (cs : Chains) : Prop :=
  exists k, c_inflight cs = Some (mkInflight c k).

Record ChainsOK (m : MODES) (cs : Chains) : Prop := {
  ok_pending_fresh : forall c, In c (c_pending cs) -> (c < c_next cs)%nat;
  ok_pending_nodup : NoDup (c_pending cs);
  ok_live_current :
    forall c, In c (c_pending cs) -> cCancelled c cs = false -> cCurrent c cs;
  ok_inflight_fresh :
    forall i, c_inflight cs = Some i -> (ctrl i < c_next cs)%nat;
  ok_aborted_fresh : forall c, In c (c_aborted cs) -> (c < c_next cs)%nat;
  ok_idle :
    m = IDLE ->
    c_inflight cs = None /\
    forall c, In c (c_pending cs) -> cCancelled c cs = true
}.

(** The invariant of the reachable states. *)
Definition Inv (s : State) : Prop := ChainsOK (mode s) (chains s).

(** What one turn of the event loop does to the chains and the mode. *)
Inductive Effect (s s' : State) : Prop :=
| eff_keep :
    chains s' = chains s ->
    mode s' = mode s \/ mode s' = ACTIVE \/ mode s' = ERROR ->
    Effect s s'
| eff_abort :
    chains s' = cAbort (chains s) -> Effect s s'
| eff_restart :
    chains s' = cRestart (chains s) -> mode s' = ACTIVE -> Effect s s'
| eff_advance c :
    In c (c_pending (chains s)) -> cCancelled c (chains s) = false ->
    chains s' = cAdvance c (chains s) -> mode s' = mode s -> Effect s s'
| eff_finish c :
    In c (c_pending (chains s)) -> cCancelled c (chains s) = false ->
    chains s' = cFinish c (chains s) -> mode s' = mode s -> Effect s s'
| eff_drop c :
    chains s' = cDrop c (chains s) ->
    mode s' = mode s \/ mode s' = ERROR ->
    Effect s s'.

(** ** Requests and commands in the statements *)

(** A chain with controller [c] is suspended. *)
Definition isPending (c : nat) (s : State) : Prop :=
  exists r, In r (pending s) /\ rctrl r = c.

(** [state.inflight] holds controller [c]. *)
Definition isCurrent (c : nat) (s : State) : Prop :=
  exists k, inflight s = Some (mkInflight c k).


(** The event starts the attach sequence from the state [s]: a start
    command, a settings command that enables, or a change of video while
    enabled. *)
Definition startsAttach (env : Env) (e : Event) (s : State) : Prop :=
  match e with
  | Message (START_TRANSLATION _) => True
  | Message (SETTINGS_CHANGED st) => settingsEnabled st = true
  | UrlCheck =>
    enabled s = true /\ href env <> lastUrl s /\ hrefVideoId env <> videoId s
  | _ => False
  end.

(** The event runs a pending recovery timeout. *)
Definition firesRecovery (e : Event) (s : State) : Prop :=
  exists k, e = TimerFired k /\ nth_error (timers s) k = Some TRecover.

(** A 'timeupdate' or a 'seeked' event. *)
Definition isTick (e : Event) : Prop := e = TimeUpdate \/ e = Seeked.

(** The event stops the script or leaves the current video. *)
Definition stopsOrLeaves (env : Env) (e : Event) (s : State) : Prop :=
  match e with
  | Message STOP_TRANSLATION => True
  | Message (SETTINGS_CHANGED st) => settingsEnabled st = false
  | UrlCheck => href env <> lastUrl s /\ hrefVideoId env <> videoId s
  | _ => False
  end.

(** ** Sample environments and traces *)

(** A page of video ["v"] whose player is present, read at
    [performance.now() = now], playback position 5 s. *)
Definition envAt (now : Q) : Env :=
  mkEnv now 1000000 5 false true "https://www.youtube.com/watch?v=v" (Some "v").

(** The same page before the player exists. *)
Definition envNoPlayer (now : Q) : Env :=
  mkEnv now 1000000 5 false false "https://www.youtube.com/watch?v=v" (Some "v").

(** A cache with one entry for video ["v"] and one for video ["w"], both
    inserted at [Date.now() = 1000000]. *)
Definition cacheVW : Cache :=
  [("v|fr|5", mkEntry 1000000 [lineA]); ("w|fr|7", mkEntry 1000000 [lineB])].

(** The page of another video, ["w"]. *)
Definition envOther (now : Q) : Env :=
  mkEnv now 1000000 5 false true "https://www.youtube.com/watch?v=w" (Some "w").


Definition startMsg : Event :=
  Message (START_TRANSLATION (Some (mkSettings true (Some "fr") (Some "")))).

(** Start with the player present: the forced tick misses the cache and
    starts request 0. *)
Definition traceStarted : list (Env * Event) :=
  [(envAt 1000, startMsg)].


(** Then a rate change 100 ms later: the forced tick aborts request 0 and
    starts request 1. *)
Definition traceSuperseded : list (Env * Event) :=
  traceStarted ++ [(envAt 1100, RateChange)].

(** ** Proof automation *)

(** Reduce the projections of a state built by setters. *)
Ltac fields :=
  cbn [mode enabled language hint videoEl lastUrl videoId lastTickAt inflight
       cache overlay pending aborted nextCtrl timers renders
       set_mode set_enabled set_language set_hint set_videoEl set_lastUrl
       set_videoId set_lastTickAt set_inflight set_cache set_overlay
       set_pending set_aborted set_nextCtrl set_timers set_renders] in *.

(** Case analysis on every test a handler makes. *)
Ltac split_cases :=
  repeat (fields;
          match goal with
          | |- context [match ?x with _ => _ end] => destruct x eqn:?
          end).

Ltac open_handlers :=
  unfold tryStartActive, wait, stopAll, onTimeTick, hydrationFailed,
    renderFromWindow, startRequest, abortInflight, removeOverlayAndListeners,
    injectIfReady, ensureOverlay, setState, setCaptionText.


(** * Further vocabulary: playback events, clocks, retries *)

(** A playback event that runs [onTimeTick]. *)
Definition runsTick (e : Event) : Prop :=
  e = TimeUpdate \/ e = Seeked \/ e = RateChange.

(** The purge as a filter on the entries. *)
Definition keptByPurge (videoId : string) (kv : string * CacheEntry) : bool :=
  negb (String.prefix (videoId ++ "|")%string (fst kv)).

(** The timeout at position [k] runs once for each environment of the
    list, in order. *)
Fixpoint fireEach (k : nat) (envs : list Env) (s : State) : State :=
  match envs with
  | [] => s
  | env :: rest => fireEach k rest (step env (TimerFired k) s)
  end.

(** [Date.now()] never goes back along the trace, starting from [clock]. *)
Fixpoint clocksAscend (clock : Z) (trace : list (Env * Event)) : Prop :=
  match trace with
  | [] => True
  | (env, _) :: rest => clock <= dateNow env /\ clocksAscend (dateNow env) rest
  end.

(** No suspended chain that is still live has its key in the cache. *)
Definition liveKeysAbsent (s : State) : Prop :=
  forall r, In r (pending s) -> isAborted (rctrl r) s = false ->
            JsMap.get (rkey r) (cache s) = None.

(** What the running script keeps true of its cache when the clock never
    goes back. *)
Record CacheAged (clock : Z) (s : State) : Prop := {
  aged_inv : Inv s;
  aged_nodup : NoDup (JsMap.keys (cache s));
  aged_order : oldestFirst (cache s);
  aged_stamps : stampedBy clock (cache s);
  aged_live : liveKeysAbsent s
}.

(** One turn leaves the suspended chains as they are, or adds one whose
    key is not in the cache. *)
Definition grows (s s' : State) : Prop :=
  pending s' = pending s \/
  exists r, pending s' = pending s ++ [r] /\
            JsMap.get (rkey r) (cache s') = None.

(** Playback through the seconds [0], [1], ...: the browser's readings at
    second [i], with [Date.now()] one millisecond further each time. *)
Definition envSecond (i : nat) : Env :=
  mkEnv (inject_Z (1000 * Z.of_nat (S i))) (1000000 + Z.of_nat i)
        (inject_Z (Z.of_nat i)) false true
        "https://www.youtube.com/watch?v=v" (Some "v").

(** The two answers of the backend to request [i]. *)
Definition answers (i : nat) : list (Env * Event) :=
  [(envSecond i, Settle i (Resolved [lineA]));
   (envSecond i, Settle i (Resolved [lineA]))].

(** The hydration of the seconds [1] to [n]: a tick that misses, then the
    lines and the translation. *)
Fixpoint hydrations (n : nat) : list (Env * Event) :=
  match n with
  | O => []
  | S k => hydrations k ++ (envSecond n, TimeUpdate) :: answers n
  end.

(** Start at second [0] and hydrate the seconds [0] to [499], which fills
    the cache; then the tick of second [500] and the lines of its
    request. *)
Definition traceFull : list (Env * Event) :=
  (envSecond 0, startMsg) :: answers 0 ++ hydrations 499
    ++ [(envSecond 500, TimeUpdate);
        (envSecond 500, Settle 500 (Resolved [lineA]))].

(** [clocksAscend], decided. *)
Fixpoint clocksAscendb (clock : Z) (trace : list (Env * Event)) : bool :=
  match trace with
  | [] => true
  | (env, _) :: rest => (clock <=? dateNow env) && clocksAscendb (dateNow env) rest
  end.

(** * The rest of the content script *)

(** ** [getVideoIdFromUrl] *)

(** What [new URL(href)] hands to the function: the path and the first
    value of the query parameter [v].  The parser is the browser's; a URL
    that makes the constructor throw is [None]. *)
Record ParsedUrl := mkUrl { pathname : string; searchV : option string }.

(** [s.split('/')] *)
Fixpoint splitSlash (s : string) : list string :=
  match s with
  | EmptyString => [EmptyString]
  | String ch rest =>
    if Ascii.eqb ch "/" then EmptyString :: splitSlash rest
    else match splitSlash rest with
         | seg :: segs => String ch seg :: segs
         | [] => [String ch EmptyString]
         end
  end.

Definition getVideoIdFromUrl (u : option ParsedUrl) : option string :=
  match u with
  | None => None
  | Some u =>
    if String.prefix "/watch" (pathname u) then searchV u
    else if String.prefix "/shorts/" (pathname u) then
      match nth_error (splitSlash (pathname u)) 2 with
      | Some seg => if String.eqb seg "" then None else Some seg
      | None => None
      end
    else None
  end.

(** No ["/"] in a path segment. *)
Fixpoint noSlash (s : string) : bool :=
  match s with
  | EmptyString => true
  | String ch rest => negb (Ascii.eqb ch "/") && noSlash rest
  end.

(** ** Pages without a video id *)

(** What [if (!vid) return;] of [onTimeTick] lets through: [null] and the
    empty string are refused. *)
Definition noVideoId (v : option string) : Prop := v = None \/ v = Some "".

(** Nothing was ever asked of the backend. *)
Record Untouched (s : State) : Prop := mkUntouched {
  untouched_videoId : noVideoId (videoId s);
  untouched_pending : pending s = [];
  untouched_inflight : inflight s = None;
  untouched_nextCtrl : nextCtrl s = 0%nat;
  untouched_aborted : aborted s = [];
  untouched_cache : cache s = []
}.

Ltac untouched :=
  open_handlers; split_cases; constructor; fields; trivial.

(** The page of a reading of the browser. *)
Definition envOn (u : option ParsedUrl) (now : Q) (ready : bool) : Env :=
  mkEnv now 0 0 false ready "https://www.youtube.com/" (getVideoIdFromUrl u).

(** ** The listeners of the video element *)

Inductive EventType := timeupdate | seeked | ratechange | play | pause.

(** What a closure does when called: the 'ratechange' closure of
    [attachVideoListeners], its 'play' and 'pause' closures, and the empty
    closures that [detachVideoListeners] passes. *)
Inductive ClosureBody := forceTick | blankCaption | doNothing.

(** A callback is the function [onTimeTick], or a closure: every
    evaluation of an arrow function makes a new function object, here
    numbered. *)
Inductive Callback :=
| cbOnTimeTick
| cbClosure (id : nat) (body : ClosureBody).

(** The event listener list of the element, and the number of the next
    closure. *)
Record VideoElement := mkVideo {
  listeners : list (EventType * Callback);
  nextClosure : nat
}.

Definition eventType_eqb (a b : EventType) : bool :=
  match a, b with
  | timeupdate, timeupdate | seeked, seeked | ratechange, ratechange
  | play, play | pause, pause => true
  | _, _ => false
  end.

(** Identity of function objects. *)
Definition callback_eqb (a b : Callback) : bool :=
  match a, b with
  | cbOnTimeTick, cbOnTimeTick => true
  | cbClosure i _, cbClosure j _ => Nat.eqb i j
  | _, _ => false
  end.

Definition sameListener (ty : EventType) (cb : Callback)
           (l : EventType * Callback) : bool :=
  eventType_eqb (fst l) ty && callback_eqb (snd l) cb.

(** [el.addEventListener(ty, cb)]: appended unless the same type and
    callback are already in the list. *)
Definition addEventListener (ty : EventType) (cb : Callback)
           (el : VideoElement) : VideoElement :=
  if existsb (sameListener ty cb) (listeners el) then el
  else mkVideo (listeners el ++ [(ty, cb)]) (nextClosure el).

(** [el.removeEventListener(ty, cb)] *)
Definition removeEventListener (ty : EventType) (cb : Callback)
           (el : VideoElement) : VideoElement :=
  mkVideo (filter (fun l => negb (sameListener ty cb l)) (listeners el))
          (nextClosure el).

(** Evaluating [() => ...]: a new function object. *)
Definition newClosure (body : ClosureBody) (el : VideoElement)
  : Callback * VideoElement :=
  (cbClosure (nextClosure el) body,
   mkVideo (listeners el) (S (nextClosure el))).

(** [attachVideoListeners], on the element [state.videoEl]. *)
Definition attachVideoListeners (el : VideoElement) : VideoElement :=
  let el := addEventListener timeupdate cbOnTimeTick el in
  let el := addEventListener seeked cbOnTimeTick el in
  let '(f, el) := newClosure forceTick el in
  let el := addEventListener ratechange f el in
  let '(g, el) := newClosure blankCaption el in
  let el := addEventListener play g el in
  let '(h, el) := newClosure blankCaption el in
  addEventListener pause h el.

(** [detachVideoListeners], on the element [state.videoEl]. *)
Definition detachVideoListeners (el : VideoElement) : VideoElement :=
  let el := removeEventListener timeupdate cbOnTimeTick el in
  let el := removeEventListener seeked cbOnTimeTick el in
  let '(f, el) := newClosure doNothing el in
  let el := removeEventListener ratechange f el in
  let '(g, el) := newClosure doNothing el in
  let el := removeEventListener play g el in
  let '(h, el) := newClosure doNothing el in
  removeEventListener pause h el.

(** The callbacks registered for an event type, in the order they run. *)
Definition handlersIn (ty : EventType) (l : list (EventType * Callback))
  : list Callback :=
  map snd (filter (fun x => eventType_eqb (fst x) ty) l).

Definition handlersFor (ty : EventType) (el : VideoElement) : list Callback :=
  handlersIn ty (listeners el).

(** Every closure in the list was made before the [n]-th. *)
Definition closuresBelow (n : nat) (l : list (EventType * Callback)) : Prop :=
  forall ty id body, In (ty, cbClosure id body) l -> (id < n)%nat.

(** Every closure in the list of the element was made before
    [nextClosure]. *)
Definition closuresMade (el : VideoElement) : Prop :=
  closuresBelow (nextClosure el) (listeners el).

(** [addEventListener(ty, onTimeTick)] on a list. *)
Definition addOnce (ty : EventType) (l : list (EventType * Callback))
  : list (EventType * Callback) :=
  if existsb (sameListener ty cbOnTimeTick) l then l
  else l ++ [(ty, cbOnTimeTick)].

(** Callbacks that are all closures with the body [b]. *)
Definition closuresOf (b : ClosureBody) (l : list Callback) : Prop :=
  Forall (fun cb => exists i, cb = cbClosure i b) l.

(** From [el] to [el'] the callbacks for [ty] gained [k] closures with the
    body [b], after the ones it had. *)
Definition gained (ty : EventType) (b : ClosureBody) (k : nat)
           (el el' : VideoElement) : Prop :=
  exists added,
    handlersFor ty el' = handlersFor ty el ++ added /\
    length added = k /\ closuresOf b added.

(** [n] rounds of attach then detach (start, stop, start, stop, ...). *)
Fixpoint cycles (n : nat) (el : VideoElement) : VideoElement :=
  match n with
  | O => el
  | S n' => detachVideoListeners (attachVideoListeners (cycles n' el))
  end.

(** What calling a callback does to the state. *)
Definition callListener (env : Env) (cb : Callback) (s : State) : State :=
  match cb with
  | cbOnTimeTick => onTimeTick env s
  | cbClosure _ forceTick => onTimeTick env (set_lastTickAt 0 s)
  | cbClosure _ blankCaption => setCaptionText "" s
  | cbClosure _ doNothing => s
  end.

(** The element dispatches an event: its callbacks for the type run in
    order.  The readings of [env] are those of the moment of the event. *)
Definition dispatch (env : Env) (ty : EventType) (el : VideoElement)
           (s : State) : State :=
  fold_left (fun s cb => callListener env cb s) (handlersFor ty el) s.

(** The script is attached and ACTIVE on the video [vid], and the window
    of the playback position is not (or no longer) in the cache. *)
Record missesAt (env : Env) (vid : string) (s : State) : Prop := mkMisses {
  misses_videoEl : videoEl s = true;
  misses_mode : mode s = ACTIVE;
  misses_videoId : videoId s = Some vid;
  misses_cache :
    fst (cacheGet (cacheKey vid (language s) (currentTime env)) (dateNow env)
           (cache s)) = None
}.

(** The requests with the controllers [c], [c + 1], ..., [c + k - 1], all
    for the same window. *)
Definition requestsFrom (c k : nat) (vid ckey : string) (t : Q)
  : list Request :=
  map (fun i => mkRequest i FetchingLines vid ckey t) (seq c k).

(** ** The popup *)

Module Popup.

(** [STATE.runtimeStatus], shown by the pill. *)
Inductive Status := idle | active | error.

(** A handler suspended at an [await]: an edit handler waiting for
    [storageSet], [onStartStop] waiting for the answer to its start or stop
    message, the body of [emitSettingsChanged] waiting for its answer. *)
Inductive Awaiting := awaitStored | awaitStart | awaitStop | awaitEmit.

(** The [STATE] object, whether the timer of the debounced
    [emitSettingsChanged] is armed, the suspended handlers, and the
    messages handed to [sendToActiveTab], latest first. *)
Record STATE := mkSTATE {
  enabled : bool;
  language : string;
  hint : string;
  runtimeStatus : Status;
  started : bool;
  emitArmed : bool;
  awaiting : list Awaiting;
  sent : list Msg
}.

(** [settings: { enabled: !!STATE.enabled, language: STATE.language,
    hint: STATE.hint }] *)
Definition payload (p : STATE) : option Settings :=
  Some (mkSettings (enabled p) (Some (language p)) (Some (hint p))).

(** [init]: the stored values, with [||] defaults, then [applyUI]. *)
Definition init (storedEnabled : bool) (storedLanguage storedHint : option string)
  : STATE :=
  mkSTATE storedEnabled (orElse storedLanguage "en") (orElse storedHint "")
          idle false false [] [].

(** The turns of the popup's event loop: the user's edits and clicks, the
    debounce timer, and the resumption of the [k]-th suspended handler with
    the answer [{ ok, offline }] (unused after [storageSet]). *)
Inductive Action :=
| Toggle (checked : bool)
| SelectLanguage (value : string)
| HintInput (value : string)
| Click
| TimerFires
| Resumes (k : nat) (ok offline : bool).

Definition set_values (e : bool) (l h : string) (p : STATE) : STATE :=
  mkSTATE e l h (runtimeStatus p) (started p) (emitArmed p) (awaiting p)
          (sent p).

(** [setPill] *)
Definition setPill (st : Status) (p : STATE) : STATE :=
  mkSTATE (enabled p) (language p) (hint p) st (started p) (emitArmed p)
          (awaiting p) (sent p).

(** [setButtonState] *)
Definition setButtonState (b : bool) (p : STATE) : STATE :=
  mkSTATE (enabled p) (language p) (hint p) (runtimeStatus p) b (emitArmed p)
          (awaiting p) (sent p).

(** [await sendToActiveTab(m)]: the message goes out and the handler is
    suspended. *)
Definition send (m : Msg) (a : Awaiting) (p : STATE) : STATE :=
  mkSTATE (enabled p) (language p) (hint p) (runtimeStatus p) (started p)
          (emitArmed p) (awaiting p ++ [a]) (m :: sent p).

(** [await storageSet(...)] *)
Definition store (p : STATE) : STATE :=
  mkSTATE (enabled p) (language p) (hint p) (runtimeStatus p) (started p)
          (emitArmed p) (awaiting p ++ [awaitStored]) (sent p).

(** A call of the debounced function clears the timer and arms it again;
    the timer that runs is spent. *)
Definition set_emitArmed (b : bool) (p : STATE) : STATE :=
  mkSTATE (enabled p) (language p) (hint p) (runtimeStatus p) (started p)
          b (awaiting p) (sent p).

Definition set_awaiting (l : list Awaiting) (p : STATE) : STATE :=
  mkSTATE (enabled p) (language p) (hint p) (runtimeStatus p) (started p)
          (emitArmed p) l (sent p).

(** [onStartStop], up to its [await]. *)
Definition onStartStop (p : STATE) : STATE :=
  if negb (started p) then
    if negb (enabled p) then setPill error p
    else send (START_TRANSLATION (payload p)) awaitStart p
  else send STOP_TRANSLATION awaitStop p.

(** The body of [emitSettingsChanged], up to its [await]. *)
Definition emitSettingsChanged (p : STATE) : STATE :=
  send (SETTINGS_CHANGED (payload p)) awaitEmit (set_emitArmed false p).

(** What a suspended handler does when it resumes. *)
Definition resume (a : Awaiting) (ok offline : bool) (p : STATE) : STATE :=
  match a with
  | awaitStored => set_emitArmed true p
  | awaitStart =>
    if ok then setPill active (setButtonState true p) else setPill error p
  | awaitStop =>
    if ok then setPill idle (setButtonState false p) else setPill error p
  | awaitEmit =>
    if negb ok && negb offline then setPill error p else p
  end.

Definition act (a : Action) (p : STATE) : STATE :=
  match a with
  | Toggle b => store (set_values b (language p) (hint p) p)
  | SelectLanguage v => store (set_values (enabled p) v (hint p) p)
  | HintInput v => store (set_values (enabled p) (language p) v p)
  | Click => onStartStop p
  | TimerFires => if emitArmed p then emitSettingsChanged p else p
  | Resumes k ok offline =>
    match nth_error (awaiting p) k with
    | None => p
    | Some a => resume a ok offline (set_awaiting (removeNth k (awaiting p)) p)
    end
  end.

Definition acts (l : list Action) (p : STATE) : STATE :=
  fold_left (fun p a => act a p) l p.

(** Turns that send nothing and leave the timer to run later: edits and
    resumptions. *)
Definition quiet (a : Action) : Prop :=
  match a with
  | Click | TimerFires => False
  | _ => True
  end.

(** The values of [enabled], [language] and [hint] after the edits of
    [l]. *)
Definition edited (l : list Action) (v : bool * string * string)
  : bool * string * string :=
  fold_left
    (fun v a =>
       match a, v with
       | Toggle b, (_, lang, h) => (b, lang, h)
       | SelectLanguage x, (e, _, h) => (e, x, h)
       | HintInput x, (e, lang, _) => (e, lang, x)
       | _, _ => v
       end) l v.

(** A start message that does not carry [enabled: true]. *)
Definition startWhileDisabled (m : Msg) : Prop :=
  match m with
  | START_TRANSLATION st => settingsEnabled st = false
  | _ => False
  end.

Definition isStart (m : Msg) : Prop :=
  match m with START_TRANSLATION _ => True | _ => False end.

Ltac fields :=
  cbn [enabled language hint runtimeStatus started emitArmed awaiting sent
       set_values setPill setButtonState send store set_emitArmed
       set_awaiting] in *.

End Popup.


(** * Facts about numbers and modes *)

Lemma Qltb_lt (a b : Q) : Qltb a b = true <-> (a < b)%Q.
Proof.
  unfold Qltb. rewrite negb_true_iff. split.
  - intros H. apply Qnot_le_lt. intros Hle.
    apply Qle_bool_iff in Hle. congruence.
  - intros H. destruct (Qle_bool b a) eqn:E; trivial.
    apply Qle_bool_iff in E. exfalso. eapply Qlt_not_le; eauto.
Qed.

Lemma Qltb_ge (a b : Q) : Qltb a b = false <-> (b <= a)%Q.
Proof.
  unfold Qltb. rewrite negb_false_iff. apply Qle_bool_iff.
Qed.

Lemma mode_eqb_eq (a b : MODES) : mode_eqb a b = true <-> a = b.
Proof. destruct a, b; simpl; split; intros H; congruence. Qed.

Lemma mode_eqb_refl (a : MODES) : mode_eqb a a = true.
Proof. now destruct a. Qed.

Lemma tickInterval_250 : (tickInterval == 250)%Q.
Proof. reflexivity. Qed.

(** * Binary64 rounding *)




Lemma pow2_lt a b : a < b -> (pow2 a < pow2 b)%Q.
Proof. intros H. apply Qpower_lt_compat_l; [exact H | reflexivity]. Qed.











(** Some roundings: the double written [0.1]; [0.1 + 0.2], which is
    [0.30000000000000004]; a tie, which goes to the even significand; a
    number that is a double already; the least subnormal, and the tie
    below it, which goes to zero. *)
Example fl64_samples :
  (fl64 (1 # 10) == 3602879701896397 # 36028797018963968)%Q /\
  (fl64 (fl64 (1 # 10) + fl64 (2 # 10))
   == 5404319552844596 # 18014398509481984)%Q /\
  (fl64 (inject_Z (2 ^ 53 + 1)) == inject_Z (2 ^ 53))%Q /\
  (fl64 (inject_Z (2 ^ 53 + 3)) == inject_Z (2 ^ 53 + 4))%Q /\
  (fl64 (37 # 2) == 37 # 2)%Q /\
  (fl64 (- (1 # 3)) == - (6004799503160661 # 18014398509481984))%Q /\
  (fl64 (pow2 (-1074)) == pow2 (-1074))%Q /\
  (fl64 (pow2 (-1075)) == 0)%Q /\
  (fl64 (3 * pow2 (-1075)) == pow2 (-1073))%Q.
Proof. vm_compute. repeat split. Qed.

(** * Line selection *)









(** * The cache *)

Section JsMapFacts.
Context {V : Type}.
Implicit Types (m : JsMap.t V) (k : string) (v : V).

Lemma JsMap_delete_filter k m :
  JsMap.delete k m = filter (fun kv => negb (String.eqb (fst kv) k)) m.
Proof.
  induction m as [|[k' v'] rest IH]; simpl; [reflexivity|].
  destruct (String.eqb k' k); simpl; now rewrite IH.
Qed.

Lemma JsMap_get_none_iff k m :
  JsMap.get k m = None <-> ~ In k (JsMap.keys m).
Proof.
  induction m as [|[k' v'] rest IH]; simpl; [tauto|].
  destruct (String.eqb_spec k' k) as [->|Hne].
  - split; [discriminate | intros H; exfalso; apply H; now left].
  - rewrite IH. tauto.
Qed.

Lemma JsMap_get_delete_same k m : JsMap.get k (JsMap.delete k m) = None.
Proof.
  induction m as [|[k' v'] rest IH]; simpl; [reflexivity|].
  destruct (String.eqb k' k) eqn:E; simpl; [assumption|].
  now rewrite E.
Qed.

Lemma JsMap_get_delete_other k k' m :
  k' <> k -> JsMap.get k (JsMap.delete k' m) = JsMap.get k m.
Proof.
  intros Hne. induction m as [|[k0 v0] rest IH]; simpl; [reflexivity|].
  destruct (String.eqb_spec k0 k') as [->|H0]; simpl.
  - destruct (String.eqb_spec k' k); [contradiction | assumption].
  - now rewrite IH.
Qed.

Lemma JsMap_get_delete_none k k' m :
  JsMap.get k m = None -> JsMap.get k (JsMap.delete k' m) = None.
Proof.
  intros H. destruct (String.eqb_spec k' k) as [->|Hne].
  - apply JsMap_get_delete_same.
  - now rewrite JsMap_get_delete_other.
Qed.

Lemma JsMap_delete_absent k m :
  JsMap.get k m = None -> JsMap.delete k m = m.
Proof.
  induction m as [|[k' v'] rest IH]; simpl; [reflexivity|].
  destruct (String.eqb k' k); [discriminate|].
  intros H. now rewrite IH.
Qed.

Lemma JsMap_size_delete k m : (JsMap.size (JsMap.delete k m) <= JsMap.size m)%nat.
Proof.
  unfold JsMap.size. rewrite JsMap_delete_filter. apply filter_length_le.
Qed.

Lemma JsMap_set_absent k v m :
  JsMap.get k m = None -> JsMap.set k v m = (m ++ [(k, v)])%list.
Proof.
  induction m as [|[k' v'] rest IH]; simpl; [reflexivity|].
  destruct (String.eqb k' k); [discriminate|].
  intros H. now rewrite IH.
Qed.

Lemma JsMap_set_present k v m :
  JsMap.get k m <> None ->
  JsMap.keys (JsMap.set k v m) = JsMap.keys m.
Proof.
  induction m as [|[k' v'] rest IH]; simpl; [congruence|].
  destruct (String.eqb_spec k' k) as [->|Hne]; simpl; [reflexivity|].
  intros H. now rewrite IH.
Qed.

Lemma JsMap_get_set_same k v m : JsMap.get k (JsMap.set k v m) = Some v.
Proof.
  induction m as [|[k' v'] rest IH]; simpl.
  - now rewrite String.eqb_refl.
  - destruct (String.eqb k' k) eqn:E; simpl.
    + now rewrite String.eqb_refl.
    + now rewrite E.
Qed.

Lemma JsMap_size_set k v m :
  (JsMap.size (JsMap.set k v m) <= S (JsMap.size m))%nat.
Proof.
  unfold JsMap.size.
  induction m as [|[k' v'] rest IH]; simpl; [lia|].
  destruct (String.eqb k' k); simpl; lia.
Qed.

Lemma JsMap_keys_delete k m :
  JsMap.keys (JsMap.delete k m)
  = filter (fun k' => negb (String.eqb k' k)) (JsMap.keys m).
Proof.
  induction m as [|[k' v'] rest IH]; simpl; [reflexivity|].
  destruct (String.eqb k' k); simpl; now rewrite IH.
Qed.

Lemma JsMap_nodup_delete k m :
  NoDup (JsMap.keys m) -> NoDup (JsMap.keys (JsMap.delete k m)).
Proof. rewrite JsMap_keys_delete. apply NoDup_filter. Qed.

Lemma JsMap_nodup_set k v m :
  NoDup (JsMap.keys m) -> NoDup (JsMap.keys (JsMap.set k v m)).
Proof.
  intros H. destruct (JsMap.get k m) eqn:E.
  - rewrite JsMap_set_present; [assumption | congruence].
  - rewrite JsMap_set_absent by assumption.
    unfold JsMap.keys. rewrite map_app. simpl.
    apply NoDup_app; [assumption | repeat constructor; simpl; tauto |].
    intros a Ha [<-|[]]. now apply JsMap_get_none_iff in E.
Qed.

Lemma JsMap_delete_head k v m :
  NoDup (JsMap.keys ((k, v) :: m)) -> JsMap.delete k ((k, v) :: m) = m.
Proof.
  intros H. simpl. rewrite String.eqb_refl.
  apply JsMap_delete_absent, JsMap_get_none_iff.
  now inversion H.
Qed.
End JsMapFacts.

Lemma purgeVideo_closed (P : Cache -> Prop) v c :
  (forall k c, P c -> P (JsMap.delete k c)) -> P c -> P (purgeVideo v c).
Proof.
  intros Hd. unfold purgeVideo.
  generalize (JsMap.keys c) as ks. intros ks. revert c.
  induction ks as [|k ks IH]; simpl; intros c Hc; [assumption|].
  apply IH. destruct (prefix (v ++ "|")%string k); auto.
Qed.

Lemma cacheGet_closed (P : Cache -> Prop) k now c :
  (forall k c, P c -> P (JsMap.delete k c)) -> P c -> P (snd (cacheGet k now c)).
Proof.
  intros Hd Hc. unfold cacheGet.
  destruct (JsMap.get k c) as [hit|]; [|assumption].
  destruct (CACHE_TTL_MS <? now - ts hit); simpl; auto.
Qed.

Lemma dropFirstKey_size c :
  c <> [] -> (JsMap.size (dropFirstKey c) < JsMap.size c)%nat.
Proof.
  destruct c as [|[k v] rest]; [congruence|]. intros _.
  unfold dropFirstKey. simpl. rewrite String.eqb_refl.
  pose proof (JsMap_size_delete k rest). unfold JsMap.size in *. simpl. lia.
Qed.

Lemma cacheSet_withinBound k now d c :
  withinBound c -> withinBound (cacheSet k now d c).
Proof.
  unfold withinBound, cacheSet. intros H.
  pose proof (JsMap_size_set k (mkEntry now d) c) as Hs.
  destruct (Nat.ltb_spec CACHE_MAX (JsMap.size (JsMap.set k (mkEntry now d) c)))
    as [Hgt|Hle]; [|assumption].
  assert (Hne : JsMap.set k (mkEntry now d) c <> []).
  { intros E. rewrite E in Hgt. unfold JsMap.size, CACHE_MAX in Hgt. simpl in Hgt. lia. }
  pose proof (dropFirstKey_size _ Hne). lia.
Qed.

Lemma withinBound_closed : CacheClosed withinBound.
Proof.
  split.
  - intros k c H. unfold withinBound in *.
    pose proof (JsMap_size_delete k c). lia.
  - intros. now apply cacheSet_withinBound.
Qed.

Lemma dropFirstKey_nodup c :
  NoDup (JsMap.keys c) -> NoDup (JsMap.keys (dropFirstKey c)).
Proof.
  destruct c as [|[k v] rest]; [trivial|].
  unfold dropFirstKey. apply JsMap_nodup_delete.
Qed.

Lemma nodup_closed : CacheClosed (fun c => NoDup (JsMap.keys c)).
Proof.
  split.
  - intros. now apply JsMap_nodup_delete.
  - intros k now d c H. unfold cacheSet.
    destruct (_ <? _)%nat.
    + now apply dropFirstKey_nodup, JsMap_nodup_set.
    + now apply JsMap_nodup_set.
Qed.

Lemma applyOp_closed (P : Cache -> Prop) op c :
  CacheClosed P -> P c -> P (applyOp c op).
Proof.
  intros [Hd Hs] Hc. destruct op; simpl.
  - now apply cacheGet_closed.
  - now apply Hs.
  - now apply purgeVideo_closed.
Qed.

Lemma runOps_closed (P : Cache -> Prop) ops c :
  CacheClosed P -> P c -> P (runOps ops c).
Proof.
  intros HP. unfold runOps. revert c.
  induction ops as [|op ops IH]; simpl; intros c Hc; [assumption|].
  apply IH. now apply applyOp_closed.
Qed.

(** An insertion of a new key into a full cache drops the first key. *)
Lemma cacheSet_full_evicts_first key now d c :
  NoDup (JsMap.keys c) ->
  JsMap.size c = CACHE_MAX ->
  JsMap.get key c = None ->
  exists k0 e0 rest,
    c = (k0, e0) :: rest /\
    cacheSet key now d c = (rest ++ [(key, mkEntry now d)])%list.
Proof.
  intros Hnd Hsz Hget.
  destruct c as [|[k0 e0] rest]; [discriminate|].
  exists k0, e0, rest. split; [reflexivity|].
  unfold cacheSet. rewrite JsMap_set_absent by assumption.
  assert (Hlen : (CACHE_MAX <? JsMap.size (((k0, e0) :: rest) ++ [(key, mkEntry now d)])%list)%nat = true).
  { apply Nat.ltb_lt. unfold JsMap.size in *. rewrite length_app. simpl in *. lia. }
  rewrite Hlen.
  change ((((k0, e0) :: rest) ++ [(key, mkEntry now d)])%list)
    with ((k0, e0) :: (rest ++ [(key, mkEntry now d)])%list).
  unfold dropFirstKey. apply JsMap_delete_head.
  change ((k0, e0) :: (rest ++ [(key, mkEntry now d)])%list)
    with ((((k0, e0) :: rest) ++ [(key, mkEntry now d)])%list).
  rewrite <- (JsMap_set_absent key (mkEntry now d) ((k0, e0) :: rest)) by assumption.
  now apply JsMap_nodup_set.
Qed.

(** Overwriting a present key evicts nothing and keeps the key order. *)
Lemma cacheSet_overwrite key now d c :
  withinBound c -> JsMap.get key c <> None ->
  cacheSet key now d c = JsMap.set key (mkEntry now d) c /\
  JsMap.keys (cacheSet key now d c) = JsMap.keys c.
Proof.
  intros Hb Hget.
  assert (Hk := JsMap_set_present key (mkEntry now d) c Hget).
  assert (Hsz : JsMap.size (JsMap.set key (mkEntry now d) c) = JsMap.size c).
  { unfold JsMap.size, JsMap.keys in *.
    rewrite <- (length_map fst (JsMap.set key (mkEntry now d) c)), Hk.
    apply length_map. }
  unfold cacheSet. rewrite Hsz.
  destruct (Nat.ltb_spec CACHE_MAX (JsMap.size c)) as [Hgt|_].
  - unfold withinBound in Hb. lia.
  - now split.
Qed.
Lemma oldestFirst_delete k c : oldestFirst c -> oldestFirst (JsMap.delete k c).
Proof.
  unfold oldestFirst. rewrite JsMap_delete_filter.
  induction 1 as [|a rest Hs IH Hall]; simpl; [constructor|].
  destruct (negb (String.eqb (fst a) k)); [|assumption].
  constructor; [assumption|].
  rewrite Forall_forall in *. intros x Hx.
  apply filter_In in Hx. now apply Hall.
Qed.

Lemma stampedBy_delete clock k c :
  stampedBy clock c -> stampedBy clock (JsMap.delete k c).
Proof.
  unfold stampedBy. rewrite JsMap_delete_filter, !Forall_forall.
  intros H x Hx. apply filter_In in Hx. now apply H.
Qed.

Lemma stampedBy_mono clock clock' c :
  clock <= clock' -> stampedBy clock c -> stampedBy clock' c.
Proof.
  unfold stampedBy. rewrite !Forall_forall. intros Hle H x Hx.
  specialize (H x Hx). simpl in H. lia.
Qed.

Lemma oldestFirst_snoc clock c k now d :
  oldestFirst c -> stampedBy clock c -> clock <= now ->
  oldestFirst (c ++ [(k, mkEntry now d)]).
Proof.
  unfold oldestFirst, stampedBy. intros Hs Hall Hle.
  induction Hs as [|a rest Hs IH Hfa]; simpl.
  - repeat constructor.
  - inversion Hall as [|? ? Ha Hrest]; subst.
    constructor; [now apply IH|].
    apply Forall_app. split; [assumption|].
    repeat constructor. unfold olderOrSame. simpl. lia.
Qed.

Lemma dropFirstKey_delete (P : Cache -> Prop) c :
  (forall k c, P c -> P (JsMap.delete k c)) -> P c -> P (dropFirstKey c).
Proof.
  intros Hd Hc. destruct c as [|[k v] rest]; [assumption|].
  unfold dropFirstKey. now apply Hd.
Qed.

Lemma orderly_oldestFirst ops : forall clock c,
  oldestFirst c -> stampedBy clock c -> orderly clock c ops ->
  oldestFirst (runOps ops c).
Proof.
  induction ops as [|op ops IH]; intros clock c Hs Hst Hord; [assumption|].
  change (runOps (op :: ops) c) with (runOps ops (applyOp c op)).
  destruct op as [key now|key now d|v]; simpl in Hord.
  - destruct Hord as [Hle Hord]. apply (IH now); [| |assumption]; simpl.
    + apply (cacheGet_closed oldestFirst); [apply oldestFirst_delete | assumption].
    + apply (cacheGet_closed (stampedBy now));
        [apply stampedBy_delete | now apply (stampedBy_mono clock)].
  - destruct Hord as [Hle [Habs Hord]]. apply (IH now); [| |assumption]; simpl;
      unfold cacheSet; rewrite (JsMap_set_absent _ _ _ Habs).
    + assert (oldestFirst (c ++ [(key, mkEntry now d)]))
        by now apply (oldestFirst_snoc clock).
      destruct (_ <? _)%nat; [|assumption].
      apply (dropFirstKey_delete oldestFirst); [apply oldestFirst_delete | assumption].
    + assert (stampedBy now (c ++ [(key, mkEntry now d)])).
      { apply Forall_app. split; [now apply (stampedBy_mono clock)|].
        repeat constructor. simpl. lia. }
      destruct (_ <? _)%nat; [|assumption].
      apply (dropFirstKey_delete (stampedBy now)); [apply stampedBy_delete | assumption].
  - apply (IH clock); [| |assumption]; simpl.
    + apply purgeVideo_closed; [apply oldestFirst_delete | assumption].
    + apply purgeVideo_closed; [apply stampedBy_delete | assumption].
Qed.

(** * Keys and the purge *)














(** * The chains of requests *)

Section ChainsFacts.
Variables (m : MODES) (cs : Chains).
Hypothesis Hok : ChainsOK m cs.

Lemma live_is_inflight c i :
  In c (c_pending cs) -> cCancelled c cs = false ->
  c_inflight cs = Some i -> ctrl i = c.
Proof.
  intros Hin Hlive Hi.
  destruct (ok_live_current _ _ Hok c Hin Hlive) as [k Hk].
  rewrite Hk in Hi. now injection Hi as <-.
Qed.

Lemma ok_keep m' : m' = m \/ m' <> IDLE -> ChainsOK m' cs.
Proof.
  intros Hm. destruct Hok. split; trivial.
  intros ->. destruct Hm as [<-|Hm]; [auto | congruence].
Qed.

Lemma ok_abort m' : ChainsOK m' (cAbort cs).
Proof.
  unfold cAbort. destruct (c_inflight cs) as [i|] eqn:Hi.
  - assert (Hall : forall c, In c (c_pending cs) ->
                             cCancelled c (mkChains (c_pending cs)
                               (ctrl i :: c_aborted cs) (c_next cs) None) = true).
    { intros c Hin. unfold cCancelled. cbn [c_aborted existsb].
      destruct (Nat.eqb_spec c (ctrl i)) as [|Hne]; [reflexivity|]. simpl.
      destruct (existsb (Nat.eqb c) (c_aborted cs)) eqn:E; [reflexivity|].
      exfalso. apply Hne. symmetry. now apply (live_is_inflight c i). }
    destruct Hok. split; cbn [c_pending c_aborted c_next c_inflight]; trivial.
    + intros c Hin Hlive. rewrite Hall in Hlive by assumption. discriminate.
    + discriminate.
    + intros c [<-|Hin]; auto.
    + auto.
  - destruct Hok. split; trivial. intros _. split; [assumption|].
    intros c Hin. destruct (cCancelled c cs) eqn:E; [reflexivity|].
    destruct (ok_live_current0 c Hin E) as [k Hk]. congruence.
Qed.

Lemma ok_advance c :
  In c (c_pending cs) -> cCancelled c cs = false -> ChainsOK m (cAdvance c cs).
Proof.
  intros Hin Hlive. pose proof Hok as [H1 H2 H3 H4 H5 H6].
  split; cbn [cAdvance c_pending c_aborted c_next c_inflight]; trivial.
  - intros c' Hin' Hlive'. destruct (H3 c Hin Hlive) as [k Hk].
    rewrite <- (live_is_inflight c' _ Hin' Hlive' Hk). simpl.
    now exists translate.
  - intros i [= <-]. simpl. auto.
  - intros Hm. destruct (H6 Hm) as [_ Hall].
    rewrite (Hall c Hin) in Hlive. discriminate.
Qed.

Lemma ok_finish c :
  In c (c_pending cs) -> cCancelled c cs = false -> ChainsOK m (cFinish c cs).
Proof.
  intros Hin Hlive. pose proof Hok as [H1 H2 H3 H4 H5 H6].
  destruct (H3 c Hin Hlive) as [k Hk].
  split; cbn [cFinish c_pending c_aborted c_next c_inflight]; trivial.
  - intros c' Hin'. apply filter_In in Hin'. now apply H1.
  - now apply NoDup_filter.
  - intros c' Hin' Hlive'. apply filter_In in Hin'. destruct Hin' as [Hin' Hne].
    apply negb_true_iff, Nat.eqb_neq in Hne.
    exfalso. apply Hne. symmetry.
    exact (live_is_inflight c' (mkInflight c k) Hin' Hlive' Hk).
  - discriminate.
  - intros Hm. destruct (H6 Hm) as [_ Hall].
    rewrite (Hall c Hin) in Hlive. discriminate.
Qed.

Lemma ok_drop c m' : m' = m \/ m' <> IDLE -> ChainsOK m' (cDrop c cs).
Proof.
  intros Hm. pose proof Hok as [H1 H2 H3 H4 H5 H6].
  split; cbn [cDrop c_pending c_aborted c_next c_inflight]; trivial.
  - intros c' Hin'. apply filter_In in Hin'. now apply H1.
  - now apply NoDup_filter.
  - intros c' Hin' Hlive'. apply filter_In in Hin'. now apply H3.
  - intros ->. destruct Hm as [<-|Hm]; [|congruence].
    destruct (H6 eq_refl) as [Hnone Hall]. split; [assumption|].
    intros c' Hin'. apply filter_In in Hin'. now apply Hall.
Qed.
End ChainsFacts.

Lemma ok_restart m m' cs :
  ChainsOK m cs -> m' <> IDLE -> ChainsOK m' (cRestart cs).
Proof.
  intros Hok Hm.
  destruct (ok_abort m cs Hok IDLE) as [H1 H2 H3 H4 H5 H6].
  destruct (H6 eq_refl) as [Hnone Hall].
  unfold cRestart. set (cs1 := cAbort cs) in *.
  split; cbn [cStart c_pending c_aborted c_next c_inflight].
  - intros c Hin. apply in_app_or in Hin.
    destruct Hin as [Hin|[<-|[]]]; [specialize (H1 c Hin)|]; lia.
  - apply NoDup_app; [assumption | repeat constructor; simpl; tauto |].
    intros c Hin [<-|[]]. specialize (H1 _ Hin). lia.
  - intros c Hin Hlive. apply in_app_or in Hin.
    destruct Hin as [Hin|[<-|[]]].
    + change (cCancelled c cs1 = false) in Hlive.
      rewrite (Hall c Hin) in Hlive. discriminate.
    + now exists chunks.
  - intros i [= <-]. simpl. lia.
  - intros c Hin. specialize (H5 c Hin). lia.
  - congruence.
Qed.

Lemma cAbort_idem cs : cAbort (cAbort cs) = cAbort cs.
Proof. unfold cAbort. destruct (c_inflight cs) eqn:E; simpl; now rewrite ?E. Qed.

Lemma cRestart_cAbort cs : cRestart (cAbort cs) = cRestart cs.
Proof. unfold cRestart. now rewrite cAbort_idem. Qed.

Lemma Inv_effect s s' : Inv s -> Effect s s' -> Inv s'.
Proof.
  unfold Inv. intros Hok [Hc Hm|Hc|Hc Hm|c Hin Hlive Hc Hm|c Hin Hlive Hc Hm|c Hc Hm];
    rewrite Hc.
  - apply (ok_keep _ _ Hok). destruct Hm as [->|[->| ->]]; auto; right; congruence.
  - apply (ok_abort _ _ Hok).
  - apply (ok_restart _ _ _ Hok). congruence.
  - rewrite Hm. now apply (ok_advance _ _ Hok).
  - rewrite Hm. now apply (ok_finish _ _ Hok).
  - apply (ok_drop _ _ Hok). destruct Hm as [->| ->]; auto; right; congruence.
Qed.

(** * What each handler does to the chains and the mode *)

Lemma mode_setState m s : mode (setState m s) = m.
Proof.
  unfold setState. destruct (mode_eqb (mode s) m) eqn:E; [|reflexivity].
  now apply mode_eqb_eq in E.
Qed.

Lemma chains_setState m s : chains (setState m s) = chains s.
Proof. unfold setState. now destruct (mode_eqb (mode s) m). Qed.

Lemma chains_abortInflight s : chains (abortInflight s) = cAbort (chains s).
Proof.
  destruct s as [? ? ? ? ? ? ? ? [i|] ? ? ? ? ? ? ?]; reflexivity.
Qed.

Lemma mode_abortInflight s : mode (abortInflight s) = mode s.
Proof. unfold abortInflight. now destruct (inflight s). Qed.

Lemma chains_startRequest v k t s :
  chains (startRequest v k t s) = cStart (chains s).
Proof. unfold startRequest, cStart, chains. fields. now rewrite map_app. Qed.

Lemma chains_injectIfReady s : chains (injectIfReady s) = chains s.
Proof. unfold injectIfReady, ensureOverlay. fields. now destruct (overlay s). Qed.

Lemma mode_injectIfReady s : mode (injectIfReady s) = mode s.
Proof. unfold injectIfReady, ensureOverlay. fields. now destruct (overlay s). Qed.

Lemma tick_effect env s :
  mode (onTimeTick env s) = mode s /\
  (chains (onTimeTick env s) = chains s \/
   (mode s = ACTIVE /\ chains (onTimeTick env s) = cRestart (chains s))).
Proof.
  unfold onTimeTick.
  destruct (videoEl s); cbn [negb orb]; [|auto].
  destruct (mode_eqb (mode s) ACTIVE) eqn:Hm; cbn [negb]; [|auto].
  apply mode_eqb_eq in Hm.
  destruct (Qltb _ _); [auto|]. fields.
  destruct (videoId s) as [vid|]; [|auto].
  destruct (String.eqb vid ""); [auto|].
  destruct (adShowing env); [auto|].
  destruct (cacheGet _ _ _) as [[cached|] cache']; [auto|].
  split.
  - unfold startRequest. fields. now rewrite mode_abortInflight.
  - right. split; [assumption|].
    now rewrite chains_startRequest, chains_abortInflight.
Qed.

Lemma wait_effect env n s :
  (chains (wait env n s) = chains s /\
   (mode (wait env n s) = mode s \/ mode (wait env n s) = ERROR)) \/
  (mode s = ACTIVE /\ mode (wait env n s) = ACTIVE /\
   chains (wait env n s) = cRestart (chains s)).
Proof.
  unfold wait. destruct (playerReady env).
  - destruct (tick_effect env (set_lastTickAt 0 (injectIfReady s)))
      as [Hm [Hc|[Ha Hc]]]; rewrite Hm, Hc; fields;
      rewrite ?mode_injectIfReady in *;
      change (chains (set_lastTickAt 0 (injectIfReady s)))
        with (chains (injectIfReady s));
      rewrite chains_injectIfReady; auto.
  - destruct (_ <? _)%nat.
    + left. auto.
    + left. rewrite chains_setState, mode_setState. auto.
Qed.

Lemma tryStartActive_effect env s :
  (chains (tryStartActive env s) = chains s /\
   (mode (tryStartActive env s) = mode s \/
    mode (tryStartActive env s) = ACTIVE \/
    mode (tryStartActive env s) = ERROR)) \/
  (mode (tryStartActive env s) = ACTIVE /\
   chains (tryStartActive env s) = cRestart (chains s)).
Proof.
  unfold tryStartActive. destruct (enabled s); cbn [negb]; [|auto].
  destruct (wait_effect env 0 (setState ACTIVE s)) as [[Hc Hm]|[_ [Hm Hc]]];
    rewrite chains_setState, ?mode_setState in *; [left | right; auto].
  split; [assumption|]. destruct Hm; auto.
Qed.

Lemma stopAll_effect s :
  mode (stopAll s) = IDLE /\ chains (stopAll s) = cAbort (chains s).
Proof.
  unfold stopAll, removeOverlayAndListeners. fields.
  rewrite mode_abortInflight, mode_setState. split; [reflexivity|].
  change (chains (abortInflight (setState IDLE s)) = cAbort (chains s)).
  now rewrite chains_abortInflight, chains_setState.
Qed.

Lemma resetForNavigation_effect env s :
  mode (resetForNavigation env s) = IDLE /\
  chains (resetForNavigation env s) = cAbort (chains s).
Proof.
  unfold resetForNavigation. destruct (stopAll_effect s) as [Hm Hc].
  destruct (videoId (stopAll s)) as [v|]; [destruct (String.eqb v "")|]; auto.
Qed.

Lemma enabled_resetForNavigation env s :
  enabled (resetForNavigation env s) = enabled s.
Proof.
  unfold resetForNavigation, stopAll, removeOverlayAndListeners,
    abortInflight, setState.
  destruct (mode_eqb (mode s) IDLE), (inflight s); fields;
    repeat match goal with
           | |- context [match ?x with _ => _ end] => destruct x
           end; reflexivity.
Qed.

(** A change of video aborts, and may go on to start a request. *)
Lemma navigation_effect env s :
  let s' := tryStartActive env (resetForNavigation env s) in
  (chains s' = cAbort (chains s) \/
   (mode s' = ACTIVE /\ chains s' = cRestart (chains s))).
Proof.
  intros s'. subst s'.
  destruct (resetForNavigation_effect env s) as [Hm Hc].
  destruct (tryStartActive_effect env (resetForNavigation env s))
    as [[Hc' _]|[Hm' Hc']]; rewrite Hc' , Hc; [auto|].
  right. split; [assumption | apply cRestart_cAbort].
Qed.

Lemma onUrlMaybeChanged_effect env s : Effect s (onUrlMaybeChanged env s).
Proof.
  unfold onUrlMaybeChanged.
  destruct (String.eqb (href env) (lastUrl s)); [apply eff_keep; auto|].
  fields. destruct (videoId_eqb _ _); cbn [negb]; [apply eff_keep; auto|].
  set (s0 := set_lastUrl (href env) s).
  change (chains s) with (chains s0).
  destruct (resetForNavigation_effect env s0) as [Hm Hc].
  destruct (enabled (resetForNavigation env s0) &&
            negb (mode_eqb (mode (resetForNavigation env s0)) ERROR)).
  - destruct (navigation_effect env s0) as [H|[H1 H2]].
    + apply eff_abort. exact H.
    + apply eff_restart; assumption.
  - now apply eff_abort.
Qed.

Lemma onMessage_effect env msg s : Effect s (onMessage env msg s).
Proof.
  destruct msg as [st|st| |]; unfold onMessage.
  - set (s1 := set_hint _ _).
    assert (Hc : chains s1 = chains s) by reflexivity.
    assert (Hm : mode s1 = mode s) by reflexivity.
    destruct (enabled s1 && mode_eqb (mode s1) IDLE).
    + destruct (tryStartActive_effect env s1) as [[Hc' Hm']|[Hm' Hc']];
        rewrite Hc, ?Hm in *; [apply eff_keep | apply eff_restart]; auto.
    + destruct (negb (enabled s1) && negb (mode_eqb (mode s1) IDLE)).
      * apply eff_abort. destruct (stopAll_effect s1) as [_ ->]. now rewrite Hc.
      * apply eff_keep; auto.
  - set (s1 := set_videoId _ _).
    assert (Hc : chains s1 = chains s) by reflexivity.
    assert (Hm : mode s1 = mode s) by reflexivity.
    destruct (tryStartActive_effect env s1) as [[Hc' Hm']|[Hm' Hc']];
      rewrite Hc, ?Hm in *; [apply eff_keep | apply eff_restart]; auto.
  - apply eff_abort. now destruct (stopAll_effect s) as [_ ->].
  - apply eff_keep; auto.
Qed.

Lemma findRequest_some c l r :
  findRequest c l = Some r -> In r l /\ rctrl r = c.
Proof.
  unfold findRequest. intros H. apply find_some in H.
  destruct H as [Hin Heq]. now apply Nat.eqb_eq in Heq.
Qed.

Lemma findRequest_none c l :
  findRequest c l = None -> ~ In c (map rctrl l).
Proof.
  unfold findRequest. intros H Hin. apply in_map_iff in Hin.
  destruct Hin as [r [Hr Hin]]. pose proof (find_none _ _ H r Hin) as Hn.
  simpl in Hn. rewrite Hr, Nat.eqb_refl in Hn. discriminate.
Qed.

Lemma ctrls_dropRequest c l :
  map rctrl (dropRequest c l) = cWithout c (map rctrl l).
Proof.
  unfold dropRequest, cWithout. induction l as [|r l IH]; simpl; [reflexivity|].
  destruct (Nat.eqb (rctrl r) c); simpl; now rewrite IH.
Qed.

Lemma ctrls_advanceRequest c st l :
  map rctrl (advanceRequest c st l) = map rctrl l.
Proof.
  unfold advanceRequest. rewrite map_map. apply map_ext.
  intros r. now destruct (Nat.eqb (rctrl r) c).
Qed.

Lemma chains_hydrationFailed s : chains (hydrationFailed s) = chains s.
Proof.
  unfold hydrationFailed, setCaptionText, setState.
  now destruct (mode_eqb (mode s) ERROR).
Qed.

Lemma mode_hydrationFailed s : mode (hydrationFailed s) = ERROR.
Proof.
  unfold hydrationFailed, setCaptionText. fields. apply mode_setState.
Qed.

Lemma settle_effect env c o s : Effect s (settle env c o s).
Proof.
  unfold settle. destruct (findRequest c (pending s)) as [r|] eqn:F;
    [|apply eff_keep; auto].
  destruct (findRequest_some _ _ _ F) as [Hin Hr].
  assert (Hp : In c (c_pending (chains s))).
  { simpl. rewrite <- Hr. now apply in_map. }
  assert (Hdrop : chains (set_pending (dropRequest c (pending s)) s)
                  = cDrop c (chains s)).
  { unfold chains, cDrop. fields. now rewrite ctrls_dropRequest. }
  unfold delivered, continueChain. rewrite Hr.
  change (isAborted c s) with (cCancelled c (chains s)).
  destruct (cCancelled c (chains s)) eqn:Hlive.
  { apply (eff_drop _ _ c); [|auto].
    destruct (rstage r); exact Hdrop. }
  destruct o as [lines| |]; [destruct (rstage r)| |].
  - apply (eff_advance _ _ c); trivial.
    unfold chains, cAdvance. fields. now rewrite ctrls_advanceRequest.
  - apply (eff_finish _ _ c); trivial.
    unfold renderFromWindow, setCaptionText, chains, cFinish. fields.
    now rewrite ctrls_dropRequest.
  - apply (eff_drop _ _ c); [|auto]. destruct (rstage r); exact Hdrop.
  - apply (eff_drop _ _ c).
    + destruct (rstage r); rewrite chains_hydrationFailed; exact Hdrop.
    + right. destruct (rstage r); apply mode_hydrationFailed.
Qed.

Lemma onTimer_effect env k s : Effect s (onTimer env k s).
Proof.
  unfold onTimer. destruct (nth_error (timers s) k) as [[|n]|];
    [| |apply eff_keep; auto].
  - apply eff_keep; [now rewrite chains_setState|].
    rewrite mode_setState. auto.
  - set (s1 := set_timers _ _).
    destruct (wait_effect env n s1) as [[Hc Hm]|[Hm [Hm' Hc]]].
    + apply eff_keep; [exact Hc|]. destruct Hm as [->| ->]; auto.
    + apply eff_restart; assumption.
Qed.

Lemma step_effect env e s : Effect s (step env e s).
Proof.
  destruct e; cbn [step].
  1, 2: destruct (tick_effect env s) as [Hm [Hc|[Ha Hc]]];
        [apply eff_keep; auto | apply eff_restart; congruence].
  - destruct (tick_effect env (set_lastTickAt 0 s)) as [Hm [Hc|[Ha Hc]]];
      [apply eff_keep; auto | apply eff_restart; [exact Hc|]].
    rewrite Hm. exact Ha.
  - apply eff_keep; auto.
  - apply eff_keep; auto.
  - apply onMessage_effect.
  - apply onUrlMaybeChanged_effect.
  - apply settle_effect.
  - apply onTimer_effect.
Qed.

Lemma Inv_boot env : Inv (boot env).
Proof.
  split; simpl; try tauto; try discriminate; try constructor; tauto.
Qed.

Lemma Inv_reachable s : reachable s -> Inv s.
Proof.
  induction 1 as [env|env e s _ IH]; [apply Inv_boot|].
  exact (Inv_effect _ _ IH (step_effect env e s)).
Qed.

Lemma reachable_run s trace : reachable s -> reachable (run s trace).
Proof.
  revert s. induction trace as [|[env e] rest IH]; intros s Hs; [assumption|].
  simpl. apply IH. now constructor.
Qed.

(** * Fields that handlers leave alone *)

Lemma mode_settle env c o s :
  mode (settle env c o s) = mode s \/ mode (settle env c o s) = ERROR.
Proof.
  unfold settle, continueChain.
  destruct (findRequest c (pending s)) as [r|]; [|auto].
  destruct (delivered c o s), (rstage r); auto;
    right; apply mode_hydrationFailed.
Qed.

Lemma hint_tryStartActive env s : hint (tryStartActive env s) = hint s.
Proof. open_handlers. split_cases; reflexivity. Qed.

Lemma language_tryStartActive env s :
  language (tryStartActive env s) = language s.
Proof. open_handlers. split_cases; reflexivity. Qed.

Lemma hint_stopAll s : hint (stopAll s) = hint s.
Proof. open_handlers. split_cases; reflexivity. Qed.

Lemma language_stopAll s : language (stopAll s) = language s.
Proof. open_handlers. split_cases; reflexivity. Qed.

Lemma lastTickAt_accepted env s :
  tickAccepted env s = true -> lastTickAt (onTimeTick env s) = perfNow env.
Proof.
  unfold tickAccepted. open_handlers.
  destruct (negb (videoEl s) || negb (mode_eqb (mode s) ACTIVE)); [discriminate|].
  destruct (Qltb _ _); [discriminate|]. intros _.
  split_cases; reflexivity.
Qed.

Lemma onTimeTick_rejected env s :
  tickAccepted env s = false -> onTimeTick env s = s.
Proof.
  unfold tickAccepted, onTimeTick.
  destruct (negb (videoEl s) || negb (mode_eqb (mode s) ACTIVE)); [reflexivity|].
  destruct (Qltb _ _); [reflexivity | discriminate].
Qed.

(** Timers are only ever added by the handlers; a timeout that runs removes
    itself alone. *)
Lemma timers_tick env s : timers (onTimeTick env s) = timers s.
Proof. open_handlers. split_cases; reflexivity. Qed.

Lemma timers_wait env n s tm :
  In tm (timers s) -> In tm (timers (wait env n s)).
Proof.
  unfold wait. destruct (playerReady env).
  - rewrite timers_tick. open_handlers. split_cases; trivial.
  - open_handlers. split_cases; trivial. intros H. apply in_or_app. now left.
Qed.

Lemma timers_tryStartActive env s tm :
  In tm (timers s) -> In tm (timers (tryStartActive env s)).
Proof.
  unfold tryStartActive. destruct (enabled s); cbn [negb]; [|trivial].
  intros H. apply timers_wait. unfold setState. split_cases; trivial.
Qed.

Lemma timers_stopAll s : timers (stopAll s) = timers s.
Proof. open_handlers. split_cases; reflexivity. Qed.

Lemma timers_resetForNavigation env s :
  timers (resetForNavigation env s) = timers s.
Proof.
  unfold resetForNavigation. fields.
  destruct (videoId (stopAll s)) as [v|]; [destruct (String.eqb v "")|];
    fields; apply timers_stopAll.
Qed.

Lemma timers_onMessage env msg s tm :
  In tm (timers s) -> In tm (timers (onMessage env msg s)).
Proof.
  intros H. destruct msg; unfold onMessage; fields.
  - destruct (_ && _); [now apply timers_tryStartActive|].
    destruct (_ && _); [now rewrite timers_stopAll | assumption].
  - now apply timers_tryStartActive.
  - now rewrite timers_stopAll.
  - assumption.
Qed.

Lemma timers_onUrlMaybeChanged env s tm :
  In tm (timers s) -> In tm (timers (onUrlMaybeChanged env s)).
Proof.
  intros H. unfold onUrlMaybeChanged.
  destruct (String.eqb _ _); [assumption|].
  destruct (negb _); [|assumption].
  destruct (_ && _).
  - apply timers_tryStartActive. now rewrite timers_resetForNavigation.
  - now rewrite timers_resetForNavigation.
Qed.

Lemma timers_settle env c o s tm :
  In tm (timers s) -> In tm (timers (settle env c o s)).
Proof.
  intros H. unfold settle, continueChain.
  destruct (findRequest c (pending s)) as [r|]; [|assumption].
  destruct (delivered c o s), (rstage r); open_handlers; split_cases;
    trivial; apply in_or_app; now left.
Qed.

Lemma removeNth_keeps {A : Type} (x y : A) : forall k l,
  In x l -> nth_error l k = Some y -> x <> y -> In x (removeNth k l).
Proof.
  induction k as [|k IH]; intros [|z l] Hin Hn Hne; simpl in *;
    try discriminate.
  - injection Hn as ->. destruct Hin as [->|Hin]; [congruence | assumption].
  - destruct Hin as [->|Hin]; [now left | right; now apply IH].
Qed.

Lemma recovery_stays_pending env e s :
  In TRecover (timers s) -> ~ firesRecovery e s ->
  In TRecover (timers (step env e s)).
Proof.
  intros H Hno. destruct e; cbn [step].
  1, 2: now rewrite timers_tick.
  - now rewrite timers_tick.
  - assumption.
  - assumption.
  - now apply timers_onMessage.
  - now apply timers_onUrlMaybeChanged.
  - now apply timers_settle.
  - unfold onTimer. destruct (nth_error (timers s) k) as [[|n]|] eqn:E;
      [exfalso; apply Hno; now exists k | | assumption].
    apply timers_wait. fields. apply (removeNth_keeps _ (TWait n)); trivial.
    discriminate.
Qed.

(** ** The cache under the handlers *)

Section CacheUnderHandlers.
Variable P : Cache -> Prop.
Hypothesis Pdelete : forall k c, P c -> P (JsMap.delete k c).

Lemma cache_tick env s : P (cache s) -> P (cache (onTimeTick env s)).
Proof.
  intros H. unfold onTimeTick.
  destruct (_ || _); [assumption|]. destruct (Qltb _ _); [assumption|].
  fields. destruct (videoId s) as [vid|]; [|assumption].
  destruct (String.eqb vid ""); [assumption|].
  destruct (adShowing env); [assumption|].
  pose proof (cacheGet_closed P (cacheKey vid (language s) (currentTime env))
                (dateNow env) (cache s) Pdelete H) as Hg.
  destruct (cacheGet _ _ _) as [[cached|] cache']; simpl in Hg.
  - assumption.
  - open_handlers. split_cases; assumption.
Qed.

Lemma cache_wait env n s : P (cache s) -> P (cache (wait env n s)).
Proof.
  intros H. unfold wait. destruct (playerReady env).
  - apply cache_tick. open_handlers. split_cases; assumption.
  - open_handlers. split_cases; assumption.
Qed.

Lemma cache_tryStartActive env s :
  P (cache s) -> P (cache (tryStartActive env s)).
Proof.
  intros H. unfold tryStartActive. destruct (enabled s); cbn [negb]; [|assumption].
  apply cache_wait. unfold setState. split_cases; assumption.
Qed.

Lemma cache_stopAll s : cache (stopAll s) = cache s.
Proof. open_handlers. split_cases; reflexivity. Qed.


Lemma cache_resetForNavigation env s :
  P (cache s) -> P (cache (resetForNavigation env s)).
Proof.
  intros H. unfold resetForNavigation. fields.
  destruct (videoId (stopAll s)) as [v|]; [destruct (String.eqb v "")|];
    fields; rewrite cache_stopAll; trivial.
  now apply purgeVideo_closed.
Qed.

Lemma cache_onUrlMaybeChanged env s :
  P (cache s) -> P (cache (onUrlMaybeChanged env s)).
Proof.
  intros H. unfold onUrlMaybeChanged.
  destruct (String.eqb _ _); [assumption|].
  destruct (negb _); [|assumption].
  destruct (_ && _).
  - apply cache_tryStartActive. now apply cache_resetForNavigation.
  - now apply cache_resetForNavigation.
Qed.

Lemma cache_onMessage env msg s :
  P (cache s) -> P (cache (onMessage env msg s)).
Proof.
  intros H. destruct msg; unfold onMessage; fields.
  - destruct (_ && _); [now apply cache_tryStartActive|].
    destruct (_ && _); [now rewrite cache_stopAll | assumption].
  - now apply cache_tryStartActive.
  - now rewrite cache_stopAll.
  - assumption.
Qed.

Lemma cache_onTimer env k s : P (cache s) -> P (cache (onTimer env k s)).
Proof.
  intros H. unfold onTimer. destruct (nth_error (timers s) k) as [[|n]|];
    [unfold setState; split_cases; assumption | | assumption].
  now apply cache_wait.
Qed.

Hypothesis Pset : forall k now d c, P c -> P (cacheSet k now d c).

Lemma cache_settle env c o s : P (cache s) -> P (cache (settle env c o s)).
Proof.
  intros H. unfold settle, continueChain.
  destruct (findRequest c (pending s)) as [r|]; [|assumption].
  destruct (delivered c o s), (rstage r); open_handlers; split_cases;
    trivial; now apply Pset.
Qed.

Lemma cache_step env e s : P (cache s) -> P (cache (step env e s)).
Proof.
  intros H. destruct e; cbn [step].
  1, 2: now apply cache_tick.
  - now apply cache_tick.
  - assumption.
  - assumption.
  - now apply cache_onMessage.
  - now apply cache_onUrlMaybeChanged.
  - now apply cache_settle.
  - now apply cache_onTimer.
Qed.
End CacheUnderHandlers.

Lemma cache_reachable (P : Cache -> Prop) s :
  CacheClosed P -> P [] -> reachable s -> P (cache s).
Proof.
  intros [Hd Hs] H0. induction 1 as [env|env e s _ IH]; [exact H0|].
  now apply cache_step.
Qed.

(** * Requests that were superseded or cancelled *)

Lemma isPending_chains c s : isPending c s <-> In c (c_pending (chains s)).
Proof.
  unfold isPending. simpl. rewrite in_map_iff. split.
  - intros [r [Hin Hr]]. now exists r.
  - intros [r [Hr Hin]]. now exists r.
Qed.

Lemma findRequest_pending c s :
  isPending c s -> exists r, findRequest c (pending s) = Some r.
Proof.
  intros Hp. destruct (findRequest c (pending s)) as [r|] eqn:F; [now exists r|].
  apply isPending_chains in Hp. now apply findRequest_none in F.
Qed.

Lemma dropRequest_gone c s s' :
  pending s' = dropRequest c (pending s) -> ~ isPending c s'.
Proof.
  intros Hp [r [Hin Hr]]. rewrite Hp in Hin. apply filter_In in Hin.
  destruct Hin as [_ Hne]. rewrite Hr, Nat.eqb_refl in Hne. discriminate.
Qed.

Lemma superseded_is_aborted c s :
  Inv s -> isPending c s -> ~ isCurrent c s -> isAborted c s = true.
Proof.
  intros Hinv Hp Hnc. destruct (isAborted c s) eqn:E; [reflexivity|].
  exfalso. apply Hnc. apply isPending_chains in Hp.
  exact (ok_live_current _ _ Hinv c Hp E).
Qed.

(** The continuations themselves compare nothing: handed a success for a
    chain that is no longer the current one, the second [.then] writes the
    cache and renders.  What keeps a superseded result out is that every
    path that replaces or clears [state.inflight] aborts the controller
    first, and that [fetch] rejects an aborted call. *)
Example continuation_has_no_generation_check :
  let s := run (boot (envAt 0)) traceSuperseded in
  let stale := mkRequest 0 (Translating [lineA] "fr" "") "v" "v|fr|5" 5 in
  let s' := continueChain (envAt 1200) stale (Resolved [lineA]) s in
  isAborted 0 s = true /\
  JsMap.get "v|fr|5" (cache s) = None /\
  JsMap.get "v|fr|5" (cache s') = Some (mkEntry 1000000 [lineA]) /\
  renders s' <> renders s.
Proof. vm_compute. repeat split; discriminate. Qed.

(** * One request at a time *)

Lemma c_next_cAbort cs : c_next (cAbort cs) = c_next cs.
Proof. unfold cAbort. now destruct (c_inflight cs). Qed.

Lemma c_pending_cAbort cs : c_pending (cAbort cs) = c_pending cs.
Proof. unfold cAbort. now destruct (c_inflight cs). Qed.

Lemma cAbort_cancels m cs :
  ChainsOK m cs ->
  (forall i, c_inflight cs = Some i -> cCancelled (ctrl i) (cAbort cs) = true) /\
  (forall c, In c (c_pending cs) -> cCancelled c (cAbort cs) = true).
Proof.
  intros Hok. split.
  - intros i Hi. unfold cAbort, cCancelled. rewrite Hi. simpl.
    now rewrite Nat.eqb_refl.
  - intros c Hin. destruct (ok_idle _ _ (ok_abort m cs Hok IDLE) eq_refl) as [_ H].
    apply H. now rewrite c_pending_cAbort.
Qed.

Lemma Effect_new_request s s' :
  Effect s s' -> nextCtrl s' <> nextCtrl s -> chains s' = cRestart (chains s).
Proof.
  intros [Hc _|Hc|Hc _|c _ _ Hc _|c _ _ Hc _|c Hc _] Hn; trivial;
    exfalso; apply Hn;
    change (c_next (chains s') = c_next (chains s)); rewrite Hc;
    try reflexivity.
  apply c_next_cAbort.
Qed.

Lemma stopsOrLeaves_chains env e s :
  stopsOrLeaves env e s ->
  chains (step env e s) = cAbort (chains s) \/
  (e = UrlCheck /\ chains (step env e s) = cRestart (chains s)) \/
  (mode s = IDLE /\ chains (step env e s) = chains s).
Proof.
  destruct e as [| | | | |[st|st| |]| | |]; cbn [stopsOrLeaves]; try tauto.
  - intros Hoff. cbn [step onMessage]. rewrite Hoff. fields. cbn [andb negb].
    destruct (mode_eqb (mode s) IDLE) eqn:Hm; cbn [negb].
    + right. right. apply mode_eqb_eq in Hm. now split.
    + left. match goal with
            | |- chains (stopAll ?x) = _ =>
              destruct (stopAll_effect x) as [_ ->]
            end. reflexivity.
  - intros _. left. cbn [step onMessage]. now destruct (stopAll_effect s) as [_ ->].
  - intros [Hhref Hvid]. cbn [step]. unfold onUrlMaybeChanged.
    apply String.eqb_neq in Hhref. rewrite Hhref. fields.
    assert (Hv : videoId_eqb (hrefVideoId env) (videoId s) = false).
    { destruct (hrefVideoId env) as [a|], (videoId s) as [b|]; simpl; trivial;
        try congruence.
      apply String.eqb_neq. congruence. }
    rewrite Hv. cbn [negb].
    set (s0 := set_lastUrl (href env) s).
    change (chains s) with (chains s0).
    destruct (enabled _ && _).
    + destruct (navigation_effect env s0) as [H|[_ H]]; auto.
    + left. now destruct (resetForNavigation_effect env s0) as [_ ->].
Qed.

Lemma cCancelled_cAbort c cs :
  cCancelled c cs = true -> cCancelled c (cAbort cs) = true.
Proof.
  unfold cAbort, cCancelled. destruct (c_inflight cs); [|trivial].
  cbn [c_aborted existsb]. intros ->. apply orb_true_r.
Qed.

Lemma aborted_step env e s c :
  isAborted c s = true -> isAborted c (step env e s) = true.
Proof.
  change (cCancelled c (chains s) = true ->
          cCancelled c (chains (step env e s)) = true).
  intros H.
  destruct (step_effect env e s) as [Hc _|Hc|Hc _|c' _ _ Hc _|c' _ _ Hc _|c' Hc _];
    rewrite Hc; trivial.
  - now apply cCancelled_cAbort.
  - now apply (cCancelled_cAbort c (chains s)).
Qed.

Lemma aborted_run later : forall s c,
  isAborted c s = true -> isAborted c (run s later) = true.
Proof.
  induction later as [|[env e] later IH]; intros s c H; [assumption|].
  simpl. apply IH. now apply aborted_step.
Qed.

(** A turn that creates a request. *)
Lemma new_request_aborts env e s :
  Inv s ->
  let s' := step env e s in
  nextCtrl s' <> nextCtrl s ->
  ~ isPending (nextCtrl s) s /\
  isPending (nextCtrl s) s' /\
  inflight s' = Some (mkInflight (nextCtrl s) chunks) /\
  (forall i, inflight s = Some i -> isAborted (ctrl i) s' = true) /\
  (forall c, isPending c s -> isAborted c s' = true).
Proof.
  intros Hinv s' Hnew.
  destruct (cAbort_cancels _ _ Hinv) as [Hcur Hall].
  pose proof (Effect_new_request s s' (step_effect env e s) Hnew) as Hc.
  assert (H1 : c_pending (chains s') = c_pending (chains s) ++ [nextCtrl s]).
  { rewrite Hc. unfold cRestart. cbn [cStart c_pending].
    now rewrite c_pending_cAbort, c_next_cAbort. }
  assert (H2 : c_inflight (chains s') = Some (mkInflight (nextCtrl s) chunks)).
  { rewrite Hc. unfold cRestart. cbn [cStart c_inflight].
    now rewrite c_next_cAbort. }
  assert (H3 : forall c, isAborted c s' = cCancelled c (cAbort (chains s))).
  { intros c. change (isAborted c s') with (cCancelled c (chains s')).
    now rewrite Hc. }
  repeat split.
  - intros Hp. apply isPending_chains in Hp.
    pose proof (ok_pending_fresh _ _ Hinv _ Hp) as Hlt. simpl in Hlt. lia.
  - apply isPending_chains. rewrite H1. apply in_or_app. right. now left.
  - exact H2.
  - intros i Hi. rewrite H3. now apply Hcur.
  - intros c Hp. rewrite H3. apply Hall. now apply isPending_chains.
Qed.

(** A stop, a disabling settings command, a change of video. *)
Lemma stop_aborts env e s :
  Inv s ->
  stopsOrLeaves env e s ->
  let s' := step env e s in
  (forall i, inflight s = Some i -> isAborted (ctrl i) s' = true) /\
  (forall c, isPending c s -> isAborted c s' = true) /\
  (forall msg, e = Message msg -> inflight s' = None).
Proof.
  intros Hinv Hstop s'.
  destruct (cAbort_cancels _ _ Hinv) as [Hcur Hall].
  assert (H3 : forall c, isAborted c s' = cCancelled c (chains s'))
    by reflexivity.
  destruct (stopsOrLeaves_chains env e s Hstop) as [Hc|[[He Hc]|[Hm Hc]]];
    fold s' in Hc.
  - repeat split.
    + intros i Hi. rewrite H3, Hc. now apply Hcur.
    + intros c Hp. rewrite H3, Hc. apply Hall. now apply isPending_chains.
    + intros msg _. change (c_inflight (chains s') = None). rewrite Hc.
      unfold cAbort. now destruct (c_inflight (chains s)) eqn:E.
  - repeat split.
    + intros i Hi. rewrite H3, Hc. now apply Hcur.
    + intros c Hp. rewrite H3, Hc. apply Hall. now apply isPending_chains.
    + intros msg Hmsg. congruence.
  - destruct (ok_idle _ _ Hinv Hm) as [Hnone Hcan].
    repeat split.
    + intros i Hi. change (c_inflight (chains s) = Some i) in Hi. congruence.
    + intros c Hp. rewrite H3, Hc. apply Hcan. now apply isPending_chains.
    + intros msg _. change (c_inflight (chains s') = None). now rewrite Hc.
Qed.

(** C1.  In every execution, a request that is superseded or cancelled,
    whether by a tick that starts a new request, by a stop or disabling
    command, or by a change of video, has its controller aborted by that
    very turn, and stays aborted in every later state; more generally a
    suspended chain that is not the one recorded in [state.inflight] is
    always an aborted one.  Whenever the result of such a request arrives,
    and whatever the backend answered, it is discarded: no cache write, no
    call of [setCaptionText], no mode change, no timer; the chain just
    ends. *)
Theorem superseded_result_discarded
        (env0 : Env) (trace : list (Env * Event)) :
  let s := run (boot env0) trace in
  (forall env e c,
     nextCtrl (step env e s) <> nextCtrl s \/ stopsOrLeaves env e s ->
     isPending c s -> isAborted c (step env e s) = true)
  /\
  (forall c later, isAborted c s = true -> isAborted c (run s later) = true)
  /\
  (forall c, isPending c s -> ~ isCurrent c s -> isAborted c s = true)
  /\
  (forall env c o,
     isPending c s -> isAborted c s = true ->
     let s' := step env (Settle c o) s in
     cache s' = cache s /\ renders s' = renders s /\ overlay s' = overlay s /\
     mode s' = mode s /\ timers s' = timers s /\ inflight s' = inflight s /\
     ~ isPending c s').
Proof.
  intros s.
  assert (Hinv : Inv s) by apply Inv_reachable, reachable_run, reachable_boot.
  split; [|split; [|split]].
  - intros env e c [Hnew|Hstop] Hp.
    + now apply (new_request_aborts env e s Hinv Hnew).
    + now apply (stop_aborts env e s Hinv Hstop).
  - intros c later. apply aborted_run.
  - intros c. now apply superseded_is_aborted.
  - intros env c o Hp Hab s'.
    destruct (findRequest_pending c s Hp) as [r Hr].
    assert (Hs' : s' = set_pending (dropRequest c (pending s)) s).
    { subst s'. cbn [step]. unfold settle, delivered, continueChain.
      rewrite Hr, Hab. destruct (findRequest_some _ _ _ Hr) as [_ ->].
      now destruct (rstage r). }
    rewrite Hs'. repeat split; trivial.
    now apply (dropRequest_gone c s).
Qed.

Lemma superseded_result_discarded_witness :
  let s := run (boot (envAt 0)) traceSuperseded in
  let s' := step (envAt 1200) (Settle 0 (Resolved [lineA])) s in
  cache s' = cache s /\ renders s' = renders s /\ overlay s' = overlay s /\
  mode s' = mode s /\ timers s' = timers s /\ inflight s' = inflight s /\
  ~ isPending 0 s'.
Proof.
  apply (proj2 (proj2 (proj2
           (superseded_result_discarded (envAt 0) traceSuperseded)))
           (envAt 1200) 0%nat (Resolved [lineA])).
  - vm_compute. eexists. split; [left; reflexivity | reflexivity].
  - vm_compute. reflexivity.
Defined.



(** * Mode transitions *)

Lemma videoId_eqb_false a b : videoId_eqb a b = false -> a <> b.
Proof.
  destruct a as [x|], b as [y|]; simpl; try discriminate; try congruence.
  intros H. apply String.eqb_neq in H. congruence.
Qed.

Lemma videoId_eqb_neq a b : a <> b -> videoId_eqb a b = false.
Proof.
  destruct a as [x|], b as [y|]; simpl; trivial; try congruence.
  intros H. apply String.eqb_neq. congruence.
Qed.

Lemma videoEl_tick env s : videoEl (onTimeTick env s) = videoEl s.
Proof. open_handlers. split_cases; reflexivity. Qed.

Lemma videoId_tryStartActive env s :
  videoId (tryStartActive env s) = videoId s.
Proof. open_handlers. split_cases; reflexivity. Qed.

(** The recovery timeout is not cancelled by a stop: it runs later and sets
    the mode to ACTIVE while nothing is attached. *)
Example recovery_timer_outlives_stop :
  let s := run (boot (envAt 0))
               (traceStarted ++
                [(envAt 1200, Settle 0 RejectedOther);
                 (envAt 1300, Message STOP_TRANSLATION)]) in
  let s' := step (envAt 2400) (TimerFired 0) s in
  mode s = IDLE /\ mode s' = ACTIVE /\ videoEl s' = false.
Proof. vm_compute. repeat split. Qed.

(** C3, as the code has it.  Apart from the firing of a recovery timeout,
    a turn of the event loop takes the mode from IDLE to ACTIVE only when
    it is a start command, a settings command that enables, or a change of
    video while enabled.  The mode is set to ACTIVE when the attach
    sequence starts, not when it succeeds: with the player absent the mode
    is ACTIVE, nothing is attached and a retry is scheduled; while nothing
    is attached ticks are ignored; the twentieth failed attempt sets the
    mode to ERROR; with the player present the attach succeeds at once. *)
Theorem idle_to_active_by_attach_start :
  (forall env e s,
     mode s = IDLE -> ~ firesRecovery e s ->
     mode (step env e s) = ACTIVE -> startsAttach env e s)
  /\
  (forall env st s,
     playerReady env = false ->
     let s' := step env (Message (START_TRANSLATION st)) s in
     mode s' = ACTIVE /\ videoEl s' = videoEl s /\ overlay s' = overlay s /\
     timers s' = timers s ++ [TWait 1])
  /\
  (forall env s, videoEl s = false -> onTimeTick env s = s)
  /\
  (forall env s k n,
     nth_error (timers s) k = Some (TWait n) -> playerReady env = false ->
     let s' := step env (TimerFired k) s in
     if (S n <? ATTACH_MAX)%nat
     then mode s' = mode s /\ In (TWait (S n)) (timers s')
     else mode s' = ERROR)
  /\
  (forall env st s,
     playerReady env = true ->
     let s' := step env (Message (START_TRANSLATION st)) s in
     mode s' = ACTIVE /\ videoEl s' = true).
Proof.
  split; [|split; [|split; [|split]]].
  - intros env e s Hidle Hnorec Hact.
    destruct e as [| | | | |msg| |c o|k]; cbn [step startsAttach] in *.
    1, 2: destruct (tick_effect env s) as [Hm _]; congruence.
    + destruct (tick_effect env (set_lastTickAt 0 s)) as [Hm _].
      rewrite Hm in Hact. fields. congruence.
    + unfold setCaptionText in Hact. fields. congruence.
    + unfold setCaptionText in Hact. fields. congruence.
    + destruct msg as [st|st| |]; cbn [onMessage] in *; trivial.
      * destruct (settingsEnabled st); [reflexivity|]. fields.
        rewrite Hidle in Hact. cbn [andb negb mode_eqb] in Hact.
        fields. congruence.
      * destruct (stopAll_effect s) as [Hm _]. congruence.
      * congruence.
    + unfold onUrlMaybeChanged in Hact.
      destruct (String.eqb_spec (href env) (lastUrl s)) as [|Hhref];
        [congruence|].
      fields.
      destruct (videoId_eqb (hrefVideoId env) (videoId s)) eqn:Hv;
        cbn [negb] in Hact; [fields; congruence|].
      apply videoId_eqb_false in Hv.
      set (s0 := set_lastUrl (href env) s) in *.
      destruct (resetForNavigation_effect env s0) as [Hm _].
      rewrite (enabled_resetForNavigation env s0) in Hact.
      change (enabled s0) with (enabled s) in Hact.
      destruct (enabled s); [auto|].
      cbn [andb] in Hact. congruence.
    + destruct (mode_settle env c o s); congruence.
    + unfold onTimer in Hact.
      destruct (nth_error (timers s) k) as [[|n]|] eqn:E; [| |congruence].
      * exfalso. apply Hnorec. now exists k.
      * set (s1 := set_timers _ _) in Hact.
        assert (Hs1 : mode s1 = IDLE) by exact Hidle.
        destruct (wait_effect env n s1) as [[_ [Hm|Hm]]|[Hm _]]; congruence.
  - intros env st s Hready s'. subst s'. cbn [step onMessage].
    unfold tryStartActive, wait. fields. rewrite Hready.
    change (1 <? ATTACH_MAX)%nat with true. cbn [negb]. fields.
    rewrite mode_setState. unfold setState.
    destruct (mode_eqb _ _); fields; repeat split.
  - intros env s Hv. unfold onTimeTick. now rewrite Hv.
  - intros env s k n Hk Hready s'. subst s'. cbn [step]. unfold onTimer, wait.
    rewrite Hk, Hready. destruct (S n <? ATTACH_MAX)%nat.
    + fields. split; [reflexivity|]. apply in_or_app. right. now left.
    + apply mode_setState.
  - intros env st s Hready s'. subst s'. cbn [step onMessage].
    unfold tryStartActive, wait. fields. rewrite Hready. cbn [negb].
    destruct (tick_effect env
                (set_lastTickAt 0
                   (injectIfReady
                      (setState ACTIVE
                         (set_videoId (hrefVideoId env)
                            (set_hint (orElse (settingsHint st) (hint s))
                               (set_language
                                  (orElse (settingsLanguage st) (language s))
                                  (set_enabled true s))))))))
      as [Hm _].
    rewrite Hm, videoEl_tick. fields.
    rewrite mode_injectIfReady, mode_setState. split; [reflexivity|].
    unfold injectIfReady, ensureOverlay. split_cases; reflexivity.
Qed.

(** C3, as stated, fails: a start command with the player absent leaves
    the mode ACTIVE although nothing has been attached. *)
Lemma mode_active_before_attach :
  let s := run (boot (envNoPlayer 0)) [(envNoPlayer 1000, startMsg)] in
  mode s = ACTIVE /\ videoEl s = false /\ overlay s = None /\
  timers s = [TWait 1].
Proof. vm_compute. repeat split. Qed.

Lemma idle_to_active_by_attach_start_witness :
  let s := run (boot (envAt 0))
               (traceStarted ++ [(envAt 1300, Message STOP_TRANSLATION)]) in
  mode s = IDLE /\ mode (step (envOther 2000) UrlCheck s) = ACTIVE /\
  startsAttach (envOther 2000) UrlCheck s.
Proof.
  split; [vm_compute; reflexivity|]. split; [vm_compute; reflexivity|].
  apply (proj1 idle_to_active_by_attach_start (envOther 2000) UrlCheck).
  - vm_compute. reflexivity.
  - intros [k [Hk _]]. discriminate.
  - vm_compute. reflexivity.
Defined.

(** * Hydration failure and recovery *)

(** C4.  When a backend stage of a request that was not aborted fails with
    an error other than an [AbortError], the mode becomes ERROR, the
    caption is blanked ([setCaptionText('')]), the cache is untouched and a
    recovery timeout of 1200 ms is scheduled; that timeout stays pending
    whatever else happens and, when it runs, sets the mode to ACTIVE
    without any command.  A rejection with an [AbortError] changes neither
    the mode, the caption, the cache nor the timers. *)
Theorem hydration_failure_recovers :
  (forall env s c r,
     findRequest c (pending s) = Some r -> isAborted c s = false ->
     let s' := step env (Settle c RejectedOther) s in
     mode s' = ERROR /\
     renders s' = "" :: renders s /\
     overlay s' = option_map (fun _ => "") (overlay s) /\
     cache s' = cache s /\
     timers s' = timers s ++ [TRecover] /\
     timerDelay TRecover = 1200 /\
     forall env', mode (step env' (TimerFired (length (timers s))) s') = ACTIVE)
  /\
  (forall env s k,
     nth_error (timers s) k = Some TRecover ->
     mode (step env (TimerFired k) s) = ACTIVE)
  /\
  (forall env e s,
     In TRecover (timers s) -> ~ firesRecovery e s ->
     In TRecover (timers (step env e s)))
  /\
  (forall env s c o,
     delivered c o s = RejectedAbort ->
     let s' := step env (Settle c o) s in
     mode s' = mode s /\ renders s' = renders s /\ overlay s' = overlay s /\
     cache s' = cache s /\ timers s' = timers s).
Proof.
  assert (Hfire : forall env s k,
             nth_error (timers s) k = Some TRecover ->
             mode (step env (TimerFired k) s) = ACTIVE).
  { intros env s k Hk. cbn [step]. unfold onTimer. rewrite Hk.
    apply mode_setState. }
  split; [|split; [exact Hfire | split; [exact recovery_stays_pending|]]].
  - intros env s c r Hr Hlive s'.
    assert (Hs' : s' = hydrationFailed (set_pending (dropRequest c (pending s)) s)).
    { subst s'. cbn [step]. unfold settle, delivered, continueChain.
      rewrite Hr, Hlive. destruct (findRequest_some _ _ _ Hr) as [_ ->].
      now destruct (rstage r). }
    assert (Ht : timers s' = timers s ++ [TRecover]).
    { rewrite Hs'. unfold hydrationFailed, setCaptionText, setState.
      split_cases; reflexivity. }
    rewrite Hs' at 1 2 3 4.
    repeat split; trivial.
    + apply mode_hydrationFailed.
    + unfold hydrationFailed, setCaptionText, setState. split_cases; reflexivity.
    + unfold hydrationFailed, setCaptionText, setState. split_cases; reflexivity.
    + unfold hydrationFailed, setCaptionText, setState. split_cases; reflexivity.
    + intros env'. apply Hfire. rewrite Ht.
      rewrite nth_error_app2 by lia. now rewrite Nat.sub_diag.
  - intros env s c o Hd s'. subst s'. cbn [step]. unfold settle.
    destruct (findRequest c (pending s)) as [r|]; [|repeat split].
    rewrite Hd. unfold continueChain. destruct (rstage r); repeat split.
Qed.

Lemma hydration_failure_recovers_witness :
  let s := run (boot (envAt 0)) traceStarted in
  let s' := step (envAt 1200) (Settle 0 RejectedOther) s in
  mode s' = ERROR /\
  renders s' = "" :: renders s /\
  overlay s' = option_map (fun _ => "") (overlay s) /\
  cache s' = cache s /\
  timers s' = timers s ++ [TRecover] /\
  timerDelay TRecover = 1200 /\
  forall env', mode (step env' (TimerFired (length (timers s))) s') = ACTIVE.
Proof.
  apply (proj1 hydration_failure_recovers (envAt 1200)
           (run (boot (envAt 0)) traceStarted) 0%nat
           (mkRequest 0 FetchingLines "v" "v|fr|5" 5)).
  - vm_compute. reflexivity.
  - vm_compute. reflexivity.
Defined.

(** * Throttling *)

(** C5, as the code has it.  'timeupdate' and 'seeked' events both run
    [onTimeTick] and are throttled alike: after an accepted tick, one that
    arrives less than [1000 / TICK_HZ] = 250 ms later changes nothing.
    Only a rate change resets [lastTickAt] to zero first; its tick is then
    accepted whenever the script is attached and ACTIVE and
    [performance.now()] is at least 250. *)
Theorem ticks_throttled_ratechange_forces :
  (forall env1 env2 e1 e2 s,
     isTick e1 -> isTick e2 -> tickAccepted env1 s = true ->
     (perfNow env2 - perfNow env1 < tickInterval)%Q ->
     step env2 e2 (step env1 e1 s) = step env1 e1 s)
  /\
  (forall env s, step env Seeked s = step env TimeUpdate s)
  /\
  (forall env s,
     videoEl s = true -> mode s = ACTIVE -> (tickInterval <= perfNow env)%Q ->
     tickAccepted env (set_lastTickAt 0 s) = true /\
     lastTickAt (step env RateChange s) = perfNow env)
  /\
  (tickInterval == 250)%Q.
Proof.
  split; [|split; [|split]].
  - intros env1 env2 e1 e2 s He1 He2 Hacc Hlt.
    assert (H1 : step env1 e1 s = onTimeTick env1 s)
      by (destruct He1 as [->| ->]; reflexivity).
    assert (H2 : forall s1, step env2 e2 s1 = onTimeTick env2 s1)
      by (intros s1; destruct He2 as [->| ->]; reflexivity).
    rewrite H2, H1. apply onTimeTick_rejected.
    unfold tickAccepted. rewrite (lastTickAt_accepted env1 s Hacc).
    apply Qltb_lt in Hlt. rewrite Hlt. cbn [negb]. apply andb_false_r.
  - reflexivity.
  - intros env s Hv Hm Hnow.
    assert (Hacc : tickAccepted env (set_lastTickAt 0 s) = true).
    { unfold tickAccepted. fields. rewrite Hv, Hm. cbn [negb orb andb mode_eqb].
      apply negb_true_iff, Qltb_ge.
      unfold Qminus. setoid_replace (perfNow env + - 0)%Q with (perfNow env); [assumption|].
      ring. }
    split; [assumption|]. cbn [step]. now apply lastTickAt_accepted.
  - reflexivity.
Qed.

(** C5, as stated, fails for seeks: 100 ms after an accepted tick a
    'seeked' event is dropped and [lastTickAt] is not reset, where a rate
    change at the same instant is processed. *)
Lemma seek_is_throttled :
  let s := run (boot (envAt 0)) traceStarted in
  lastTickAt s = 1000%Q /\
  step (envAt 1100) Seeked s = s /\
  lastTickAt (step (envAt 1100) Seeked s) = 1000%Q /\
  lastTickAt (step (envAt 1100) RateChange s) = 1100%Q /\
  nextCtrl (step (envAt 1100) Seeked s) = nextCtrl s /\
  nextCtrl (step (envAt 1100) RateChange s) = S (nextCtrl s).
Proof. vm_compute. repeat split. Qed.

Lemma ticks_throttled_ratechange_forces_witness :
  step (envAt 1100) TimeUpdate (step (envAt 1000) TimeUpdate
        (set_lastTickAt 0 (run (boot (envAt 0)) traceStarted)))
  = step (envAt 1000) TimeUpdate
        (set_lastTickAt 0 (run (boot (envAt 0)) traceStarted)).
Proof.
  apply (proj1 ticks_throttled_ratechange_forces (envAt 1000) (envAt 1100)
           TimeUpdate TimeUpdate).
  - now left.
  - now left.
  - vm_compute. reflexivity.
  - vm_compute. reflexivity.
Defined.

(** * Line selection: the claim *)


(** The scenarios of the specification. *)
Example render_t11 : renderText [lineA; lineB] 11 = "A".
Proof. vm_compute. reflexivity. Qed.
Example render_t13 : renderText [lineA; lineB] 13 = "B".
Proof. vm_compute. reflexivity. Qed.
Example render_t17 : renderText [lineA; lineB; lineC] 17 = "C".
Proof. vm_compute. reflexivity. Qed.
Example render_t20 : renderText [lineA; lineB] 20 = "".
Proof. vm_compute. reflexivity. Qed.



(** * Cache: bound, eviction, expiry *)

Lemma fillOps_orderly : orderly 0 [] (fillOps 500).
Proof.
  vm_compute.
  repeat (split; [intros H; discriminate H | split; [reflexivity|]]).
  exact I.
Qed.

(** C7, as the code has it.  After every sequence of cache operations,
    and in every state the script can reach, the cache holds at most 500
    entries.  Inserting a new key into a full cache evicts the first key in
    the Map's insertion order and nothing else.  That key holds the oldest
    entry when no earlier insertion overwrote a present key; overwriting a
    key refreshes its timestamp but keeps its place in that order. *)
Theorem cache_bounded_first_key_evicted :
  (forall ops, withinBound (runOps ops []))
  /\
  (forall s, reachable s -> withinBound (cache s))
  /\
  (forall ops key now d,
     let c := runOps ops [] in
     JsMap.size c = CACHE_MAX -> JsMap.get key c = None ->
     exists k0 e0 rest,
       c = (k0, e0) :: rest /\
       cacheSet key now d c = rest ++ [(key, mkEntry now d)] /\
       (orderly 0 [] ops -> Forall (olderOrSame (k0, e0)) rest))
  /\
  (forall ops key now d,
     let c := runOps ops [] in
     JsMap.get key c <> None ->
     cacheSet key now d c = JsMap.set key (mkEntry now d) c /\
     JsMap.keys (cacheSet key now d c) = JsMap.keys c).
Proof.
  assert (H0 : withinBound []).
  { unfold withinBound, JsMap.size, CACHE_MAX. simpl. lia. }
  split; [|split; [|split]].
  - intros ops. apply runOps_closed; [apply withinBound_closed | exact H0].
  - intros s. apply cache_reachable; [apply withinBound_closed | exact H0].
  - intros ops key now d c Hsz Habs.
    assert (Hnd : NoDup (JsMap.keys c)).
    { apply (runOps_closed (fun c => NoDup (JsMap.keys c)));
        [apply nodup_closed | constructor]. }
    destruct (cacheSet_full_evicts_first key now d c Hnd Hsz Habs)
      as (k0 & e0 & rest & Hc & Hset).
    exists k0, e0, rest. repeat split; try assumption.
    intros Hord.
    assert (Hs : oldestFirst c).
    { apply (orderly_oldestFirst ops 0 []);
        [constructor | constructor | assumption]. }
    rewrite Hc in Hs. now apply StronglySorted_inv in Hs.
  - intros ops key now d c Hget.
    apply cacheSet_overwrite; [|assumption].
    apply runOps_closed; [apply withinBound_closed | exact H0].
Qed.

(** C7, as stated, fails once a key has been overwritten: in a full cache
    whose first key ["v|en|0"] was overwritten at time 1000, inserting a new
    key evicts that entry, the most recently inserted one, while the entry
    inserted at time 1 stays. *)
Lemma cache_overwrite_counterexample :
  let c := runOps (fillOps 500 ++ [OpSet "v|en|0" 1000 []]) [] in
  let c' := cacheSet "v|en|500" 1001 [] c in
  JsMap.size c = 500%nat /\
  JsMap.get "v|en|0" c = Some (mkEntry 1000 []) /\
  JsMap.get "v|en|1" c = Some (mkEntry 1 []) /\
  JsMap.get "v|en|0" c' = None /\
  JsMap.get "v|en|1" c' = Some (mkEntry 1 []) /\
  JsMap.size c' = 500%nat.
Proof. vm_compute. repeat split. Qed.

Lemma cache_bounded_first_key_evicted_witness :
  let c := runOps (fillOps 500) [] in
  exists k0 e0 rest,
    c = (k0, e0) :: rest /\
    cacheSet "v|en|500" 500 [] c = rest ++ [("v|en|500", mkEntry 500 [])] /\
    Forall (olderOrSame (k0, e0)) rest.
Proof.
  destruct (proj1 (proj2 (proj2 cache_bounded_first_key_evicted))
              (fillOps 500) "v|en|500" 500 [])
    as (k0 & e0 & rest & Hc & Hset & Hold).
  - vm_compute. reflexivity.
  - vm_compute. reflexivity.
  - exists k0, e0, rest.
    split; [exact Hc | split; [exact Hset | exact (Hold fillOps_orderly)]].
Defined.

(** C8.  [cacheGet] returns data only from an entry whose age is within
    the TTL ([now <= ts + CACHE_TTL_MS]), leaving the cache as it was; on
    an entry older than the TTL it deletes the entry and reports a miss,
    and the key stays absent. *)
Theorem cacheGet_respects_ttl (key : string) (now : Z) (c : Cache) :
  (forall d c', cacheGet key now c = (Some d, c') ->
     exists hit, JsMap.get key c = Some hit /\ d = data hit /\
                 now <= ts hit + CACHE_TTL_MS /\ c' = c)
  /\
  (forall hit, JsMap.get key c = Some hit -> ts hit + CACHE_TTL_MS < now ->
     cacheGet key now c = (None, JsMap.delete key c) /\
     JsMap.get key (JsMap.delete key c) = None /\
     forall now', fst (cacheGet key now' (snd (cacheGet key now c))) = None).
Proof.
  unfold cacheGet. split.
  - intros d c'. destruct (JsMap.get key c) as [hit|]; [|discriminate].
    destruct (Z.ltb_spec CACHE_TTL_MS (now - ts hit)); [discriminate|].
    intros [= <- <-]. exists hit. repeat split; trivial. lia.
  - intros hit -> Hexp.
    destruct (Z.ltb_spec CACHE_TTL_MS (now - ts hit)); [|lia].
    simpl. rewrite JsMap_get_delete_same. repeat split.
Qed.

Lemma cacheGet_respects_ttl_witness :
  cacheGet "v|fr|5" 1120001 cacheVW = (None, JsMap.delete "v|fr|5" cacheVW) /\
  JsMap.get "v|fr|5" (JsMap.delete "v|fr|5" cacheVW) = None /\
  forall now',
    fst (cacheGet "v|fr|5" now' (snd (cacheGet "v|fr|5" 1120001 cacheVW))) = None.
Proof.
  apply (proj2 (cacheGet_respects_ttl "v|fr|5" 1120001 cacheVW)
           (mkEntry 1000000 [lineA])).
  - vm_compute. reflexivity.
  - vm_compute. reflexivity.
Defined.

Example cacheGet_fresh_hit :
  cacheGet "v|fr|5" 1120000 cacheVW = (Some [lineA], cacheVW).
Proof. reflexivity. Qed.

(** * Change of video *)

(** With a ["|"] inside a video id the prefix test of the purge reaches
    the keys of another video. *)
Example purge_prefix_collision :
  purgeVideo "a" [(cacheKey "a|b" "en" 3, mkEntry 0 [])] = [].
Proof. reflexivity. Qed.




(** The scenario of the specification: the entry of ["v"] is gone one
    millisecond after it was inserted; the entry of ["w"] is still there. *)
Example purge_scenario :
  let s := set_cache cacheVW (run (boot (envAt 0)) traceStarted) in
  let s' := step (envOther 2000) UrlCheck s in
  fst (cacheGet "v|fr|5" 1000001 (cache s)) = Some [lineA] /\
  fst (cacheGet "v|fr|5" 1000001 (cache s')) = None /\
  fst (cacheGet "w|fr|7" 1000001 (cache s')) = Some [lineB].
Proof. vm_compute. repeat split. Qed.

(** * Settings carried by commands *)

Lemma orElse_empty d : orElse (Some "") d = d.
Proof. reflexivity. Qed.

Lemma orElse_nonempty x d : d <> "" -> orElse x d <> "".
Proof.
  intros Hd. unfold orElse. destruct x as [v|]; [|assumption].
  destruct (String.eqb_spec v ""); assumption.
Qed.

Lemma hint_onMessage env msg s :
  hint (onMessage env msg s)
  = match msg with
    | SETTINGS_CHANGED st | START_TRANSLATION st =>
        orElse (settingsHint st) (hint s)
    | _ => hint s
    end.
Proof.
  destruct msg as [st|st| |]; cbn [onMessage].
  - destruct (_ && _); [now rewrite hint_tryStartActive|].
    destruct (_ && _); [now rewrite hint_stopAll | reflexivity].
  - now rewrite hint_tryStartActive.
  - apply hint_stopAll.
  - reflexivity.
Qed.

Lemma language_onMessage env msg s :
  language (onMessage env msg s)
  = match msg with
    | SETTINGS_CHANGED st | START_TRANSLATION st =>
        orElse (settingsLanguage st) (language s)
    | _ => language s
    end.
Proof.
  destruct msg as [st|st| |]; cbn [onMessage].
  - destruct (_ && _); [now rewrite language_tryStartActive|].
    destruct (_ && _); [now rewrite language_stopAll | reflexivity].
  - now rewrite language_tryStartActive.
  - apply language_stopAll.
  - reflexivity.
Qed.

(** C10.  A SETTINGS_CHANGED or START_TRANSLATION command whose language
    (or hint) is the empty string leaves the previous language (or hint)
    in place; hence no command turns a non-empty hint or language into the
    empty string. *)
Theorem empty_setting_keeps_previous :
  (forall env st s,
     settingsLanguage st = Some "" ->
     language (step env (Message (SETTINGS_CHANGED st)) s) = language s /\
     language (step env (Message (START_TRANSLATION st)) s) = language s)
  /\
  (forall env st s,
     settingsHint st = Some "" ->
     hint (step env (Message (SETTINGS_CHANGED st)) s) = hint s /\
     hint (step env (Message (START_TRANSLATION st)) s) = hint s)
  /\
  (forall env msg s,
     hint s <> "" -> hint (step env (Message msg) s) <> "")
  /\
  (forall env msg s,
     language s <> "" -> language (step env (Message msg) s) <> "").
Proof.
  split; [|split; [|split]].
  - intros env st s H. cbn [step]. rewrite !language_onMessage, H. now split.
  - intros env st s H. cbn [step]. rewrite !hint_onMessage, H. now split.
  - intros env msg s H. cbn [step]. rewrite hint_onMessage.
    destruct msg; trivial; now apply orElse_nonempty.
  - intros env msg s H. cbn [step]. rewrite language_onMessage.
    destruct msg; trivial; now apply orElse_nonempty.
Qed.

Lemma empty_setting_keeps_previous_witness :
  let s := set_hint "cooking show" (run (boot (envAt 0)) traceStarted) in
  let st := Some (mkSettings true (Some "de") (Some "")) in
  hint (step (envAt 3000) (Message (SETTINGS_CHANGED st)) s) = "cooking show" /\
  hint (step (envAt 3000) (Message (START_TRANSLATION st)) s) = "cooking show".
Proof.
  apply (proj1 (proj2 empty_setting_keeps_previous) (envAt 3000)
           (Some (mkSettings true (Some "de") (Some "")))
           (set_hint "cooking show" (run (boot (envAt 0)) traceStarted))).
  reflexivity.
Defined.

(** * More on the cache *)

Lemma JsMap_get_set_other {V : Type} (k k' : string) (v : V) (m : JsMap.t V) :
  k <> k' -> JsMap.get k (JsMap.set k' v m) = JsMap.get k m.
Proof.
  intros Hne. induction m as [|[k0 v0] rest IH]; simpl.
  - destruct (String.eqb_spec k' k); [congruence | reflexivity].
  - destruct (String.eqb_spec k0 k') as [->|H0]; simpl.
    + destruct (String.eqb_spec k' k); [congruence | reflexivity].
    + destruct (String.eqb k0 k); [reflexivity | assumption].
Qed.

Lemma JsMap_set_head {V : Type} (k : string) (v : V) (m : JsMap.t V) :
  match m with
  | [] => True
  | (k0, _) :: _ => exists v0 rest, JsMap.set k v m = (k0, v0) :: rest
  end.
Proof.
  destruct m as [|[k0 v0] rest]; [exact I|]. simpl.
  destruct (String.eqb_spec k0 k) as [->|_]; eauto.
Qed.

Lemma get_cacheSet_same key now d (c : Cache) :
  withinBound c ->
  JsMap.get key (cacheSet key now d c) = Some (mkEntry now d).
Proof.
  intros Hb. unfold cacheSet.
  destruct (Nat.ltb_spec CACHE_MAX (JsMap.size (JsMap.set key (mkEntry now d) c)))
    as [Hgt|_]; [|apply JsMap_get_set_same].
  destruct (JsMap.get key c) as [e|] eqn:Hget.
  { exfalso. assert (Hne : JsMap.get key c <> None) by congruence.
    destruct (cacheSet_overwrite key now d c Hb Hne) as [_ Hk].
    apply (f_equal (@length string)) in Hk. unfold JsMap.keys in Hk.
    rewrite !length_map in Hk. unfold cacheSet in Hk.
    apply Nat.ltb_lt in Hgt. rewrite Hgt in Hk.
    apply Nat.ltb_lt in Hgt.
    pose proof (JsMap_set_present key (mkEntry now d) c Hne) as Hk2.
    apply (f_equal (@length string)) in Hk2. unfold JsMap.keys in Hk2.
    rewrite !length_map in Hk2. unfold withinBound, JsMap.size in *. lia. }
  rewrite (JsMap_set_absent _ _ _ Hget) in *.
  destruct c as [|[k0 e0] rest].
  { unfold JsMap.size, CACHE_MAX in Hgt. simpl in Hgt. lia. }
  cbn [app dropFirstKey].
  assert (Hne : k0 <> key).
  { intros ->. simpl in Hget. rewrite String.eqb_refl in Hget. discriminate. }
  rewrite JsMap_get_delete_other by assumption.
  change ((k0, e0) :: rest ++ [(key, mkEntry now d)])
    with (((k0, e0) :: rest) ++ [(key, mkEntry now d)]).
  rewrite <- (JsMap_set_absent key (mkEntry now d) ((k0, e0) :: rest) Hget).
  apply JsMap_get_set_same.
Qed.

(** X1.  Insert then look up: on a cache within its bound, [cacheSet]
    followed by [cacheGet] of the same key, at most [CACHE_TTL_MS] later,
    returns the data that was stored and leaves the cache as [cacheSet]
    left it; this holds in every state the script can reach. *)
Theorem cacheSet_then_cacheGet (key : string) (now now' : Z) (d : list Line)
        (c : Cache) :
  withinBound c -> now' <= now + CACHE_TTL_MS ->
  cacheGet key now' (cacheSet key now d c) = (Some d, cacheSet key now d c).
Proof.
  intros Hb Hfresh. unfold cacheGet. rewrite (get_cacheSet_same key now d c Hb).
  cbn [ts data]. destruct (Z.ltb_spec CACHE_TTL_MS (now' - now)); [lia|reflexivity].
Qed.

Lemma cacheSet_then_cacheGet_witness :
  cacheGet "w|fr|9" 1120500 (cacheSet "w|fr|9" 1000500 [lineC] cacheVW)
  = (Some [lineC], cacheSet "w|fr|9" 1000500 [lineC] cacheVW).
Proof.
  apply (cacheSet_then_cacheGet "w|fr|9" 1000500 1120500 [lineC] cacheVW).
  - unfold withinBound, JsMap.size, CACHE_MAX. simpl. lia.
  - vm_compute. discriminate.
Defined.

Lemma get_cacheSet_other (key k : string) (now : Z) (d : list Line)
      (c : Cache) :
  k <> key ->
  (forall e rest, c <> (k, e) :: rest) ->
  JsMap.get k (cacheSet key now d c) = JsMap.get k c.
Proof.
  intros Hne Hfirst. unfold cacheSet.
  destruct (_ <? _)%nat; [|now apply JsMap_get_set_other].
  pose proof (JsMap_set_head key (mkEntry now d) c) as Hhead.
  destruct c as [|[k0 e0] rest].
  - simpl. rewrite String.eqb_refl. simpl.
    destruct (String.eqb_spec key k); [congruence | reflexivity].
  - destruct Hhead as (v0 & rest' & Hset). rewrite Hset.
    unfold dropFirstKey. rewrite <- Hset.
    rewrite JsMap_get_delete_other; [now apply JsMap_get_set_other|].
    intros ->. exact (Hfirst e0 rest eq_refl).
Qed.

(** X2.  An insertion touches no entry but the inserted key and, under
    size pressure, the first key of the Map: every other key reads as
    before. *)
Theorem cacheSet_keeps_other_keys (key k : string) (now : Z) (d : list Line)
        (c : Cache) :
  k <> key ->
  (forall e rest, c <> (k, e) :: rest) ->
  JsMap.get k (cacheSet key now d c) = JsMap.get k c.
Proof. apply get_cacheSet_other. Qed.

Lemma cacheSet_keeps_other_keys_witness :
  JsMap.get "w|fr|7" (cacheSet "w|fr|9" 1000500 [lineC] cacheVW)
  = JsMap.get "w|fr|7" cacheVW.
Proof.
  apply (cacheSet_keeps_other_keys "w|fr|9" "w|fr|7" 1000500 [lineC] cacheVW).
  - discriminate.
  - intros e rest. discriminate.
Defined.

Lemma filter_filter {A : Type} (f g : A -> bool) (l : list A) :
  filter f (filter g l) = filter (fun x => g x && f x) l.
Proof.
  induction l as [|a l IH]; simpl; [reflexivity|].
  destruct (g a); simpl; [destruct (f a)|]; now rewrite IH.
Qed.

Lemma purge_fold_filter p ks : forall c : Cache,
  fold_left (fun c k => if prefix p k then JsMap.delete k c else c) ks c
  = filter (fun kv =>
              negb (existsb (fun k => prefix p k && String.eqb (fst kv) k) ks)) c.
Proof.
  induction ks as [|k ks IH]; intros c; simpl.
  - symmetry. apply forallb_filter_id. now apply forallb_forall.
  - rewrite IH. destruct (prefix p k); simpl.
    + rewrite JsMap_delete_filter, filter_filter. apply filter_ext.
      intros kv. now rewrite negb_orb.
    + reflexivity.
Qed.

(** X3.  The purge of [resetForNavigation] removes exactly the entries
    whose key starts with [`${videoId}|`] and keeps all the others, in
    their order; purging twice is purging once. *)
Theorem purgeVideo_is_filter (v : string) (c : Cache) :
  purgeVideo v c = filter (keptByPurge v) c /\
  purgeVideo v (purgeVideo v c) = purgeVideo v c /\
  (JsMap.size (purgeVideo v c) <= JsMap.size c)%nat.
Proof.
  assert (H : forall c, purgeVideo v c = filter (keptByPurge v) c).
  { intros c0. unfold purgeVideo. rewrite purge_fold_filter.
    apply filter_ext_in. intros [k e] Hin. unfold keptByPurge. cbn [fst].
    f_equal. destruct (prefix (v ++ "|") k) eqn:Hp.
    - apply existsb_exists. exists k. split.
      + unfold JsMap.keys. now apply (in_map fst) in Hin.
      + now rewrite Hp, String.eqb_refl.
    - destruct (existsb _ _) eqn:E; [|reflexivity].
      apply existsb_exists in E. destruct E as (k' & _ & Hk').
      apply andb_true_iff in Hk'. destruct Hk' as [Hp' He].
      apply String.eqb_eq in He. subst k'. congruence. }
  split; [apply H | split].
  - rewrite !H, filter_filter. apply filter_ext. intros kv.
    now destruct (keptByPurge v kv).
  - rewrite H. unfold JsMap.size. apply filter_length_le.
Qed.

(** * More on ticks and requests *)

Lemma tick_not_running env s :
  mode s <> ACTIVE \/ videoEl s = false -> onTimeTick env s = s.
Proof.
  intros H. apply onTimeTick_rejected. unfold tickAccepted.
  destruct H as [H| ->]; [|reflexivity].
  destruct (mode_eqb (mode s) ACTIVE) eqn:E;
    [apply mode_eqb_eq in E; contradiction|].
  cbn [negb]. now rewrite orb_true_r.
Qed.

(** X4.  While the mode is IDLE nothing is in flight: in every execution
    [state.inflight] is null and every suspended chain has been aborted.
    While the mode is not ACTIVE, or nothing is attached, a 'timeupdate',
    'seeked' or 'ratechange' event starts no request, reads no cache,
    renders nothing and changes no mode. *)
Theorem no_hydration_unless_active (env0 : Env) (trace : list (Env * Event)) :
  let s := run (boot env0) trace in
  (mode s = IDLE ->
   inflight s = None /\ forall c, isPending c s -> isAborted c s = true)
  /\
  (mode s <> ACTIVE \/ videoEl s = false ->
   forall env e, runsTick e ->
     let s' := step env e s in
     pending s' = pending s /\ nextCtrl s' = nextCtrl s /\
     inflight s' = inflight s /\ aborted s' = aborted s /\
     cache s' = cache s /\ renders s' = renders s /\ overlay s' = overlay s /\
     mode s' = mode s).
Proof.
  intros s. split.
  - intros Hidle.
    assert (Hinv : Inv s) by apply Inv_reachable, reachable_run, reachable_boot.
    destruct (ok_idle _ _ Hinv Hidle) as [Hnone Hall]. split; [exact Hnone|].
    intros c Hp. apply Hall. now apply isPending_chains.
  - intros Hoff env e [->|[->| ->]] s'; subst s'; cbn [step].
    1, 2: rewrite tick_not_running by assumption; repeat split.
    rewrite tick_not_running by assumption. repeat split.
Qed.

Lemma no_hydration_unless_active_witness :
  let s := run (boot (envAt 0))
               (traceStarted ++ [(envAt 1300, Message STOP_TRANSLATION)]) in
  let s' := step (envAt 5000) RateChange s in
  pending s' = pending s /\ nextCtrl s' = nextCtrl s /\
  inflight s' = inflight s /\ aborted s' = aborted s /\
  cache s' = cache s /\ renders s' = renders s /\ overlay s' = overlay s /\
  mode s' = mode s.
Proof.
  apply (proj2 (no_hydration_unless_active (envAt 0)
                  (traceStarted ++ [(envAt 1300, Message STOP_TRANSLATION)]))).
  - left. vm_compute. discriminate.
  - right. now right.
Defined.

Lemma tickAccepted_guards env s :
  tickAccepted env s = true ->
  (negb (videoEl s) || negb (mode_eqb (mode s) ACTIVE)) = false /\
  Qltb (perfNow env - lastTickAt s) tickInterval = false.
Proof.
  unfold tickAccepted. rewrite andb_true_iff, !negb_true_iff. tauto.
Qed.

Lemma tickAccepted_running env s :
  tickAccepted env s = true -> videoEl s = true /\ mode s = ACTIVE.
Proof.
  intros H. destruct (tickAccepted_guards env s H) as [Hg _].
  apply orb_false_iff in Hg. destruct Hg as [Hv Hm].
  apply negb_false_iff in Hv, Hm. apply mode_eqb_eq in Hm. now split.
Qed.

Lemma tick_hit env s vid hit :
  tickAccepted env s = true ->
  videoId s = Some vid -> vid <> "" -> adShowing env = false ->
  JsMap.get (cacheKey vid (language s) (currentTime env)) (cache s) = Some hit ->
  dateNow env <= ts hit + CACHE_TTL_MS ->
  onTimeTick env s
  = renderFromWindow (data hit) (currentTime env)
      (set_cache (cache s) (set_lastTickAt (perfNow env) s)).
Proof.
  intros Hacc Hvid Hne Had Hget Hfresh. unfold onTimeTick.
  destruct (tickAccepted_guards env s Hacc) as [-> ->]. fields.
  rewrite Hvid, Had. apply String.eqb_neq in Hne. rewrite Hne.
  unfold cacheGet. rewrite Hget.
  destruct (Z.ltb_spec CACHE_TTL_MS (dateNow env - ts hit)); [lia|reflexivity].
Qed.

(** X5.  An accepted tick that finds no video id, an ad playing, or a
    fresh cache entry neither starts nor aborts a request and leaves the
    cache as it is; it takes the throttle slot.  Without a video id it
    renders nothing; during an ad it blanks the caption; on a hit it shows
    the line selected from the cached window. *)
Theorem accepted_tick_without_miss (env : Env) (s : State) :
  tickAccepted env s = true ->
  let s' := step env TimeUpdate s in
  let quiet :=
    pending s' = pending s /\ nextCtrl s' = nextCtrl s /\
    inflight s' = inflight s /\ aborted s' = aborted s /\
    cache s' = cache s /\ lastTickAt s' = perfNow env /\ mode s' = mode s in
  (videoId s = None \/ videoId s = Some "" ->
   quiet /\ renders s' = renders s)
  /\
  (forall vid, videoId s = Some vid -> vid <> "" -> adShowing env = true ->
   quiet /\ renders s' = "" :: renders s)
  /\
  (forall vid hit,
     videoId s = Some vid -> vid <> "" -> adShowing env = false ->
     JsMap.get (cacheKey vid (language s) (currentTime env)) (cache s)
     = Some hit ->
     dateNow env <= ts hit + CACHE_TTL_MS ->
     quiet /\
     renders s' = renderText (data hit) (currentTime env) :: renders s).
Proof.
  intros Hacc s' quiet. subst quiet s'. cbn [step]. unfold onTimeTick.
  destruct (tickAccepted_guards env s Hacc) as [-> ->]. fields.
  split; [|split].
  - intros [-> | ->]; fields; repeat split.
  - intros vid -> Hne ->. apply String.eqb_neq in Hne. rewrite Hne.
    unfold setCaptionText. fields. repeat split.
  - intros vid hit -> Hne -> Hget Hfresh.
    apply String.eqb_neq in Hne. rewrite Hne.
    unfold cacheGet. rewrite Hget.
    destruct (Z.ltb_spec CACHE_TTL_MS (dateNow env - ts hit)); [lia|].
    unfold renderFromWindow, setCaptionText. fields. repeat split.
Qed.

Lemma accepted_tick_without_miss_witness :
  let s := set_cache cacheVW (run (boot (envAt 0)) traceStarted) in
  let env := mkEnv 2000 1000100 5 false true
                   "https://www.youtube.com/watch?v=v" (Some "v") in
  let s' := step env TimeUpdate s in
  (pending s' = pending s /\ nextCtrl s' = nextCtrl s /\
   inflight s' = inflight s /\ aborted s' = aborted s /\
   cache s' = cache s /\ lastTickAt s' = perfNow env /\ mode s' = mode s) /\
  renders s' = renderText [lineA] 5 :: renders s.
Proof.
  apply (proj2 (proj2 (accepted_tick_without_miss
           (mkEnv 2000 1000100 5 false true
                  "https://www.youtube.com/watch?v=v" (Some "v"))
           (set_cache cacheVW (run (boot (envAt 0)) traceStarted))
           ltac:(vm_compute; reflexivity)))
           "v" (mkEntry 1000000 [lineA])).
  - vm_compute. reflexivity.
  - discriminate.
  - reflexivity.
  - vm_compute. reflexivity.
  - vm_compute. discriminate.
Defined.

(** * A request from start to end *)

Lemma findRequest_app_new c l r :
  (forall r0, In r0 l -> rctrl r0 <> c) -> rctrl r = c ->
  findRequest c (l ++ [r]) = Some r.
Proof.
  intros Hold Hr. unfold findRequest.
  induction l as [|a l IH]; simpl.
  - now rewrite Hr, Nat.eqb_refl.
  - destruct (Nat.eqb_spec (rctrl a) c) as [E|_].
    + exfalso. apply (Hold a); [now left | exact E].
    + apply IH. intros r0 H0. apply Hold. now right.
Qed.

Lemma findRequest_advance c st l r :
  findRequest c l = Some r ->
  findRequest c (advanceRequest c st l)
  = Some (mkRequest (rctrl r) st (rvid r) (rkey r) (rt r)).
Proof.
  unfold findRequest, advanceRequest.
  induction l as [|a l IH]; simpl; [discriminate|].
  destruct (Nat.eqb (rctrl a) c) eqn:E; simpl; rewrite E.
  - now intros [= ->].
  - exact IH.
Qed.

Lemma tick_miss env s vid :
  tickAccepted env s = true -> videoId s = Some vid -> vid <> "" ->
  adShowing env = false ->
  fst (cacheGet (cacheKey vid (language s) (currentTime env)) (dateNow env)
         (cache s)) = None ->
  onTimeTick env s
  = startRequest vid (cacheKey vid (language s) (currentTime env))
      (currentTime env)
      (abortInflight
         (set_cache
            (snd (cacheGet (cacheKey vid (language s) (currentTime env))
                    (dateNow env) (cache s)))
            (set_lastTickAt (perfNow env) s))).
Proof.
  intros Hacc Hvid Hne Had Hmiss. unfold onTimeTick.
  destruct (tickAccepted_guards env s Hacc) as [-> ->]. fields.
  rewrite Hvid, Had. apply String.eqb_neq in Hne. rewrite Hne.
  destruct (cacheGet _ _ _) as [[cached|] cache']; [discriminate|reflexivity].
Qed.

Lemma settle_lines env c orig s r :
  findRequest c (pending s) = Some r -> rstage r = FetchingLines ->
  isAborted c s = false ->
  settle env c (Resolved orig) s
  = set_pending
      (advanceRequest c (Translating orig (language s) (hint s)) (pending s))
      (set_inflight (Some (mkInflight c translate)) s).
Proof.
  intros Hr Hst Hlive. unfold settle, delivered, continueChain.
  rewrite Hr, Hlive, Hst. now destruct (findRequest_some _ _ _ Hr) as [_ ->].
Qed.

Lemma settle_translated env c tr s r orig target hintArg :
  findRequest c (pending s) = Some r ->
  rstage r = Translating orig target hintArg ->
  isAborted c s = false ->
  settle env c (Resolved tr) s
  = set_inflight None
      (renderFromWindow tr (rt r)
         (set_cache (cacheSet (rkey r) (dateNow env) tr (cache s))
            (set_pending (dropRequest c (pending s)) s))).
Proof.
  intros Hr Hst Hlive. unfold settle, delivered, continueChain.
  rewrite Hr, Hlive, Hst. now destruct (findRequest_some _ _ _ Hr) as [_ ->].
Qed.

Lemma isAborted_abortInflight_fresh s :
  Inv s -> isAborted (nextCtrl s) (abortInflight s) = false.
Proof.
  intros Hinv.
  change (cCancelled (nextCtrl s) (chains (abortInflight s)) = false).
  rewrite chains_abortInflight.
  destruct (cCancelled (nextCtrl s) (cAbort (chains s))) eqn:E; [|reflexivity].
  exfalso. unfold cCancelled in E. apply existsb_exists in E.
  destruct E as (x & Hin & Hx). apply Nat.eqb_eq in Hx. subst x.
  pose proof (ok_aborted_fresh _ _ (ok_abort _ _ Hinv IDLE) _ Hin) as Hlt.
  rewrite c_next_cAbort in Hlt. simpl in Hlt. lia.
Qed.

Lemma withinBound_reachable s : reachable s -> withinBound (cache s).
Proof.
  apply cache_reachable; [apply withinBound_closed|].
  unfold withinBound, JsMap.size, CACHE_MAX. simpl. lia.
Qed.

Lemma cacheKey_same_bucket vid lang t t' :
  Qfloor t = Qfloor t' -> cacheKey vid lang t = cacheKey vid lang t'.
Proof. unfold cacheKey, bucketString. now intros ->. Qed.

(** X6.  A hydration from start to end.  In any execution, an accepted
    tick that misses the cache records a new request, in stage 'chunks',
    and renders nothing.  When the lines arrive the record moves to stage
    'translate' and [translateWindow] is called with them and the current
    language and hint.  When the translation arrives it is stored under
    the key of the tick, the line selected for the time of the tick is
    rendered, and [state.inflight] is cleared.  An accepted tick
    in the same one-second bucket, at most [CACHE_TTL_MS] later, is then
    served from the cache and starts no request. *)
Theorem hydration_round
        (env0 : Env) (trace : list (Env * Event)) (env1 env2 env3 : Env)
        (vid : string) (orig tr : list Line) :
  let s := run (boot env0) trace in
  let key := cacheKey vid (language s) (currentTime env1) in
  let c := nextCtrl s in
  tickAccepted env1 s = true -> videoId s = Some vid -> vid <> "" ->
  adShowing env1 = false ->
  fst (cacheGet key (dateNow env1) (cache s)) = None ->
  let s1 := step env1 TimeUpdate s in
  let s2 := step env2 (Settle c (Resolved orig)) s1 in
  let s3 := step env3 (Settle c (Resolved tr)) s2 in
  (inflight s1 = Some (mkInflight c chunks) /\
   findRequest c (pending s1)
   = Some (mkRequest c FetchingLines vid key (currentTime env1)) /\
   renders s1 = renders s)
  /\
  (inflight s2 = Some (mkInflight c translate) /\
   findRequest c (pending s2)
   = Some (mkRequest c (Translating orig (language s) (hint s)) vid key
             (currentTime env1)))
  /\
  (inflight s3 = None /\ ~ isPending c s3 /\
   JsMap.get key (cache s3) = Some (mkEntry (dateNow env3) tr) /\
   renders s3 = renderText tr (currentTime env1) :: renders s /\
   mode s3 = ACTIVE)
  /\
  (forall env4,
     tickAccepted env4 s3 = true -> adShowing env4 = false ->
     Qfloor (currentTime env4) = Qfloor (currentTime env1) ->
     dateNow env4 <= dateNow env3 + CACHE_TTL_MS ->
     let s4 := step env4 TimeUpdate s3 in
     renders s4 = renderText tr (currentTime env4) :: renders s3 /\
     nextCtrl s4 = nextCtrl s3 /\ pending s4 = pending s3).
Proof.
  intros s key c Hacc Hvid Hne Had Hmiss s1 s2 s3.
  assert (Hreach : reachable s) by apply reachable_run, reachable_boot.
  assert (Hinv : Inv s) by now apply Inv_reachable.
  destruct (tickAccepted_running env1 s Hacc) as [Hv Hm].
  (* the tick *)
  assert (E1 : s1 = startRequest vid key (currentTime env1)
                      (abortInflight
                         (set_cache (snd (cacheGet key (dateNow env1) (cache s)))
                            (set_lastTickAt (perfNow env1) s))))
    by (apply tick_miss; assumption).
  set (sa := abortInflight _) in E1.
  assert (Hpa : pending sa = pending s)
    by (subst sa; unfold abortInflight; fields; now destruct (inflight s)).
  assert (Hna : nextCtrl sa = c)
    by (subst sa; unfold abortInflight; fields; now destruct (inflight s)).
  assert (Hra : renders sa = renders s)
    by (subst sa; unfold abortInflight; fields; now destruct (inflight s)).
  assert (Hla : language sa = language s /\ hint sa = hint s /\
                videoId sa = videoId s /\ mode sa = mode s /\
                videoEl sa = videoEl s)
    by (subst sa; unfold abortInflight; fields; now destruct (inflight s)).
  destruct Hla as (Hla & Hha & Hva & Hma & Hea).
  assert (Hlive1 : isAborted c s1 = false).
  { rewrite E1. change (isAborted c sa = false). subst sa.
    exact (isAborted_abortInflight_fresh
             (set_cache _ (set_lastTickAt (perfNow env1) s)) Hinv). }
  assert (F1 : findRequest c (pending s1)
               = Some (mkRequest c FetchingLines vid key (currentTime env1))).
  { rewrite E1. unfold startRequest. fields. rewrite Hna, Hpa.
    apply findRequest_app_new; [|reflexivity].
    intros r0 H0. pose proof (ok_pending_fresh _ _ Hinv (rctrl r0)) as Hlt.
    simpl in Hlt. specialize (Hlt (in_map rctrl _ _ H0)). subst c. lia. }
  (* the lines *)
  assert (E2 : s2 = set_pending
                      (advanceRequest c
                         (Translating orig (language s1) (hint s1)) (pending s1))
                      (set_inflight (Some (mkInflight c translate)) s1))
    by (apply (settle_lines env2 c orig s1 _ F1); trivial).
  assert (Hl1 : language s1 = language s /\ hint s1 = hint s).
  { rewrite E1. unfold startRequest. fields. now split. }
  destruct Hl1 as [Hl1 Hh1].
  assert (F2 : findRequest c (pending s2)
               = Some (mkRequest c (Translating orig (language s) (hint s)) vid
                         key (currentTime env1))).
  { rewrite E2. fields. rewrite (findRequest_advance _ _ _ _ F1).
    now rewrite Hl1, Hh1. }
  assert (Hlive2 : isAborted c s2 = false) by (rewrite E2; exact Hlive1).
  (* the translation *)
  assert (E3 : s3 = set_inflight None
                      (renderFromWindow tr (currentTime env1)
                         (set_cache (cacheSet key (dateNow env3) tr (cache s2))
                            (set_pending (dropRequest c (pending s2)) s2))))
    by exact (settle_translated env3 c tr s2 _ orig (language s) (hint s)
                F2 eq_refl Hlive2).
  assert (Hreach2 : reachable s2) by (do 2 apply reachable_step; exact Hreach).
  assert (Hget3 : JsMap.get key (cache s3) = Some (mkEntry (dateNow env3) tr)).
  { rewrite E3. unfold renderFromWindow, setCaptionText. fields.
    apply get_cacheSet_same. now apply withinBound_reachable. }
  assert (Hr1 : renders s1 = renders s).
  { rewrite E1. unfold startRequest. fields. exact Hra. }
  assert (Hr3 : renders s3 = renderText tr (currentTime env1) :: renders s).
  { rewrite E3. unfold renderFromWindow, setCaptionText. fields.
    rewrite E2. fields. now rewrite Hr1. }
  assert (Hs3 : videoId s3 = Some vid /\ language s3 = language s /\
                mode s3 = ACTIVE).
  { rewrite E3. unfold renderFromWindow, setCaptionText. fields.
    rewrite E2. fields. rewrite E1. unfold startRequest. fields.
    rewrite Hva, Hla, Hma. auto. }
  destruct Hs3 as (Hv3 & Hl3 & Hm3).
  split; [|split; [|split]].
  - repeat split; trivial. rewrite E1. unfold startRequest. fields.
    now rewrite Hna.
  - split; [|exact F2]. rewrite E2. reflexivity.
  - repeat split; trivial.
    + rewrite E3. reflexivity.
    + apply (dropRequest_gone c s2). rewrite E3.
      unfold renderFromWindow, setCaptionText. reflexivity.
  - intros env4 Hacc4 Had4 Hbucket Hfresh s4.
    assert (Hkey : cacheKey vid (language s3) (currentTime env4) = key).
    { rewrite Hl3. now apply cacheKey_same_bucket. }
    assert (E4 : s4 = renderFromWindow tr (currentTime env4)
                        (set_cache (cache s3)
                           (set_lastTickAt (perfNow env4) s3))).
    { apply (tick_hit env4 s3 vid (mkEntry (dateNow env3) tr)); trivial.
      now rewrite Hkey. }
    rewrite E4. unfold renderFromWindow, setCaptionText. fields.
    repeat split.
Qed.

Lemma hydration_round_witness :
  let s := run (boot (envAt 0)) traceStarted in
  let key := cacheKey "v" (language s) (currentTime (envAt 2000)) in
  let c := nextCtrl s in
  let s1 := step (envAt 2000) TimeUpdate s in
  let s2 := step (envAt 2100) (Settle c (Resolved [lineA; lineB])) s1 in
  let s3 := step (envAt 2200) (Settle c (Resolved [lineA; lineB])) s2 in
  (inflight s1 = Some (mkInflight c chunks) /\
   findRequest c (pending s1)
   = Some (mkRequest c FetchingLines "v" key (currentTime (envAt 2000))) /\
   renders s1 = renders s)
  /\
  (inflight s2 = Some (mkInflight c translate) /\
   findRequest c (pending s2)
   = Some (mkRequest c (Translating [lineA; lineB] (language s) (hint s)) "v"
             key (currentTime (envAt 2000))))
  /\
  (inflight s3 = None /\ ~ isPending c s3 /\
   JsMap.get key (cache s3)
   = Some (mkEntry (dateNow (envAt 2200)) [lineA; lineB]) /\
   renders s3
   = renderText [lineA; lineB] (currentTime (envAt 2000)) :: renders s /\
   mode s3 = ACTIVE)
  /\
  (forall env4,
     tickAccepted env4 s3 = true -> adShowing env4 = false ->
     Qfloor (currentTime env4) = Qfloor (currentTime (envAt 2000)) ->
     dateNow env4 <= dateNow (envAt 2200) + CACHE_TTL_MS ->
     let s4 := step env4 TimeUpdate s3 in
     renders s4 = renderText [lineA; lineB] (currentTime env4) :: renders s3 /\
     nextCtrl s4 = nextCtrl s3 /\ pending s4 = pending s3).
Proof.
  apply (hydration_round (envAt 0) traceStarted (envAt 2000) (envAt 2100)
           (envAt 2200) "v" [lineA; lineB] [lineA; lineB]).
  - vm_compute. reflexivity.
  - vm_compute. reflexivity.
  - discriminate.
  - reflexivity.
  - vm_compute. reflexivity.
Defined.

(** * Settings and failures while a request is in flight *)

Lemma settings_stay_enabled env st s :
  settingsEnabled st = true -> mode s <> IDLE ->
  step env (Message (SETTINGS_CHANGED st)) s
  = set_hint (orElse (settingsHint st) (hint s))
      (set_language (orElse (settingsLanguage st) (language s))
         (set_enabled true s)).
Proof.
  intros Hen Hm. cbn [step onMessage]. rewrite Hen. fields.
  destruct (mode_eqb (mode s) IDLE) eqn:E;
    [apply mode_eqb_eq in E; contradiction|].
  reflexivity.
Qed.

(** X7.  A settings command that leaves the script enabled, received
    while the mode is not IDLE, changes the settings only: a request in
    flight is not cancelled and the cache is kept.  When the lines of that
    request arrive, [translateWindow] is called with the language and hint
    of that moment, the new ones; the translation is then stored under the
    key of the request, which was built from the language at the time of
    the tick. *)
Theorem settings_change_keeps_request
        (env env2 env3 : Env) (s : State) (st : option Settings) (c : nat)
        (r : Request) (orig tr : list Line) :
  findRequest c (pending s) = Some r -> rstage r = FetchingLines ->
  isAborted c s = false ->
  settingsEnabled st = true -> mode s <> IDLE -> withinBound (cache s) ->
  let s1 := step env (Message (SETTINGS_CHANGED st)) s in
  let s2 := step env2 (Settle c (Resolved orig)) s1 in
  let s3 := step env3 (Settle c (Resolved tr)) s2 in
  (pending s1 = pending s /\ aborted s1 = aborted s /\
   inflight s1 = inflight s /\ cache s1 = cache s /\ mode s1 = mode s /\
   language s1 = orElse (settingsLanguage st) (language s) /\
   hint s1 = orElse (settingsHint st) (hint s))
  /\
  findRequest c (pending s2)
  = Some (mkRequest c
            (Translating orig (orElse (settingsLanguage st) (language s))
               (orElse (settingsHint st) (hint s)))
            (rvid r) (rkey r) (rt r))
  /\
  JsMap.get (rkey r) (cache s3) = Some (mkEntry (dateNow env3) tr).
Proof.
  intros Hr Hst Hlive Hen Hm Hb s1 s2 s3.
  assert (E1 : s1 = set_hint (orElse (settingsHint st) (hint s))
                      (set_language (orElse (settingsLanguage st) (language s))
                         (set_enabled true s)))
    by now apply settings_stay_enabled.
  destruct (findRequest_some _ _ _ Hr) as [_ Hc].
  assert (Hr1 : findRequest c (pending s1) = Some r) by (rewrite E1; exact Hr).
  assert (Hlive1 : isAborted c s1 = false) by (rewrite E1; exact Hlive).
  assert (E2 : s2 = set_pending
                      (advanceRequest c
                         (Translating orig (language s1) (hint s1)) (pending s1))
                      (set_inflight (Some (mkInflight c translate)) s1))
    by exact (settle_lines env2 c orig s1 r Hr1 Hst Hlive1).
  assert (F2 : findRequest c (pending s2)
               = Some (mkRequest c (Translating orig (language s1) (hint s1))
                         (rvid r) (rkey r) (rt r))).
  { rewrite E2. fields. rewrite (findRequest_advance _ _ _ _ Hr1).
    now rewrite Hc. }
  assert (Hlive2 : isAborted c s2 = false) by (rewrite E2; exact Hlive1).
  assert (E3 : s3 = set_inflight None
                      (renderFromWindow tr (rt r)
                         (set_cache (cacheSet (rkey r) (dateNow env3) tr (cache s2))
                            (set_pending (dropRequest c (pending s2)) s2))))
    by exact (settle_translated env3 c tr s2 _ orig (language s1) (hint s1)
                F2 eq_refl Hlive2).
  split; [|split].
  - rewrite E1. fields. repeat split.
  - rewrite F2, E1. reflexivity.
  - rewrite E3. unfold renderFromWindow, setCaptionText. fields.
    apply get_cacheSet_same. rewrite E2, E1. exact Hb.
Qed.

Lemma settings_change_keeps_request_witness :
  let s := run (boot (envAt 0)) traceStarted in
  let st := Some (mkSettings true (Some "de") (Some "news")) in
  let r := mkRequest 0 FetchingLines "v" "v|fr|5" 5 in
  let s1 := step (envAt 1500) (Message (SETTINGS_CHANGED st)) s in
  let s2 := step (envAt 1600) (Settle 0 (Resolved [lineA])) s1 in
  let s3 := step (envAt 1700) (Settle 0 (Resolved [lineB])) s2 in
  (pending s1 = pending s /\ aborted s1 = aborted s /\
   inflight s1 = inflight s /\ cache s1 = cache s /\ mode s1 = mode s /\
   language s1 = orElse (settingsLanguage st) (language s) /\
   hint s1 = orElse (settingsHint st) (hint s))
  /\
  findRequest 0 (pending s2)
  = Some (mkRequest 0
            (Translating [lineA] (orElse (settingsLanguage st) (language s))
               (orElse (settingsHint st) (hint s)))
            (rvid r) (rkey r) (rt r))
  /\
  JsMap.get (rkey r) (cache s3) = Some (mkEntry (dateNow (envAt 1700)) [lineB]).
Proof.
  apply (settings_change_keeps_request (envAt 1500) (envAt 1600) (envAt 1700)
           (run (boot (envAt 0)) traceStarted)
           (Some (mkSettings true (Some "de") (Some "news"))) 0%nat
           (mkRequest 0 FetchingLines "v" "v|fr|5" 5) [lineA] [lineB]).
  - vm_compute. reflexivity.
  - reflexivity.
  - vm_compute. reflexivity.
  - reflexivity.
  - vm_compute. discriminate.
  - unfold withinBound. apply Nat.leb_le. vm_compute. reflexivity.
Defined.

(** The translation asked in German is filed under the French key. *)
Example language_switch_scenario :
  let s := run (boot (envAt 0)) traceStarted in
  let st := Some (mkSettings true (Some "de") None) in
  let s2 := run s [(envAt 1500, Message (SETTINGS_CHANGED st));
                   (envAt 1600, Settle 0 (Resolved [lineA]))] in
  let s3 := step (envAt 1700) (Settle 0 (Resolved [lineB])) s2 in
  language s = "fr" /\ language s3 = "de" /\
  pending s2 = [mkRequest 0 (Translating [lineA] "de" "") "v" "v|fr|5" 5] /\
  JsMap.keys (cache s3) = ["v|fr|5"].
Proof. vm_compute. repeat split. Qed.

Lemma tick_miss_request env s vid :
  Inv s ->
  tickAccepted env s = true -> videoId s = Some vid -> vid <> "" ->
  adShowing env = false ->
  fst (cacheGet (cacheKey vid (language s) (currentTime env)) (dateNow env)
         (cache s)) = None ->
  let c := nextCtrl s in
  let s' := onTimeTick env s in
  inflight s' = Some (mkInflight c chunks) /\
  findRequest c (pending s')
  = Some (mkRequest c FetchingLines vid
            (cacheKey vid (language s) (currentTime env)) (currentTime env)) /\
  isAborted c s' = false /\
  (forall i, inflight s = Some i -> isAborted (ctrl i) s' = true) /\
  renders s' = renders s.
Proof.
  intros Hinv Hacc Hvid Hne Had Hmiss c s'. subst s'.
  rewrite (tick_miss env s vid Hacc Hvid Hne Had Hmiss).
  set (s0 := set_cache _ _).
  assert (Hinv0 : Inv s0) by exact Hinv.
  assert (Hfields : pending (abortInflight s0) = pending s /\
                    nextCtrl (abortInflight s0) = c /\
                    renders (abortInflight s0) = renders s).
  { unfold abortInflight. subst s0. fields. now destruct (inflight s). }
  destruct Hfields as (Hp & Hn & Hrn).
  unfold startRequest. fields. rewrite Hn, Hp.
  split; [reflexivity|]. split; [|split; [|split]].
  - apply findRequest_app_new; [|reflexivity].
    intros r0 H0. pose proof (ok_pending_fresh _ _ Hinv (rctrl r0)) as Hlt.
    simpl in Hlt. specialize (Hlt (in_map rctrl _ _ H0)). subst c. lia.
  - exact (isAborted_abortInflight_fresh s0 Hinv0).
  - intros i Hi.
    change (cCancelled (ctrl i) (chains (abortInflight s0)) = true).
    rewrite chains_abortInflight.
    apply (proj1 (cAbort_cancels _ _ Hinv0)). exact Hi.
  - exact Hrn.
Qed.

(** X8.  The soft retry does retry.  After a request failed with an error
    other than an [AbortError] the mode is ERROR, ticks are ignored and
    [state.inflight] still holds the record of the failed request.  Once
    the recovery timeout has run, the next tick that passes the throttle
    and misses the cache starts a new request, after calling [abort()] on
    the controller of the failed one. *)
Theorem failed_hydration_is_retried
        (env0 : Env) (trace : list (Env * Event)) (env1 env2 env3 : Env)
        (c : nat) (r : Request) (vid : string) :
  let s := run (boot env0) trace in
  let key := cacheKey vid (language s) (currentTime env3) in
  findRequest c (pending s) = Some r -> isAborted c s = false ->
  videoEl s = true -> videoId s = Some vid -> vid <> "" ->
  (tickInterval <= perfNow env3 - lastTickAt s)%Q ->
  adShowing env3 = false ->
  fst (cacheGet key (dateNow env3) (cache s)) = None ->
  let s1 := step env1 (Settle c RejectedOther) s in
  let s2 := step env2 (TimerFired (length (timers s))) s1 in
  let s3 := step env3 TimeUpdate s2 in
  (mode s1 = ERROR /\ inflight s1 = inflight s /\ ~ isPending c s1 /\
   step env3 TimeUpdate s1 = s1)
  /\
  mode s2 = ACTIVE
  /\
  (inflight s3 = Some (mkInflight (nextCtrl s) chunks) /\
   findRequest (nextCtrl s) (pending s3)
   = Some (mkRequest (nextCtrl s) FetchingLines vid key (currentTime env3)) /\
   isAborted (nextCtrl s) s3 = false /\
   (forall i, inflight s = Some i -> isAborted (ctrl i) s3 = true)).
Proof.
  intros s key Hr Hlive Hv Hvid Hne Hnow Had Hmiss s1 s2 s3.
  assert (Hreach : reachable s) by apply reachable_run, reachable_boot.
  assert (E1 : s1 = hydrationFailed (set_pending (dropRequest c (pending s)) s)).
  { subst s1. cbn [step]. unfold settle, delivered, continueChain.
    rewrite Hr, Hlive. destruct (findRequest_some _ _ _ Hr) as [_ ->].
    now destruct (rstage r). }
  assert (Hm1 : mode s1 = ERROR) by (rewrite E1; apply mode_hydrationFailed).
  assert (Ht1 : timers s1 = timers s ++ [TRecover]).
  { rewrite E1. unfold hydrationFailed, setCaptionText, setState.
    split_cases; reflexivity. }
  assert (Hsame1 : inflight s1 = inflight s /\ videoEl s1 = videoEl s /\
                   videoId s1 = videoId s /\ lastTickAt s1 = lastTickAt s /\
                   language s1 = language s /\ cache s1 = cache s /\
                   nextCtrl s1 = nextCtrl s /\
                   pending s1 = dropRequest c (pending s)).
  { rewrite E1. unfold hydrationFailed, setCaptionText, setState.
    split_cases; repeat split. }
  destruct Hsame1 as (Hi1 & He1 & Hvi1 & Hl1 & Hla1 & Hc1 & Hn1 & Hp1).
  assert (E2 : s2 = setState ACTIVE
                      (set_timers (removeNth (length (timers s)) (timers s1)) s1)).
  { subst s2. cbn [step]. unfold onTimer. rewrite Ht1.
    rewrite nth_error_app2 by lia. now rewrite Nat.sub_diag. }
  assert (Hm2 : mode s2 = ACTIVE) by (rewrite E2; apply mode_setState).
  assert (Hsame2 : inflight s2 = inflight s /\ videoEl s2 = true /\
                   videoId s2 = Some vid /\ lastTickAt s2 = lastTickAt s /\
                   language s2 = language s /\ cache s2 = cache s /\
                   nextCtrl s2 = nextCtrl s).
  { rewrite E2. unfold setState. split_cases; fields;
      rewrite ?Hi1, ?He1, ?Hvi1, ?Hl1, ?Hla1, ?Hc1, ?Hn1; auto 10. }
  destruct Hsame2 as (Hi2 & He2 & Hvi2 & Hl2 & Hla2 & Hc2 & Hn2).
  assert (Hacc : tickAccepted env3 s2 = true).
  { unfold tickAccepted. rewrite He2, Hm2, Hl2. cbn [negb orb andb mode_eqb].
    apply negb_true_iff, Qltb_ge. exact Hnow. }
  assert (Hinv2 : Inv s2).
  { apply Inv_reachable. do 2 apply reachable_step. exact Hreach. }
  destruct (tick_miss_request env3 s2 vid Hinv2 Hacc Hvi2 Hne Had)
    as (H1 & H2 & H3 & H4 & _).
  { now rewrite Hla2, Hc2. }
  rewrite Hla2, Hn2 in *.
  split; [|split; [exact Hm2|]].
  - repeat split; trivial.
    + now apply (dropRequest_gone c s).
    + cbn [step]. apply tick_not_running. left. congruence.
  - repeat split; trivial. intros i Hi. apply H4. congruence.
Qed.

Lemma failed_hydration_is_retried_witness :
  let s := run (boot (envAt 0)) traceStarted in
  let s1 := step (envAt 1200) (Settle 0 RejectedOther) s in
  let s2 := step (envAt 2400) (TimerFired (length (timers s))) s1 in
  let s3 := step (envAt 2500) TimeUpdate s2 in
  (mode s1 = ERROR /\ inflight s1 = inflight s /\ ~ isPending 0 s1 /\
   step (envAt 2500) TimeUpdate s1 = s1)
  /\
  mode s2 = ACTIVE
  /\
  (inflight s3 = Some (mkInflight (nextCtrl s) chunks) /\
   findRequest (nextCtrl s) (pending s3)
   = Some (mkRequest (nextCtrl s) FetchingLines "v"
             (cacheKey "v" (language s) (currentTime (envAt 2500)))
             (currentTime (envAt 2500))) /\
   isAborted (nextCtrl s) s3 = false /\
   (forall i, inflight s = Some i -> isAborted (ctrl i) s3 = true)).
Proof.
  apply (failed_hydration_is_retried (envAt 0) traceStarted (envAt 1200)
           (envAt 2400) (envAt 2500) 0%nat
           (mkRequest 0 FetchingLines "v" "v|fr|5" 5) "v").
  - vm_compute. reflexivity.
  - vm_compute. reflexivity.
  - vm_compute. reflexivity.
  - vm_compute. reflexivity.
  - discriminate.
  - vm_compute. discriminate.
  - reflexivity.
  - vm_compute. reflexivity.
Defined.

(** * Attach, stop and change of video *)

Lemma removeNth_last {A : Type} (l : list A) (x : A) :
  removeNth (length l) (l ++ [x]) = l.
Proof. induction l as [|a l IH]; simpl; [reflexivity | now rewrite IH]. Qed.

Lemma nth_error_last {A : Type} (l : list A) (x : A) :
  nth_error (l ++ [x]) (length l) = Some x.
Proof. rewrite nth_error_app2 by lia. now rewrite Nat.sub_diag. Qed.

Lemma forced_tick_accepted env s :
  videoEl s = true -> mode s = ACTIVE -> (tickInterval <= perfNow env)%Q ->
  tickAccepted env (set_lastTickAt 0 s) = true.
Proof.
  intros Hv Hm Hnow. unfold tickAccepted. fields. rewrite Hv, Hm.
  cbn [negb orb andb mode_eqb]. apply negb_true_iff, Qltb_ge.
  unfold Qminus.
  setoid_replace (perfNow env + - 0)%Q with (perfNow env); [assumption | ring].
Qed.

Lemma retry_not_ready env base n s :
  timers s = base ++ [TWait n] -> playerReady env = false ->
  (S n < ATTACH_MAX)%nat ->
  let s' := step env (TimerFired (length base)) s in
  timers s' = base ++ [TWait (S n)] /\ mode s' = mode s /\
  videoEl s' = videoEl s /\ overlay s' = overlay s /\
  pending s' = pending s.
Proof.
  intros Ht Hready Hlt s'. subst s'. cbn [step]. unfold onTimer, wait.
  rewrite Ht, nth_error_last, Hready, removeNth_last.
  apply Nat.ltb_lt in Hlt. rewrite Hlt. fields. repeat split.
Qed.

Lemma retries_not_ready envs : forall base n s,
  timers s = base ++ [TWait n] ->
  Forall (fun env => playerReady env = false) envs ->
  (n + length envs < ATTACH_MAX)%nat ->
  let s' := fireEach (length base) envs s in
  timers s' = base ++ [TWait (n + length envs)] /\ mode s' = mode s /\
  videoEl s' = videoEl s /\ overlay s' = overlay s /\ pending s' = pending s.
Proof.
  induction envs as [|env envs IH]; intros base n s Ht Hall Hlt s'; subst s';
    cbn [fireEach length] in *.
  - rewrite Nat.add_0_r. repeat split. exact Ht.
  - inversion Hall as [|? ? Hready Hrest]; subst.
    destruct (retry_not_ready env base n s Ht Hready)
      as (Ht1 & Hm1 & Hv1 & Ho1 & Hp1); [lia|].
    destruct (IH base (S n) _ Ht1 Hrest) as (Ht2 & Hm2 & Hv2 & Ho2 & Hp2);
      [lia|].
    rewrite Ht2, Hm2, Hv2, Ho2, Hp2, Hm1, Hv1, Ho1, Hp1.
    repeat split. f_equal. f_equal. f_equal. lia.
Qed.

(** X9.  The attach sequence.  A start command that does not find the
    player sets the mode to ACTIVE and schedules a retry.  As long as the
    retries do not find the player either and fewer than 20 attempts were
    made, the mode stays ACTIVE, nothing is attached and exactly one retry
    is pending; the 20th failed attempt sets the mode to ERROR and
    schedules nothing.  A retry that finds the player attaches and
    schedules nothing more. *)
Theorem attach_retries_then_error
        (env : Env) (st : option Settings) (s : State) (envs : list Env) :
  playerReady env = false ->
  Forall (fun env' => playerReady env' = false) envs ->
  let k := length (timers s) in
  let s0 := step env (Message (START_TRANSLATION st)) s in
  let sj := fireEach k envs s0 in
  ((S (length envs) < ATTACH_MAX)%nat ->
   mode sj = ACTIVE /\ videoEl sj = videoEl s /\ overlay sj = overlay s /\
   timers sj = timers s ++ [TWait (S (length envs))] /\
   forall env', playerReady env' = true ->
     let sa := step env' (TimerFired k) sj in
     videoEl sa = true /\ mode sa = ACTIVE /\ timers sa = timers s)
  /\
  (S (length envs) = ATTACH_MAX ->
   mode sj = ERROR /\ videoEl sj = videoEl s /\ timers sj = timers s).
Proof.
  intros Hready Hall k s0 sj.
  assert (H0 : mode s0 = ACTIVE /\ videoEl s0 = videoEl s /\
               overlay s0 = overlay s /\ timers s0 = timers s ++ [TWait 1]).
  { subst s0. cbn [step onMessage]. unfold tryStartActive, wait. fields.
    rewrite Hready. change (1 <? ATTACH_MAX)%nat with true. cbn [negb]. fields.
    rewrite mode_setState. unfold setState.
    destruct (mode_eqb _ _); fields; repeat split. }
  destruct H0 as (Hm0 & Hv0 & Ho0 & Ht0).
  split.
  - intros Hlt.
    destruct (retries_not_ready envs (timers s) 1 s0 Ht0 Hall)
      as (Ht & Hm & Hv & Ho & _); [simpl; lia|].
    fold k in Ht, Hm, Hv, Ho. fold sj in Ht, Hm, Hv, Ho.
    rewrite Hm, Hv, Ho.
    split; [exact Hm0|]. split; [exact Hv0|]. split; [exact Ho0|].
    split; [exact Ht|].
    intros env' Hr' sa. subst sa. cbn [step]. unfold onTimer, wait. subst k.
    rewrite Ht, nth_error_last, Hr', removeNth_last.
    rewrite videoEl_tick, timers_tick.
    match goal with
    | |- _ /\ mode (onTimeTick ?e ?x) = _ /\ _ =>
      destruct (tick_effect e x) as [-> _]
    end.
    fields. rewrite mode_injectIfReady. fields.
    unfold injectIfReady, ensureOverlay.
    split; [split_cases; reflexivity|]. split; [congruence|].
    split_cases; reflexivity.
  - intros Hlast.
    destruct envs as [|envL envs'] using rev_ind.
    { simpl in Hlast. unfold ATTACH_MAX in Hlast. discriminate. }
    clear IHenvs'.
    apply Forall_app in Hall. destruct Hall as [Hall HL].
    inversion HL as [|? ? HreadyL _]; subst.
    rewrite length_app in Hlast. simpl in Hlast.
    destruct (retries_not_ready envs' (timers s) 1 s0 Ht0 Hall)
      as (Ht & Hm & Hv & _ & _); [simpl; lia|].
    assert (Esj : sj = step envL (TimerFired k) (fireEach k envs' s0)).
    { subst sj. clear. generalize s0. induction envs' as [|a l IH]; intros x;
        simpl; [reflexivity | apply IH]. }
    rewrite Esj. cbn [step]. unfold onTimer, wait. subst k.
    rewrite Ht, nth_error_last, HreadyL, removeNth_last.
    replace (S (1 + length envs') <? ATTACH_MAX)%nat with false
      by (symmetry; apply Nat.ltb_ge; lia).
    rewrite mode_setState. unfold setState.
    split_cases; fields; repeat split; congruence.
Qed.

Lemma attach_retries_then_error_witness :
  let s := boot (envNoPlayer 0) in
  let envs := [envNoPlayer 1150; envNoPlayer 1300] in
  let k := length (timers s) in
  let s0 := step (envNoPlayer 1000) startMsg s in
  let sj := fireEach k envs s0 in
  mode sj = ACTIVE /\ videoEl sj = videoEl s /\ overlay sj = overlay s /\
  timers sj = timers s ++ [TWait (S (length envs))] /\
  forall env', playerReady env' = true ->
    let sa := step env' (TimerFired k) sj in
    videoEl sa = true /\ mode sa = ACTIVE /\ timers sa = timers s.
Proof.
  apply (proj1 (attach_retries_then_error (envNoPlayer 1000)
                  (Some (mkSettings true (Some "fr") (Some "")))
                  (boot (envNoPlayer 0))
                  [envNoPlayer 1150; envNoPlayer 1300]
                  eq_refl
                  ltac:(repeat constructor))).
  vm_compute. lia.
Defined.

(** X10.  A stop does not cancel a pending attach retry.  After the stop
    the mode is IDLE and nothing is attached; when the retry then finds
    the player it injects the overlay and attaches the listeners although
    the mode is still IDLE, and starts no request. *)
Theorem attach_retry_outlives_stop
        (env1 env2 : Env) (s : State) (k n : nat) :
  nth_error (timers s) k = Some (TWait n) -> playerReady env2 = true ->
  let s1 := step env1 (Message STOP_TRANSLATION) s in
  let s2 := step env2 (TimerFired k) s1 in
  (mode s1 = IDLE /\ videoEl s1 = false /\ overlay s1 = None /\
   timers s1 = timers s)
  /\
  (mode s2 = IDLE /\ videoEl s2 = true /\ overlay s2 = Some "" /\
   pending s2 = pending s1 /\ nextCtrl s2 = nextCtrl s1 /\
   renders s2 = renders s1).
Proof.
  intros Hk Hready s1 s2.
  assert (H1 : mode s1 = IDLE /\ videoEl s1 = false /\ overlay s1 = None /\
               timers s1 = timers s).
  { subst s1. cbn [step onMessage]. destruct (stopAll_effect s) as [Hm _].
    rewrite Hm, timers_stopAll. unfold stopAll, removeOverlayAndListeners.
    fields. auto. }
  destruct H1 as (Hm1 & Hv1 & Ho1 & Ht1).
  split; [auto|].
  subst s2. cbn [step]. unfold onTimer, wait. rewrite Ht1, Hk, Hready.
  rewrite tick_not_running by (left; fields; rewrite mode_injectIfReady;
                               fields; congruence).
  unfold injectIfReady, ensureOverlay. fields. rewrite Ho1. fields.
  repeat split; trivial.
Qed.

Lemma attach_retry_outlives_stop_witness :
  let s := run (boot (envNoPlayer 0)) [(envNoPlayer 1000, startMsg)] in
  let s1 := step (envNoPlayer 1050) (Message STOP_TRANSLATION) s in
  let s2 := step (envAt 1150) (TimerFired 0) s1 in
  (mode s1 = IDLE /\ videoEl s1 = false /\ overlay s1 = None /\
   timers s1 = timers s)
  /\
  (mode s2 = IDLE /\ videoEl s2 = true /\ overlay s2 = Some "" /\
   pending s2 = pending s1 /\ nextCtrl s2 = nextCtrl s1 /\
   renders s2 = renders s1).
Proof.
  apply (attach_retry_outlives_stop (envNoPlayer 1050) (envAt 1150)
           (run (boot (envNoPlayer 0)) [(envNoPlayer 1000, startMsg)])
           0%nat 1%nat).
  - vm_compute. reflexivity.
  - reflexivity.
Defined.

Lemma mode_tryStartActive_enabled env s :
  enabled s = true -> mode (tryStartActive env s) = ACTIVE.
Proof.
  intros He. unfold tryStartActive, wait. rewrite He. cbn [negb].
  destruct (playerReady env).
  - match goal with
    | |- mode (onTimeTick ?e ?x) = _ => destruct (tick_effect e x) as [-> _]
    end.
    fields. rewrite mode_injectIfReady. apply mode_setState.
  - change (1 <? ATTACH_MAX)%nat with true. fields. apply mode_setState.
Qed.

Lemma enabled_tryStartActive env s :
  enabled (tryStartActive env s) = enabled s.
Proof. open_handlers. split_cases; reflexivity. Qed.

Lemma lastUrl_tryStartActive env s :
  lastUrl (tryStartActive env s) = lastUrl s.
Proof. open_handlers. split_cases; reflexivity. Qed.

(** X11.  [onUrlMaybeChanged].  With the URL unchanged nothing happens;
    with a new URL of the same video only [lastUrl] is updated and the
    cache is kept.  With a new video id the script stops, takes the new id
    and, when enabled, starts the attach sequence again, whatever the mode
    was, ERROR included: the mode is then ACTIVE, and IDLE when the script
    is not enabled. *)
Theorem url_change_cases (env : Env) (s : State) :
  let s' := step env UrlCheck s in
  (href env = lastUrl s -> s' = s)
  /\
  (href env <> lastUrl s -> hrefVideoId env = videoId s ->
   s' = set_lastUrl (href env) s)
  /\
  (href env <> lastUrl s -> hrefVideoId env <> videoId s ->
   lastUrl s' = href env /\ videoId s' = hrefVideoId env /\
   enabled s' = enabled s /\
   mode s' = (if enabled s then ACTIVE else IDLE)).
Proof.
  intros s'. subst s'. cbn [step]. unfold onUrlMaybeChanged.
  split; [|split].
  - intros ->. now rewrite String.eqb_refl.
  - intros Hh Hv. apply String.eqb_neq in Hh. rewrite Hh. fields.
    rewrite Hv. destruct (videoId s) as [v|]; cbn [videoId_eqb negb];
      [rewrite String.eqb_refl|]; reflexivity.
  - intros Hh Hv. apply String.eqb_neq in Hh. rewrite Hh. fields.
    rewrite (videoId_eqb_neq _ _ Hv). cbn [negb].
    set (s0 := set_lastUrl (href env) s).
    destruct (resetForNavigation_effect env s0) as [Hm _].
    pose proof (enabled_resetForNavigation env s0) as He.
    change (enabled s0) with (enabled s) in He.
    assert (Hr : lastUrl (resetForNavigation env s0) = href env /\
                 videoId (resetForNavigation env s0) = hrefVideoId env).
    { unfold resetForNavigation, stopAll, removeOverlayAndListeners,
        abortInflight, setState. subst s0. split_cases; auto. }
    destruct Hr as [Hl Hvid].
    rewrite He, Hm. cbn [mode_eqb negb]. rewrite andb_true_r.
    destruct (enabled s) eqn:Een.
    + rewrite videoId_tryStartActive, Hvid.
      rewrite mode_tryStartActive_enabled by congruence.
      rewrite lastUrl_tryStartActive, enabled_tryStartActive.
      repeat split; trivial.
    + repeat split; trivial.
Qed.

Lemma url_change_cases_witness :
  let s := run (boot (envAt 0))
               (traceStarted ++ [(envAt 1200, Settle 0 RejectedOther)]) in
  let s' := step (envOther 1500) UrlCheck s in
  mode s = ERROR /\
  lastUrl s' = href (envOther 1500) /\
  videoId s' = hrefVideoId (envOther 1500) /\
  enabled s' = enabled s /\
  mode s' = (if enabled s then ACTIVE else IDLE).
Proof.
  split; [vm_compute; reflexivity|].
  apply (proj2 (proj2 (url_change_cases (envOther 1500)
           (run (boot (envAt 0))
                (traceStarted ++ [(envAt 1200, Settle 0 RejectedOther)]))))).
  - vm_compute. discriminate.
  - vm_compute. discriminate.
Defined.

Lemma stopAll_fields s :
  let s1 := stopAll s in
  mode s1 = IDLE /\ videoEl s1 = false /\ overlay s1 = None /\
  inflight s1 = None /\ cache s1 = cache s /\ enabled s1 = enabled s /\
  language s1 = language s /\ hint s1 = hint s /\ videoId s1 = videoId s /\
  renders s1 = renders s /\ pending s1 = pending s /\
  nextCtrl s1 = nextCtrl s /\ timers s1 = timers s.
Proof.
  intros s1. subst s1. destruct (stopAll_effect s) as [Hm _]. rewrite Hm.
  unfold stopAll, removeOverlayAndListeners, abortInflight, setState.
  split_cases; repeat split; fields; assumption.
Qed.

(** X12.  A stop keeps the cache and the settings: it sets the mode to
    IDLE, detaches, clears [state.inflight], and leaves the cache, the
    enabled flag, the language, the hint and the video id as they were.  A
    later start on the same video that finds the player is therefore served
    from the cache when the entry of its position is still fresh: the
    cached line is shown and no request is made. *)
Theorem stop_keeps_cache_for_resume
        (env env' : Env) (s : State) (st : option Settings) (vid : string)
        (hit : CacheEntry) :
  hrefVideoId env' = Some vid -> vid <> "" ->
  playerReady env' = true -> adShowing env' = false ->
  (tickInterval <= perfNow env')%Q ->
  JsMap.get
    (cacheKey vid (orElse (settingsLanguage st) (language s)) (currentTime env'))
    (cache s) = Some hit ->
  dateNow env' <= ts hit + CACHE_TTL_MS ->
  let s1 := step env (Message STOP_TRANSLATION) s in
  let s2 := step env' (Message (START_TRANSLATION st)) s1 in
  (mode s1 = IDLE /\ videoEl s1 = false /\ overlay s1 = None /\
   inflight s1 = None /\ cache s1 = cache s /\ enabled s1 = enabled s /\
   language s1 = language s /\ hint s1 = hint s /\ videoId s1 = videoId s)
  /\
  (mode s2 = ACTIVE /\ videoEl s2 = true /\
   overlay s2 = Some (renderText (data hit) (currentTime env')) /\
   renders s2 = renderText (data hit) (currentTime env') :: renders s /\
   cache s2 = cache s /\ pending s2 = pending s /\ nextCtrl s2 = nextCtrl s).
Proof.
  intros Hvid Hne Hready Had Hnow Hget Hfresh s1 s2.
  destruct (stopAll_fields s)
    as (Hm1 & Hv1 & Ho1 & Hi1 & Hc1 & He1 & Hl1 & Hh1 & Hvi1 & Hr1 & Hp1 & Hn1 & _).
  change (stopAll s) with s1 in *.
  split; [repeat split; assumption|].
  subst s2. cbn [step onMessage]. unfold tryStartActive, wait. fields.
  rewrite Hready. cbn [negb].
  set (x := injectIfReady _).
  assert (Hx : mode x = ACTIVE /\ videoEl x = true /\ overlay x = Some "" /\
               videoId x = Some vid /\
               language x = orElse (settingsLanguage st) (language s) /\
               cache x = cache s /\ renders x = renders s /\
               pending x = pending s /\ nextCtrl x = nextCtrl s).
  { subst x. unfold setState. fields. rewrite Hm1. cbn [mode_eqb].
    unfold injectIfReady, ensureOverlay. fields. rewrite Ho1. fields.
    rewrite Hl1, Hc1, Hr1, Hp1, Hn1. repeat split; trivial. }
  destruct Hx as (Hmx & Hvx & Hox & Hvix & Hlx & Hcx & Hrx & Hpx & Hnx).
  set (y := set_lastTickAt 0 x).
  assert (Hacc : tickAccepted env' y = true)
    by (apply forced_tick_accepted; assumption).
  rewrite (tick_hit env' y vid hit Hacc); trivial.
  - unfold renderFromWindow, setCaptionText. subst y. fields.
    rewrite Hmx, Hvx, Hox, Hcx, Hrx, Hpx, Hnx. repeat split.
  - subst y. fields. rewrite Hlx, Hcx. exact Hget.
Qed.

Lemma stop_keeps_cache_for_resume_witness :
  let s := set_cache cacheVW (run (boot (envAt 0)) traceStarted) in
  let env' := mkEnv 9000 1000200 5 false true
                    "https://www.youtube.com/watch?v=v" (Some "v") in
  let s1 := step (envAt 8000) (Message STOP_TRANSLATION) s in
  let s2 := step env' (Message (START_TRANSLATION None)) s1 in
  (mode s1 = IDLE /\ videoEl s1 = false /\ overlay s1 = None /\
   inflight s1 = None /\ cache s1 = cache s /\ enabled s1 = enabled s /\
   language s1 = language s /\ hint s1 = hint s /\ videoId s1 = videoId s)
  /\
  (mode s2 = ACTIVE /\ videoEl s2 = true /\
   overlay s2 = Some (renderText (data (mkEntry 1000000 [lineA]))
                        (currentTime env')) /\
   renders s2 = renderText (data (mkEntry 1000000 [lineA])) (currentTime env')
                :: renders s /\
   cache s2 = cache s /\ pending s2 = pending s /\ nextCtrl s2 = nextCtrl s).
Proof.
  apply (stop_keeps_cache_for_resume (envAt 8000)
           (mkEnv 9000 1000200 5 false true
                  "https://www.youtube.com/watch?v=v" (Some "v"))
           (set_cache cacheVW (run (boot (envAt 0)) traceStarted))
           None "v" (mkEntry 1000000 [lineA])).
  - reflexivity.
  - discriminate.
  - reflexivity.
  - reflexivity.
  - vm_compute. discriminate.
  - vm_compute. reflexivity.
  - vm_compute. discriminate.
Defined.

(** * The age order of the cache in the running script *)

Lemma cacheGet_miss_absent k now (c c' : Cache) :
  cacheGet k now c = (None, c') -> JsMap.get k c' = None.
Proof.
  unfold cacheGet. destruct (JsMap.get k c) as [hit|] eqn:E.
  - destruct (_ <? _); [|discriminate]. intros [= <-].
    apply JsMap_get_delete_same.
  - now intros [= <-].
Qed.

Lemma JsMap_get_In {V : Type} (k : string) (v : V) (m : JsMap.t V) :
  JsMap.get k m = Some v -> In (k, v) m.
Proof.
  induction m as [|[k0 v0] rest IH]; simpl; [discriminate|].
  destruct (String.eqb_spec k0 k) as [->|_].
  - intros [= ->]. now left.
  - intros H. right. now apply IH.
Qed.

Section Grows.
Variable s : State.

Lemma tick_grows env x :
  pending x = pending s -> grows s (onTimeTick env x).
Proof.
  intros Hp. unfold grows, onTimeTick.
  destruct (_ || _); [now left|]. destruct (Qltb _ _); [now left|]. fields.
  destruct (videoId x) as [vid|]; [|now left].
  destruct (String.eqb vid ""); [now left|].
  destruct (adShowing env); [now left|].
  destruct (cacheGet _ _ _) as [[cached|] cache'] eqn:E; [now left|].
  right. eexists. unfold startRequest. fields. split.
  - f_equal. unfold abortInflight. fields. now destruct (inflight x).
  - cbn [rkey]. unfold abortInflight. fields.
    apply cacheGet_miss_absent in E. now destruct (inflight x).
Qed.

Lemma wait_grows env n x : pending x = pending s -> grows s (wait env n x).
Proof.
  intros Hp. unfold wait. destruct (playerReady env).
  - apply tick_grows. unfold injectIfReady, ensureOverlay.
    split_cases; exact Hp.
  - left. unfold setState. split_cases; exact Hp.
Qed.

Lemma tryStartActive_grows env x :
  pending x = pending s -> grows s (tryStartActive env x).
Proof.
  intros Hp. unfold tryStartActive. destruct (enabled x); cbn [negb];
    [|now left].
  apply wait_grows. unfold setState. split_cases; exact Hp.
Qed.

Lemma pending_stopAll x : pending (stopAll x) = pending x.
Proof. now destruct (stopAll_fields x) as (_&_&_&_&_&_&_&_&_&_&H&_). Qed.

Lemma pending_resetForNavigation env x :
  pending (resetForNavigation env x) = pending x.
Proof.
  unfold resetForNavigation. fields.
  destruct (videoId (stopAll x)) as [v|]; [destruct (String.eqb v "")|];
    fields; apply pending_stopAll.
Qed.

Lemma step_grows env e :
  (forall c o, e <> Settle c o) -> grows s (step env e s).
Proof.
  intros Hns. destruct e as [| | | | |msg| |c o|k]; cbn [step].
  1, 2: now apply tick_grows.
  - now apply tick_grows.
  - now left.
  - now left.
  - destruct msg as [st|st| |]; cbn [onMessage].
    + destruct (_ && _); [now apply tryStartActive_grows|].
      destruct (_ && _);
        [left; rewrite pending_stopAll; reflexivity | now left].
    + now apply tryStartActive_grows.
    + left. apply pending_stopAll.
    + now left.
  - unfold onUrlMaybeChanged. destruct (String.eqb _ _); [now left|].
    destruct (negb _); [|now left].
    destruct (_ && _).
    + apply tryStartActive_grows. now rewrite pending_resetForNavigation.
    + left. now rewrite pending_resetForNavigation.
  - exfalso. exact (Hns c o eq_refl).
  - unfold onTimer. destruct (nth_error (timers s) k) as [[|n]|]; [| |now left].
    + left. unfold setState. split_cases; reflexivity.
    + now apply wait_grows.
Qed.
End Grows.

Lemma cache_step_quiet (P : Cache -> Prop) env e s :
  (forall k c, P c -> P (JsMap.delete k c)) ->
  (forall c o, e <> Settle c o) ->
  P (cache s) -> P (cache (step env e s)).
Proof.
  intros Pd Hns H. destruct e as [| | | | |msg| |c o|k]; cbn [step].
  1, 2: now apply cache_tick.
  - now apply cache_tick.
  - assumption.
  - assumption.
  - now apply cache_onMessage.
  - now apply cache_onUrlMaybeChanged.
  - exfalso. exact (Hns c o eq_refl).
  - now apply cache_onTimer.
Qed.

(** What the settlement of a backend call does to the cache and the
    suspended chains. *)
Lemma settle_cases env c o s :
  let s' := settle env c o s in
  (cache s' = cache s /\
   (forall r', In r' (pending s') ->
               exists r0, In r0 (pending s) /\ rctrl r0 = rctrl r' /\
                          rkey r0 = rkey r'))
  \/
  (exists r tr,
     In r (pending s) /\ rctrl r = c /\ isAborted c s = false /\
     cache s' = cacheSet (rkey r) (dateNow env) tr (cache s) /\
     pending s' = dropRequest c (pending s)).
Proof.
  intros s'. subst s'. unfold settle.
  destruct (findRequest c (pending s)) as [r|] eqn:F.
  2: { left. split; [reflexivity|]. intros r' H. now exists r'. }
  destruct (findRequest_some _ _ _ F) as [Hin Hc].
  assert (Hdrop : forall r', In r' (dropRequest c (pending s)) ->
            exists r0, In r0 (pending s) /\ rctrl r0 = rctrl r' /\
                       rkey r0 = rkey r').
  { intros r' H. apply filter_In in H. exists r'. tauto. }
  unfold delivered, continueChain. rewrite Hc.
  destruct (isAborted c s) eqn:Hab.
  { left. destruct (rstage r); fields; (split; [reflexivity | exact Hdrop]). }
  destruct o as [lines| |].
  - destruct (rstage r).
    + left. fields. split; [reflexivity|].
      intros r' H. unfold advanceRequest in H. apply in_map_iff in H.
      destruct H as (r0 & Hr0 & Hin0). exists r0. split; [assumption|].
      subst r'. now destruct (Nat.eqb (rctrl r0) c).
    + right. exists r, lines.
      unfold renderFromWindow, setCaptionText. fields. auto.
  - left. destruct (rstage r); fields; (split; [reflexivity | exact Hdrop]).
  - left. unfold hydrationFailed, setCaptionText, setState.
    destruct (rstage r); split_cases; fields;
      (split; [reflexivity | exact Hdrop]).
Qed.

Lemma stampedBy_cacheSet now k d (c : Cache) :
  stampedBy now c -> stampedBy now (cacheSet k now d c).
Proof.
  intros H. unfold cacheSet.
  assert (Hset : stampedBy now (JsMap.set k (mkEntry now d) c)).
  { unfold stampedBy in *. induction c as [|[k0 e0] rest IH]; simpl.
    - repeat constructor. simpl. lia.
    - inversion H; subst. destruct (String.eqb k0 k).
      + constructor; [simpl; lia | assumption].
      + constructor; [assumption | now apply IH]. }
  destruct (_ <? _)%nat; [|assumption].
  apply (dropFirstKey_delete (stampedBy now)); [apply stampedBy_delete|assumption].
Qed.

Lemma oldestFirst_cacheSet_absent clock now k d (c : Cache) :
  oldestFirst c -> stampedBy clock c -> clock <= now ->
  JsMap.get k c = None -> oldestFirst (cacheSet k now d c).
Proof.
  intros Ho Hs Hle Habs. unfold cacheSet. rewrite (JsMap_set_absent _ _ _ Habs).
  assert (oldestFirst (c ++ [(k, mkEntry now d)]))
    by now apply (oldestFirst_snoc clock).
  destruct (_ <? _)%nat; [|assumption].
  apply (dropFirstKey_delete oldestFirst); [apply oldestFirst_delete|assumption].
Qed.

Lemma CacheAged_quiet clock env e s :
  CacheAged clock s -> clock <= dateNow env ->
  (forall c o, e <> Settle c o) ->
  CacheAged (dateNow env) (step env e s).
Proof.
  intros [Hinv Hnd Hord Hst Hlive] Hle Hns.
  assert (Hold : forall r0, In r0 (pending s) ->
            isAborted (rctrl r0) (step env e s) = false ->
            JsMap.get (rkey r0) (cache (step env e s)) = None).
  { intros r0 H0 Hl0.
    apply (cache_step_quiet (fun c => JsMap.get (rkey r0) c = None));
      [intros k0 c0; apply JsMap_get_delete_none | assumption |].
    apply Hlive; trivial.
    destruct (isAborted (rctrl r0) s) eqn:E; trivial.
    apply (aborted_step env e s) in E. congruence. }
  split.
  - exact (Inv_effect _ _ Hinv (step_effect env e s)).
  - apply (cache_step_quiet (fun c => NoDup (JsMap.keys c)));
      [intros; now apply JsMap_nodup_delete | assumption | assumption].
  - apply (cache_step_quiet oldestFirst);
      [apply oldestFirst_delete | assumption | assumption].
  - apply (cache_step_quiet (stampedBy (dateNow env)));
      [apply stampedBy_delete | assumption | now apply (stampedBy_mono clock)].
  - intros r' Hin' Hlive'.
    destruct (step_grows s env e Hns) as [Hp|(r & Hp & Hk)]; rewrite Hp in Hin'.
    + now apply Hold.
    + apply in_app_or in Hin'. destruct Hin' as [Hin'|[<-|[]]];
        [now apply Hold | exact Hk].
Qed.

Lemma CacheAged_step clock env e s :
  CacheAged clock s -> clock <= dateNow env ->
  CacheAged (dateNow env) (step env e s).
Proof.
  intros Haged Hle.
  assert (Hq : (forall c o, e <> Settle c o) ->
               CacheAged (dateNow env) (step env e s))
    by now apply (CacheAged_quiet clock).
  destruct e as [| | | | |msg| |c o|k]; try (apply Hq; discriminate).
  clear Hq. destruct Haged as [Hinv Hnd Hord Hst Hlive].
  assert (Hinv' : Inv (step env (Settle c o) s))
    by exact (Inv_effect _ _ Hinv (step_effect env (Settle c o) s)).
  assert (Hnd' : NoDup (JsMap.keys (cache (step env (Settle c o) s)))).
  { apply (cache_step (fun c => NoDup (JsMap.keys c)));
      [apply nodup_closed | apply nodup_closed | assumption]. }
  assert (Hst0 : stampedBy (dateNow env) (cache s))
    by now apply (stampedBy_mono clock).
  cbn [step] in *.
  destruct (settle_cases env c o s) as [[Hc Hp]|(r & tr & Hin & Hrc & Hab & Hc & Hp)].
  - split; trivial; try (rewrite Hc; assumption).
    intros r' Hin' Hlive'. rewrite Hc.
    destruct (Hp r' Hin') as (r0 & H0 & Hc0 & Hk0). rewrite <- Hk0.
    apply Hlive; trivial.
    destruct (isAborted (rctrl r0) s) eqn:E; trivial.
    apply (aborted_step env (Settle c o) s) in E. cbn [step] in E.
    rewrite Hc0 in E. rewrite E in Hlive'. discriminate.
  - assert (Habs : JsMap.get (rkey r) (cache s) = None).
    { apply Hlive; [assumption | now rewrite Hrc]. }
    split; trivial.
    + rewrite Hc. now apply (oldestFirst_cacheSet_absent clock).
    + rewrite Hc. now apply stampedBy_cacheSet.
    + intros r' Hin' Hlive'. exfalso. rewrite Hp in Hin'.
      apply filter_In in Hin'. destruct Hin' as [Hin' Hne].
      apply negb_true_iff, Nat.eqb_neq in Hne. apply Hne.
      assert (Hl' : isAborted (rctrl r') s = false).
      { destruct (isAborted (rctrl r') s) eqn:E; trivial.
        apply (aborted_step env (Settle c o) s) in E. cbn [step] in E.
        rewrite E in Hlive'. discriminate. }
      destruct (ok_live_current _ _ Hinv c) as [kd Hkd];
        [rewrite <- Hrc; now apply (in_map rctrl) | exact Hab |].
      symmetry.
      exact (live_is_inflight _ _ Hinv (rctrl r') _
               (in_map rctrl _ _ Hin') Hl' Hkd).
Qed.

Lemma CacheAged_boot env clock : CacheAged clock (boot env).
Proof.
  split.
  - apply Inv_boot.
  - constructor.
  - constructor.
  - constructor.
  - intros r [].
Qed.

Lemma CacheAged_run trace : forall s clock env e,
  CacheAged clock s -> clocksAscend clock (trace ++ [(env, e)]) ->
  exists clock', CacheAged clock' (run s trace) /\ clock' <= dateNow env.
Proof.
  induction trace as [|[env1 e1] rest IH]; intros s clock env e Hs Hasc.
  - simpl in *. exists clock. tauto.
  - simpl in Hasc. destruct Hasc as [Hle Hasc]. simpl.
    apply (IH _ (dateNow env1) env e); [|assumption].
    now apply (CacheAged_step clock).
Qed.

(** X13.  In the running script the cache is in order of age.  When
    [Date.now()] never goes back, in every execution the entries are in
    the Map in the order of their timestamps, a request in flight never
    has its key in the cache (so its result overwrites nothing), and an
    entry that the arrival of a result removes from the cache is the
    oldest one. *)
Theorem running_cache_evicts_oldest
        (env0 : Env) (trace : list (Env * Event)) (env : Env) (c : nat)
        (o : Outcome) :
  clocksAscend (dateNow env0) (trace ++ [(env, Settle c o)]) ->
  let s := run (boot env0) trace in
  let s' := step env (Settle c o) s in
  oldestFirst (cache s) /\
  (forall r, In r (pending s) -> isAborted (rctrl r) s = false ->
             JsMap.get (rkey r) (cache s) = None) /\
  (forall k e,
     JsMap.get k (cache s) = Some e -> JsMap.get k (cache s') = None ->
     forall k' e', JsMap.get k' (cache s) = Some e' -> ts e <= ts e').
Proof.
  intros Hasc s s'.
  destruct (CacheAged_run trace (boot env0) (dateNow env0) env (Settle c o)
              (CacheAged_boot env0 _) Hasc) as (clock & Haged & Hle).
  fold s in Haged. destruct Haged as [Hinv Hnd Hord Hst Hlive].
  split; [exact Hord | split; [exact Hlive|]].
  intros k e Hk Hgone k' e' Hk'. subst s'. cbn [step] in Hgone.
  destruct (settle_cases env c o s) as [[Hc _]|(r & tr & Hin & Hrc & Hab & Hc & _)];
    rewrite Hc in Hgone; [congruence|].
  assert (Habs : JsMap.get (rkey r) (cache s) = None).
  { apply Hlive; [assumption | now rewrite Hrc]. }
  assert (Hne : k <> rkey r) by congruence.
  destruct (cache s) as [|[k0 e0] rest] eqn:Ecache; [discriminate|].
  destruct (String.eqb_spec k0 k) as [->|Hk0].
  - simpl in Hk. rewrite String.eqb_refl in Hk. injection Hk as <-.
    apply JsMap_get_In in Hk'. destruct Hk' as [[= <- <-]|Hin'].
    + lia.
    + unfold oldestFirst in Hord. apply StronglySorted_inv in Hord.
      destruct Hord as [_ Hall]. rewrite Forall_forall in Hall.
      exact (Hall _ Hin').
  - rewrite get_cacheSet_other in Hgone; [congruence | assumption |].
    intros e1 rest1 [= -> _ _]. contradiction.
Qed.

Lemma clocksAscendb_ok clock trace :
  clocksAscendb clock trace = true -> clocksAscend clock trace.
Proof.
  revert clock. induction trace as [|[env e] rest IH]; intros clock; [easy|].
  cbn [clocksAscendb clocksAscend]. intros H.
  apply andb_prop in H as [H1 H2]. split; [now apply Z.leb_le | now apply IH].
Qed.

(** An execution that fills the cache: the cache is full, with the 500 windows of
    the seconds 0 to 499 in order of age; the request of second 500 is in
    flight and its key is not in the cache; its translation, when it
    arrives, pushes out the window of second 0, the oldest. *)
Lemma running_cache_evicts_oldest_witness :
  let s := run (boot (envSecond 0)) traceFull in
  let s' := step (envSecond 500) (Settle 500 (Resolved [lineA])) s in
  (JsMap.size (cache s) = 500%nat /\
   inflight s = Some (mkInflight 500 translate) /\
   JsMap.get "v|fr|0" (cache s) = Some (mkEntry 1000000 [lineA]) /\
   JsMap.get "v|fr|499" (cache s) = Some (mkEntry 1000499 [lineA]) /\
   JsMap.get "v|fr|0" (cache s') = None /\
   JsMap.get "v|fr|500" (cache s') = Some (mkEntry 1000500 [lineA]) /\
   JsMap.size (cache s') = 500%nat) /\
  oldestFirst (cache s) /\
  (forall r, In r (pending s) -> isAborted (rctrl r) s = false ->
             JsMap.get (rkey r) (cache s) = None) /\
  (forall k e,
     JsMap.get k (cache s) = Some e ->
     JsMap.get k (cache (step (envSecond 500) (Settle 500 (Resolved [lineA])) s))
     = None ->
     forall k' e', JsMap.get k' (cache s) = Some e' -> ts e <= ts e').
Proof.
  split; [vm_compute; repeat split|].
  apply (running_cache_evicts_oldest (envSecond 0) traceFull (envSecond 500)
           500%nat (Resolved [lineA])).
  apply clocksAscendb_ok. vm_compute. reflexivity.
Defined.

(** * The video id of a URL *)

Lemma splitSlash_not_nil s : splitSlash s <> [].
Proof.
  destruct s as [|ch rest]; simpl; [discriminate|].
  destruct (Ascii.eqb ch "/"); [discriminate|].
  destruct (splitSlash rest); discriminate.
Qed.

Lemma splitSlash_noSlash a : noSlash a = true -> splitSlash a = [a].
Proof.
  induction a as [|ch rest IH]; [reflexivity|].
  cbn [noSlash splitSlash]. intros H. apply andb_prop in H as [Hc Hr].
  apply negb_true_iff in Hc. rewrite Hc, (IH Hr). reflexivity.
Qed.

Lemma splitSlash_app a b :
  noSlash a = true ->
  splitSlash (a ++ String "/" b)%string = a :: splitSlash b.
Proof.
  induction a as [|ch rest IH]; intros H.
  - reflexivity.
  - cbn [noSlash] in H. apply andb_prop in H as [Hc Hr].
    apply negb_true_iff in Hc.
    cbn [append splitSlash]. rewrite Hc, (IH Hr). reflexivity.
Qed.

Lemma splitSlash_segments s seg : In seg (splitSlash s) -> noSlash seg = true.
Proof.
  revert seg. induction s as [|ch rest IH]; intros seg.
  - simpl. intros [<-|[]]. reflexivity.
  - cbn [splitSlash]. destruct (Ascii.eqb ch "/") eqn:Hc.
    + intros [<-|H]; [reflexivity | now apply IH].
    + destruct (splitSlash rest) as [|seg0 segs] eqn:E.
      * now destruct (splitSlash_not_nil rest).
      * intros [<-|H].
        -- cbn [noSlash]. rewrite Hc. apply IH. now left.
        -- apply IH. now right.
Qed.

Lemma splitSlash_shorts tail :
  splitSlash ("/shorts/" ++ tail)%string
  = "" :: "shorts" :: splitSlash tail.
Proof.
  change ("/shorts/" ++ tail)%string
    with (String "/" ("shorts" ++ String "/" tail))%string.
  cbn [splitSlash]. change (Ascii.eqb "/" "/") with true. cbv iota.
  now rewrite splitSlash_app.
Qed.

Lemma shorts_not_watch tail :
  String.prefix "/watch" ("/shorts/" ++ tail)%string = false.
Proof. reflexivity. Qed.

Lemma shorts_prefix tail :
  String.prefix "/shorts/" ("/shorts/" ++ tail)%string = true.
Proof. simpl. now destruct tail. Qed.

(** X14.  [getVideoIdFromUrl] on a shorts URL returns the path segment
    after [/shorts/]: for a non-empty id without a slash, the paths
    [/shorts/id] and [/shorts/id/rest] both give [id], whatever the query
    parameter [v] is.  The path [/shorts/] alone, and [/shorts//rest], give
    no id.  On a path that does not begin with [/watch] the function never
    returns the empty string, nor an id with a slash in it. *)
Theorem getVideoIdFromUrl_shorts (id rest : string) (v : option string)
        (u : ParsedUrl) :
  noSlash id = true -> id <> "" ->
  String.prefix "/watch" (pathname u) = false ->
  getVideoIdFromUrl (Some (mkUrl ("/shorts/" ++ id) v)) = Some id /\
  getVideoIdFromUrl (Some (mkUrl ("/shorts/" ++ id ++ "/" ++ rest) v))
  = Some id /\
  getVideoIdFromUrl (Some (mkUrl "/shorts/" v)) = None /\
  getVideoIdFromUrl (Some (mkUrl ("/shorts//" ++ rest) v)) = None /\
  forall x, getVideoIdFromUrl (Some u) = Some x ->
            x <> "" /\ noSlash x = true.
Proof.
  intros Hid Hne Hu.
  assert (Heq : String.eqb id "" = false) by now apply String.eqb_neq.
  split; [|split; [|split; [|split; [|intros x H; split]]]].
  - unfold getVideoIdFromUrl. cbn [pathname].
    rewrite shorts_not_watch, shorts_prefix, splitSlash_shorts.
    rewrite (splitSlash_noSlash id Hid). cbn [nth_error]. now rewrite Heq.
  - unfold getVideoIdFromUrl. cbn [pathname].
    rewrite shorts_not_watch, shorts_prefix, splitSlash_shorts.
    change (id ++ "/" ++ rest)%string with (id ++ String "/" rest)%string.
    rewrite (splitSlash_app id rest Hid). cbn [nth_error]. now rewrite Heq.
  - reflexivity.
  - change ("/shorts//" ++ rest)%string
      with ("/shorts/" ++ String "/" rest)%string.
    unfold getVideoIdFromUrl. cbn [pathname].
    rewrite shorts_not_watch, shorts_prefix, splitSlash_shorts.
    reflexivity.
  - unfold getVideoIdFromUrl in H. rewrite Hu in H.
    destruct (String.prefix "/shorts/" (pathname u)); [|discriminate].
    destruct (nth_error _ 2) as [seg|]; [|discriminate].
    destruct (String.eqb seg "") eqn:E; [discriminate|].
    injection H as <-. now apply String.eqb_neq.
  - unfold getVideoIdFromUrl in H. rewrite Hu in H.
    destruct (String.prefix "/shorts/" (pathname u)); [|discriminate].
    destruct (nth_error _ 2) as [seg|] eqn:En; [|discriminate].
    destruct (String.eqb seg ""); [discriminate|].
    injection H as <-. apply nth_error_In in En.
    exact (splitSlash_segments _ _ En).
Qed.

Lemma getVideoIdFromUrl_shorts_witness :
  getVideoIdFromUrl (Some (mkUrl "/shorts/abc123" (Some "other")))
  = Some "abc123" /\
  getVideoIdFromUrl (Some (mkUrl "/shorts/abc123/extra" (Some "other")))
  = Some "abc123" /\
  getVideoIdFromUrl (Some (mkUrl "/shorts/" (Some "other"))) = None /\
  getVideoIdFromUrl (Some (mkUrl "/shorts//extra" (Some "other"))) = None /\
  forall x, getVideoIdFromUrl (Some (mkUrl "/shorts/xyz" None)) = Some x ->
            x <> "" /\ noSlash x = true.
Proof.
  apply (getVideoIdFromUrl_shorts "abc123" "extra" (Some "other")
           (mkUrl "/shorts/xyz" None)).
  - vm_compute. reflexivity.
  - discriminate.
  - vm_compute. reflexivity.
Defined.

(** On a path that begins with [/watch] the result is the query parameter
    [v] as it is, missing or empty included; other paths give no id. *)
Lemma getVideoIdFromUrl_watch (suffix : string) (v : option string)
        (u : ParsedUrl) :
  String.prefix "/watch" (pathname u) = false ->
  String.prefix "/shorts/" (pathname u) = false ->
  getVideoIdFromUrl (Some (mkUrl ("/watch" ++ suffix) v)) = v /\
  getVideoIdFromUrl (Some u) = None /\
  getVideoIdFromUrl None = None.
Proof.
  intros Hw Hs. split; [|split; [|reflexivity]].
  - unfold getVideoIdFromUrl. cbn [pathname]. simpl String.prefix.
    now destruct suffix.
  - unfold getVideoIdFromUrl. now rewrite Hw, Hs.
Qed.

(** * Pages without a video id *)

Lemma Untouched_tick env s : Untouched s -> Untouched (onTimeTick env s).
Proof.
  intros [Hv Hp Hi Hn Ha Hc]. unfold onTimeTick.
  destruct (negb (videoEl s) || negb (mode_eqb (mode s) ACTIVE));
    [now constructor|].
  destruct (Qltb _ _); [now constructor|]. fields.
  destruct Hv as [Hv|Hv]; rewrite Hv; [|cbn [String.eqb]];
    constructor; fields; trivial; rewrite Hv; [now left | now right].
Qed.

Lemma Untouched_wait env n s : Untouched s -> Untouched (wait env n s).
Proof.
  intros H. unfold wait. destruct (playerReady env).
  - apply Untouched_tick. destruct H.
    untouched.
  - destruct H. destruct (_ <? _)%nat; untouched.
Qed.

Lemma Untouched_tryStartActive env s :
  Untouched s -> Untouched (tryStartActive env s).
Proof.
  intros H. unfold tryStartActive. destruct (negb (enabled s)); [exact H|].
  apply Untouched_wait. destruct H. untouched.
Qed.

Lemma Untouched_stopAll s : Untouched s -> Untouched (stopAll s).
Proof.
  intros [Hv Hp Hi Hn Ha Hc].
  unfold stopAll, abortInflight, setState.
  destruct (mode_eqb _ _); fields; rewrite Hi; untouched.
Qed.

Lemma Untouched_resetForNavigation env s :
  noVideoId (hrefVideoId env) -> Untouched s ->
  Untouched (resetForNavigation env s).
Proof.
  intros He H. apply Untouched_stopAll in H. unfold resetForNavigation.
  destruct H as [Hv Hp Hi Hn Ha Hc].
  destruct Hv as [Hv|Hv]; rewrite Hv; [|cbn [String.eqb]];
    constructor; fields; trivial.
Qed.

Lemma Untouched_step env e s :
  noVideoId (hrefVideoId env) -> Untouched s -> Untouched (step env e s).
Proof.
  intros He H. destruct e; cbn [step].
  - now apply Untouched_tick.
  - now apply Untouched_tick.
  - apply Untouched_tick. destruct H. untouched.
  - destruct H. untouched.
  - destruct H. untouched.
  - destruct msg as [st|st| |]; unfold onMessage; fields.
    + assert (H' : Untouched
                (set_hint (orElse (settingsHint st) (hint s))
                   (set_language (orElse (settingsLanguage st) (language s))
                      (set_enabled (settingsEnabled st) s))))
        by (destruct H; untouched).
      destruct (_ && _); [now apply Untouched_tryStartActive|].
      destruct (_ && _); [now apply Untouched_stopAll | exact H'].
    + apply Untouched_tryStartActive. destruct H. untouched.
    + now apply Untouched_stopAll.
    + exact H.
  - unfold onUrlMaybeChanged. destruct (String.eqb _ _); [exact H|].
    assert (H' : Untouched (set_lastUrl (href env) s))
      by (destruct H; untouched).
    destruct (negb _); [|exact H'].
    cbv zeta. destruct (_ && _).
    + now apply Untouched_tryStartActive, Untouched_resetForNavigation.
    + now apply Untouched_resetForNavigation.
  - unfold settle. now rewrite (untouched_pending s H).
  - unfold onTimer. destruct (nth_error _ _) as [[|n]|]; [| |exact H].
    + destruct H. untouched.
    + apply Untouched_wait. destruct H. untouched.
Qed.

(** X15.  On pages without a video id the backend is never called: when
    [getVideoIdFromUrl] gives [null] or the empty string at boot and at
    every later event, then in every execution no request is ever started,
    nothing is in flight or aborted and the cache stays empty, although the
    mode may be ACTIVE with the overlay attached. *)
Theorem no_request_without_video_id (env0 : Env) (trace : list (Env * Event)) :
  Forall (fun env => noVideoId (hrefVideoId env)) (env0 :: map fst trace) ->
  let s := run (boot env0) trace in
  pending s = [] /\ nextCtrl s = 0%nat /\ inflight s = None /\
  aborted s = [] /\ cache s = [] /\ noVideoId (videoId s).
Proof.
  intros Hall s.
  assert (H : Untouched s).
  { subst s. inversion Hall as [|? ? H0 Hrest]; subst. clear Hall.
    assert (Hb : Untouched (boot env0)) by (constructor; trivial).
    revert Hb. generalize (boot env0) as s0.
    induction trace as [|[env e] rest IH]; intros s0 Hs0; [exact Hs0|].
    cbn [run]. inversion Hrest; subst.
    apply IH; [assumption|]. now apply Untouched_step. }
  destruct H. repeat split; assumption.
Qed.

Lemma no_request_without_video_id_witness :
  let page := Some (mkUrl "/watch" (Some "")) in
  let s := run (boot (envOn page 0 true))
               [(envOn page 1000 true, startMsg);
                (envOn page 2000 true, RateChange);
                (envOn (Some (mkUrl "/shorts/" None)) 3000 true, UrlCheck);
                (envOn None 4000 true, TimeUpdate)] in
  pending s = [] /\ nextCtrl s = 0%nat /\ inflight s = None /\
  aborted s = [] /\ cache s = [] /\ noVideoId (videoId s).
Proof.
  apply (no_request_without_video_id
           (envOn (Some (mkUrl "/watch" (Some ""))) 0 true)).
  cbn [map fst].
  repeat (apply Forall_cons; [vm_compute; auto|]). apply Forall_nil.
Defined.

(** * Listeners across stop and start *)

Lemma closuresBelow_absent n l ty m b :
  closuresBelow n l -> (n <= m)%nat ->
  existsb (sameListener ty (cbClosure m b)) l = false.
Proof.
  intros Hb Hm. induction l as [|[ty0 cb0] rest IH]; [reflexivity|].
  cbn [existsb]. rewrite IH.
  - rewrite orb_false_r. unfold sameListener. cbn [fst snd].
    destruct cb0 as [|i b0]; cbn [callback_eqb]; [apply andb_false_r|].
    assert (i < n)%nat by (apply (Hb ty0 i b0); now left).
    destruct (Nat.eqb_spec i m); [lia | apply andb_false_r].
  - intros ty1 i b1 Hin. apply (Hb ty1 i b1). now right.
Qed.

Lemma closuresBelow_keep n l ty m b :
  closuresBelow n l -> (n <= m)%nat ->
  filter (fun x => negb (sameListener ty (cbClosure m b) x)) l = l.
Proof.
  intros Hb Hm. induction l as [|[ty0 cb0] rest IH]; [reflexivity|].
  cbn [filter].
  assert (Hrest : closuresBelow n rest)
    by (intros ty1 i b1 Hin; apply (Hb ty1 i b1); now right).
  rewrite (IH Hrest).
  assert (Hx : sameListener ty (cbClosure m b) (ty0, cb0) = false).
  { pose proof (closuresBelow_absent n [(ty0, cb0)] ty m b) as H.
    cbn [existsb] in H. rewrite orb_false_r in H. apply H; [|exact Hm].
    intros ty1 i b1 [Heq|[]]. apply (Hb ty1 i b1). now left. }
  now rewrite Hx.
Qed.

Lemma closuresBelow_app n l l' :
  closuresBelow n l -> closuresBelow n l' -> closuresBelow n (l ++ l').
Proof.
  intros H H' ty i b Hin. apply in_app_or in Hin.
  destruct Hin; [now apply (H ty i b) | now apply (H' ty i b)].
Qed.

Lemma closuresBelow_le n m l :
  closuresBelow n l -> (n <= m)%nat -> closuresBelow m l.
Proof. intros H Hm ty i b Hin. specialize (H ty i b Hin). lia. Qed.

Lemma closuresBelow_filter n f l :
  closuresBelow n l -> closuresBelow n (filter f l).
Proof.
  intros H ty i b Hin. apply filter_In in Hin. now apply (H ty i b).
Qed.

Lemma closuresBelow_addOnce n ty l :
  closuresBelow n l -> closuresBelow n (addOnce ty l).
Proof.
  intros H. unfold addOnce. destruct (existsb _ _); [exact H|].
  apply closuresBelow_app; [exact H|]. intros ty1 i b [Heq|[]]. discriminate.
Qed.

Lemma closuresBelow_one n ty i b :
  (i < n)%nat -> closuresBelow n [(ty, cbClosure i b)].
Proof. intros Hi ty1 i1 b1 [Heq|[]]. injection Heq as _ <- _. exact Hi. Qed.

(** What the two functions do to the list of the element. *)
Lemma attach_listeners el :
  closuresMade el ->
  let n := nextClosure el in
  listeners (attachVideoListeners el)
  = addOnce seeked (addOnce timeupdate (listeners el))
      ++ [(ratechange, cbClosure n forceTick);
          (play, cbClosure (S n) blankCaption);
          (pause, cbClosure (S (S n)) blankCaption)] /\
  nextClosure (attachVideoListeners el) = S (S (S n)).
Proof.
  destruct el as [l n]. unfold closuresMade. cbn [listeners nextClosure].
  intros Hb.
  assert (H2 : closuresBelow n (addOnce seeked (addOnce timeupdate l)))
    by now apply closuresBelow_addOnce, closuresBelow_addOnce.
  set (l2 := addOnce seeked (addOnce timeupdate l)) in *.
  assert (E2 : addEventListener seeked cbOnTimeTick
                 (addEventListener timeupdate cbOnTimeTick (mkVideo l n))
               = mkVideo l2 n).
  { subst l2. unfold addEventListener, addOnce. cbn [listeners nextClosure].
    destruct (existsb (sameListener timeupdate cbOnTimeTick) l);
      cbn [listeners nextClosure];
      now destruct (existsb (sameListener seeked cbOnTimeTick) _). }
  unfold attachVideoListeners. rewrite E2.
  unfold newClosure, addEventListener. cbn [listeners nextClosure].
  rewrite (closuresBelow_absent n l2 ratechange n forceTick H2 (le_n n)).
  cbn [listeners nextClosure].
  assert (H3 : closuresBelow (S n) (l2 ++ [(ratechange, cbClosure n forceTick)])).
  { apply closuresBelow_app; [apply (closuresBelow_le n); [exact H2 | lia]|].
    apply closuresBelow_one. lia. }
  rewrite (closuresBelow_absent (S n) _ play (S n) blankCaption H3 (le_n _)).
  cbn [listeners nextClosure].
  assert (H4 : closuresBelow (S (S n))
                 ((l2 ++ [(ratechange, cbClosure n forceTick)])
                    ++ [(play, cbClosure (S n) blankCaption)])).
  { apply closuresBelow_app; [apply (closuresBelow_le (S n)); [exact H3 | lia]|].
    apply closuresBelow_one. lia. }
  rewrite (closuresBelow_absent (S (S n)) _ pause (S (S n)) blankCaption H4
             (le_n _)).
  cbn [listeners nextClosure]. now rewrite <- !app_assoc.
Qed.

Lemma detach_listeners el :
  closuresMade el ->
  listeners (detachVideoListeners el)
  = filter (fun x => negb (sameListener seeked cbOnTimeTick x))
      (filter (fun x => negb (sameListener timeupdate cbOnTimeTick x))
         (listeners el)) /\
  nextClosure (detachVideoListeners el) = S (S (S (nextClosure el))).
Proof.
  destruct el as [l n]. unfold closuresMade. cbn [listeners nextClosure].
  intros Hb.
  unfold detachVideoListeners, newClosure, removeEventListener.
  cbn [listeners nextClosure].
  set (l2 := filter _ (filter _ l)).
  assert (H2 : closuresBelow n l2)
    by now apply closuresBelow_filter, closuresBelow_filter.
  rewrite (closuresBelow_keep n l2 ratechange n doNothing H2 (le_n n)).
  rewrite (closuresBelow_keep n l2 play (S n) doNothing H2) by lia.
  rewrite (closuresBelow_keep n l2 pause (S (S n)) doNothing H2) by lia.
  now split.
Qed.

Lemma closuresMade_attach el :
  closuresMade el -> closuresMade (attachVideoListeners el).
Proof.
  intros H. destruct (attach_listeners el H) as [Hl Hn].
  unfold closuresMade. rewrite Hl, Hn.
  apply closuresBelow_app.
  - apply (closuresBelow_le (nextClosure el)); [|lia].
    now apply closuresBelow_addOnce, closuresBelow_addOnce.
  - intros ty i b [Heq|[Heq|[Heq|[]]]]; injection Heq as _ <- _; lia.
Qed.

Lemma closuresMade_detach el :
  closuresMade el -> closuresMade (detachVideoListeners el).
Proof.
  intros H. destruct (detach_listeners el H) as [Hl Hn].
  unfold closuresMade. rewrite Hl, Hn.
  apply (closuresBelow_le (nextClosure el)); [|lia].
  now apply closuresBelow_filter, closuresBelow_filter.
Qed.

Lemma closuresMade_cycles n el :
  closuresMade el -> closuresMade (cycles n el).
Proof.
  intros H. induction n as [|n IH]; [exact H|].
  cbn [cycles]. now apply closuresMade_detach, closuresMade_attach.
Qed.

Lemma handlersIn_app ty l l' :
  handlersIn ty (l ++ l') = handlersIn ty l ++ handlersIn ty l'.
Proof. unfold handlersIn. now rewrite filter_app, map_app. Qed.

Lemma handlersIn_addOnce ty ty' l :
  eventType_eqb ty' ty = false ->
  handlersIn ty (addOnce ty' l) = handlersIn ty l.
Proof.
  intros Hne. unfold addOnce. destruct (existsb _ _); [reflexivity|].
  rewrite handlersIn_app. unfold handlersIn at 2. cbn [filter fst].
  rewrite Hne. apply app_nil_r.
Qed.

Lemma handlersIn_remove ty ty' cb l :
  eventType_eqb ty' ty = false ->
  handlersIn ty (filter (fun x => negb (sameListener ty' cb x)) l)
  = handlersIn ty l.
Proof.
  intros Hne. unfold handlersIn. induction l as [|[ty0 cb0] rest IH];
    [reflexivity|].
  cbn [filter]. unfold sameListener at 1. cbn [fst snd].
  destruct (eventType_eqb ty0 ty') eqn:E0.
  - assert (E : eventType_eqb ty0 ty = false)
      by (destruct ty0, ty', ty; try discriminate; reflexivity).
    rewrite E. destruct (negb _); [cbn [filter fst]; rewrite E|]; exact IH.
  - cbn [andb negb filter fst].
    destruct (eventType_eqb ty0 ty); [cbn [map]; now rewrite IH | exact IH].
Qed.

Lemma handlersIn_added ty l :
  In cbOnTimeTick (handlersIn ty (addOnce ty l)).
Proof.
  unfold addOnce. destruct (existsb _ l) eqn:E.
  - apply existsb_exists in E. destruct E as [[ty0 cb0] [Hin Hs]].
    unfold sameListener in Hs. cbn [fst snd] in Hs.
    apply andb_prop in Hs as [Ht Hc].
    destruct cb0; [|discriminate].
    unfold handlersIn. apply in_map_iff. exists (ty0, cbOnTimeTick).
    split; [reflexivity|]. apply filter_In. now split.
  - rewrite handlersIn_app. apply in_or_app. right.
    unfold handlersIn. cbn [filter fst].
    assert (Hr : eventType_eqb ty ty = true) by now destruct ty.
    rewrite Hr. now left.
Qed.

Lemma handlersIn_removed ty l :
  ~ In cbOnTimeTick
      (handlersIn ty (filter (fun x => negb (sameListener ty cbOnTimeTick x)) l)).
Proof.
  unfold handlersIn. intros Hin. apply in_map_iff in Hin.
  destruct Hin as [[ty0 cb0] [Heq Hin]]. cbn [snd] in Heq. subst cb0.
  apply filter_In in Hin. destruct Hin as [Hin Ht]. cbn [fst] in Ht.
  apply filter_In in Hin. destruct Hin as [_ Hs].
  unfold sameListener in Hs. cbn [fst snd callback_eqb] in Hs.
  rewrite Ht in Hs. discriminate.
Qed.

Lemma gained_refl ty b el : gained ty b 0 el el.
Proof.
  exists []. rewrite app_nil_r. repeat split. constructor.
Qed.

Lemma gained_trans ty b k k' el el' el'' :
  gained ty b k el el' -> gained ty b k' el' el'' ->
  gained ty b (k + k') el el''.
Proof.
  intros (a & Ha & Hk & Hc) (a' & Ha' & Hk' & Hc').
  exists (a ++ a'). rewrite Ha', Ha, <- app_assoc, length_app.
  repeat split; [lia|]. now apply Forall_app.
Qed.

Lemma gained_same ty b el el' :
  handlersFor ty el' = handlersFor ty el -> gained ty b 0 el el'.
Proof.
  intros H. exists []. rewrite app_nil_r. repeat split; [exact H|constructor].
Qed.

Lemma attach_gains el :
  closuresMade el ->
  let el' := attachVideoListeners el in
  gained ratechange forceTick 1 el el' /\
  gained play blankCaption 1 el el' /\
  gained pause blankCaption 1 el el'.
Proof.
  intros H el'. destruct (attach_listeners el H) as [Hl _]. subst el'.
  unfold gained, handlersFor. rewrite Hl.
  split; [|split].
  - exists [cbClosure (nextClosure el) forceTick].
    rewrite handlersIn_app, !handlersIn_addOnce by reflexivity.
    repeat split. constructor; [now eexists | constructor].
  - exists [cbClosure (S (nextClosure el)) blankCaption].
    rewrite handlersIn_app, !handlersIn_addOnce by reflexivity.
    repeat split. constructor; [now eexists | constructor].
  - exists [cbClosure (S (S (nextClosure el))) blankCaption].
    rewrite handlersIn_app, !handlersIn_addOnce by reflexivity.
    repeat split. constructor; [now eexists | constructor].
Qed.

Lemma detach_keeps el ty :
  closuresMade el -> eventType_eqb timeupdate ty = false ->
  eventType_eqb seeked ty = false ->
  handlersFor ty (detachVideoListeners el) = handlersFor ty el.
Proof.
  intros H Ht Hs. destruct (detach_listeners el H) as [Hl _].
  unfold handlersFor. rewrite Hl. now rewrite !handlersIn_remove.
Qed.

Lemma cycles_gain el n ty b :
  closuresMade el ->
  (forall x, closuresMade x -> gained ty b 1 x (attachVideoListeners x)) ->
  eventType_eqb timeupdate ty = false -> eventType_eqb seeked ty = false ->
  gained ty b (S n) el (attachVideoListeners (cycles n el)).
Proof.
  intros H Hatt Ht Hs. induction n as [|n IH].
  - exact (Hatt el H).
  - cbn [cycles]. replace (S (S n)) with (S n + (0 + 1))%nat by lia.
    apply (gained_trans _ _ _ _ _ _ _ IH).
    pose proof (closuresMade_attach _ (closuresMade_cycles n el H)) as H1.
    apply (gained_trans _ _ _ _ _ (detachVideoListeners
                                     (attachVideoListeners (cycles n el)))).
    + apply gained_same. now apply detach_keeps.
    + apply Hatt. now apply closuresMade_detach.
Qed.

(** X16.  Stopping removes the [onTimeTick] listeners only: the
    'ratechange', 'play' and 'pause' closures stay on the element, because
    [detachVideoListeners] passes new functions to [removeEventListener].
    On an element that went through [n] rounds of attach and detach and is
    attached again, each of the three events has [n + 1] more closures of
    [attachVideoListeners] than at the beginning, while [onTimeTick] is
    registered for 'timeupdate' and 'seeked', and is gone from both after
    the next detach. *)
Theorem listener_closures_accumulate (el : VideoElement) (n : nat) :
  closuresMade el ->
  let el' := attachVideoListeners (cycles n el) in
  gained ratechange forceTick (S n) el el' /\
  gained play blankCaption (S n) el el' /\
  gained pause blankCaption (S n) el el' /\
  In cbOnTimeTick (handlersFor timeupdate el') /\
  In cbOnTimeTick (handlersFor seeked el') /\
  ~ In cbOnTimeTick (handlersFor timeupdate (detachVideoListeners el')) /\
  ~ In cbOnTimeTick (handlersFor seeked (detachVideoListeners el')).
Proof.
  intros H el'.
  pose proof (closuresMade_cycles n el H) as Hc.
  pose proof (closuresMade_attach _ Hc) as Ha.
  split; [|split; [|split; [|split; [|split; [|split]]]]].
  - apply cycles_gain; trivial. intros x Hx. apply (attach_gains x Hx).
  - apply cycles_gain; trivial. intros x Hx. apply (attach_gains x Hx).
  - apply cycles_gain; trivial. intros x Hx. apply (attach_gains x Hx).
  - subst el'. destruct (attach_listeners _ Hc) as [Hl _].
    unfold handlersFor. rewrite Hl.
    rewrite handlersIn_app, handlersIn_addOnce by reflexivity.
    apply in_or_app. left. apply handlersIn_added.
  - subst el'. destruct (attach_listeners _ Hc) as [Hl _].
    unfold handlersFor. rewrite Hl.
    rewrite handlersIn_app. apply in_or_app. left. apply handlersIn_added.
  - subst el'. destruct (detach_listeners _ Ha) as [Hl _].
    unfold handlersFor. rewrite Hl.
    rewrite handlersIn_remove by reflexivity. apply handlersIn_removed.
  - subst el'. destruct (detach_listeners _ Ha) as [Hl _].
    unfold handlersFor. rewrite Hl. apply handlersIn_removed.
Qed.

Lemma listener_closures_accumulate_witness :
  let el := mkVideo [] 0 in
  let el' := attachVideoListeners (cycles 2 el) in
  gained ratechange forceTick 3 el el' /\
  gained play blankCaption 3 el el' /\
  gained pause blankCaption 3 el el' /\
  In cbOnTimeTick (handlersFor timeupdate el') /\
  In cbOnTimeTick (handlersFor seeked el') /\
  ~ In cbOnTimeTick (handlersFor timeupdate (detachVideoListeners el')) /\
  ~ In cbOnTimeTick (handlersFor seeked (detachVideoListeners el')).
Proof.
  apply (listener_closures_accumulate (mkVideo [] 0) 2).
  intros ty i b [].
Defined.

(** * A speed change after restarts *)

Lemma isAborted_abortInflight c s :
  isAborted c s = true -> isAborted c (abortInflight s) = true.
Proof.
  unfold isAborted, abortInflight. destruct (inflight s); [|trivial]. fields.
  cbn [existsb]. intros ->. apply orb_true_r.
Qed.

Lemma forced_tick_miss env vid s :
  (tickInterval <= perfNow env)%Q -> vid <> "" -> adShowing env = false ->
  missesAt env vid s ->
  let key := cacheKey vid (language s) (currentTime env) in
  let s' := onTimeTick env (set_lastTickAt 0 s) in
  missesAt env vid s' /\ language s' = language s /\
  nextCtrl s' = S (nextCtrl s) /\
  inflight s' = Some (mkInflight (nextCtrl s) chunks) /\
  pending s'
  = pending s ++ [mkRequest (nextCtrl s) FetchingLines vid key (currentTime env)] /\
  (forall c, isAborted c s = true -> isAborted c s' = true) /\
  (forall i, inflight s = Some i -> isAborted (ctrl i) s' = true).
Proof.
  intros Hnow Hne Had [Hv Hm Hvid Hmiss] key s'. subst s'.
  rewrite (tick_miss env (set_lastTickAt 0 s) vid
             (forced_tick_accepted env s Hv Hm Hnow) Hvid Hne Had Hmiss).
  fields. fold key. fold key in Hmiss.
  destruct (cacheGet key (dateNow env) (cache s)) as [got cache'] eqn:Eget.
  cbn [fst snd] in *. subst got.
  pose proof (cacheGet_miss_absent _ _ _ _ Eget) as Habs.
  set (s0 := set_cache cache' (set_lastTickAt (perfNow env) (set_lastTickAt 0 s))).
  assert (Hf : pending (abortInflight s0) = pending s /\
               nextCtrl (abortInflight s0) = nextCtrl s /\
               videoEl (abortInflight s0) = videoEl s /\
               mode (abortInflight s0) = mode s /\
               videoId (abortInflight s0) = videoId s /\
               language (abortInflight s0) = language s /\
               cache (abortInflight s0) = cache').
  { unfold abortInflight. subst s0. fields. now destruct (inflight s). }
  destruct Hf as (Hp & Hn & Hve & Hmo & Hvi & Hla & Hca).
  unfold startRequest. fields. rewrite Hp, Hn.
  split; [|split; [|split; [|split; [|split; [|split]]]]]; trivial.
  - constructor; fields; try congruence.
    rewrite Hla, Hca. fold key. unfold cacheGet. now rewrite Habs.
  - intros c Hc. unfold isAborted. fields.
    apply (isAborted_abortInflight c s0). exact Hc.
  - intros i Hi. unfold isAborted. fields. unfold abortInflight.
    subst s0. fields. rewrite Hi. fields. cbn [existsb].
    now rewrite Nat.eqb_refl.
Qed.

Lemma forced_ticks env vid l :
  (tickInterval <= perfNow env)%Q -> vid <> "" -> adShowing env = false ->
  closuresOf forceTick l ->
  forall s, missesAt env vid s ->
  let key := cacheKey vid (language s) (currentTime env) in
  let s' := fold_left (fun s cb => callListener env cb s) l s in
  missesAt env vid s' /\ language s' = language s /\
  nextCtrl s' = (nextCtrl s + length l)%nat /\
  pending s'
  = pending s ++ requestsFrom (nextCtrl s) (length l) vid key (currentTime env) /\
  (forall c, isAborted c s = true -> isAborted c s' = true) /\
  (l <> [] ->
   inflight s' = Some (mkInflight (nextCtrl s + length l - 1) chunks) /\
   (forall i, inflight s = Some i -> isAborted (ctrl i) s' = true) /\
   forall c, (nextCtrl s <= c < nextCtrl s + length l - 1)%nat ->
             isAborted c s' = true) /\
  s' = run s (repeat (env, RateChange) (length l)).
Proof.
  intros Hnow Hne Had Hl. induction Hl as [|cb rest [i ->] Hrest IH];
    intros s Hs key s'.
  - subst s'. cbn [fold_left length repeat run requestsFrom seq map].
    rewrite Nat.add_0_r, app_nil_r.
    split; [exact Hs|]. do 4 (split; [trivial|]).
    split; [intros Hnil; now destruct Hnil | reflexivity].
  - subst s'. cbn [fold_left callListener length repeat run step].
    destruct (forced_tick_miss env vid s Hnow Hne Had Hs)
      as (Hs1 & Hla1 & Hn1 & Hi1 & Hp1 & Hmono1 & Hab1).
    set (s1 := onTimeTick env (set_lastTickAt 0 s)) in *.
    destruct (IH s1 Hs1) as (Hs' & Hla' & Hn' & Hp' & Hmono' & Hne' & Hrun).
    set (s' := fold_left _ rest s1) in *.
    split; [exact Hs'|]. split; [congruence|]. split; [lia|].
    split; [|split; [|split]].
    + rewrite Hp', Hp1, Hla1, Hn1, <- app_assoc. reflexivity.
    + intros c Hc. now apply Hmono', Hmono1.
    + intros _. destruct rest as [|cb' rest'].
      * subst s'. cbn [fold_left length]. split; [|split].
        -- rewrite Hi1. do 2 f_equal. lia.
        -- exact Hab1.
        -- intros c Hc. cbn [length] in Hc. lia.
      * destruct (Hne' ltac:(discriminate)) as (Hi' & Hab' & Hrange).
        split; [|split].
        -- rewrite Hi'. do 2 f_equal. cbn [length]. lia.
        -- intros i0 Hi0. apply Hmono'. now apply Hab1.
        -- intros c Hc. destruct (Nat.eq_dec c (nextCtrl s)) as [->|Hcne].
           ++ apply (Hab' (mkInflight (nextCtrl s) chunks) Hi1).
           ++ apply Hrange. cbn [length] in *. lia.
    + exact Hrun.
Qed.

(** X17.  After stops and restarts on the same video element, one speed
    change runs the forced tick once per closure left on the element.  On
    a fresh element that went through [n] rounds of attach and detach and
    is attached again, a 'ratechange' event whose window is not cached
    (the script being attached and ACTIVE on a video, no ad playing, and
    [performance.now()] past the first tick interval) starts [n + 1]
    requests for that window, one after the other: all but the last are
    aborted at once, the last stays in flight.  The result is the one of
    [n + 1] single 'ratechange' turns. *)
Theorem ratechange_after_restarts (el0 : VideoElement) (n : nat)
        (env : Env) (vid : string) (s : State) :
  closuresMade el0 -> handlersFor ratechange el0 = [] ->
  (tickInterval <= perfNow env)%Q -> vid <> "" -> adShowing env = false ->
  missesAt env vid s ->
  let el := attachVideoListeners (cycles n el0) in
  let key := cacheKey vid (language s) (currentTime env) in
  let s' := dispatch env ratechange el s in
  nextCtrl s' = (nextCtrl s + S n)%nat /\
  pending s'
  = pending s ++ requestsFrom (nextCtrl s) (S n) vid key (currentTime env) /\
  inflight s' = Some (mkInflight (nextCtrl s + n) chunks) /\
  (forall c, (nextCtrl s <= c < nextCtrl s + n)%nat -> isAborted c s' = true) /\
  s' = run s (repeat (env, RateChange) (S n)).
Proof.
  intros Hel Hnone Hnow Hne Had Hs el key s'.
  destruct (cycles_gain el0 n ratechange forceTick Hel
              (fun x Hx => proj1 (attach_gains x Hx)) eq_refl eq_refl)
    as (added & Hadd & Hlen & Hcl).
  rewrite Hnone in Hadd. cbn [app] in Hadd.
  subst s'. unfold dispatch. subst el. rewrite Hadd.
  destruct (forced_ticks env vid added Hnow Hne Had Hcl s Hs)
    as (_ & _ & Hn' & Hp' & _ & Hne' & Hrun).
  rewrite Hlen in *.
  destruct (Hne' ltac:(intros ->; discriminate)) as (Hi' & _ & Hrange).
  split; [exact Hn'|]. split; [exact Hp'|]. split; [|split].
  - rewrite Hi'. do 2 f_equal. lia.
  - intros c Hc. apply Hrange. lia.
  - exact Hrun.
Qed.

Lemma ratechange_after_restarts_witness :
  let s := run (boot (envAt 0)) traceStarted in
  let env := envAt 5000 in
  let el := attachVideoListeners (cycles 2 (mkVideo [] 0)) in
  let key := cacheKey "v" (language s) (currentTime env) in
  let s' := dispatch env ratechange el s in
  nextCtrl s' = (nextCtrl s + 3)%nat /\
  pending s'
  = pending s ++ requestsFrom (nextCtrl s) 3 "v" key (currentTime env) /\
  inflight s' = Some (mkInflight (nextCtrl s + 2) chunks) /\
  (forall c, (nextCtrl s <= c < nextCtrl s + 2)%nat -> isAborted c s' = true) /\
  s' = run s (repeat (env, RateChange) 3).
Proof.
  apply (ratechange_after_restarts (mkVideo [] 0) 2 (envAt 5000) "v"
           (run (boot (envAt 0)) traceStarted)).
  - intros ty i b [].
  - reflexivity.
  - vm_compute. discriminate.
  - discriminate.
  - reflexivity.
  - constructor; vm_compute; reflexivity.
Defined.

(** * The popup *)

Lemma popup_act_sent a p :
  Popup.sent (Popup.act a p) = Popup.sent p \/
  (a = Popup.Click /\ Popup.started p = false /\ Popup.enabled p = true /\
   Popup.sent (Popup.act a p)
   = START_TRANSLATION (Popup.payload p) :: Popup.sent p) \/
  (a = Popup.Click /\ Popup.started p = true /\
   Popup.sent (Popup.act a p) = STOP_TRANSLATION :: Popup.sent p) \/
  (a = Popup.TimerFires /\ Popup.emitArmed p = true /\
   Popup.sent (Popup.act a p)
   = SETTINGS_CHANGED (Popup.payload p) :: Popup.sent p).
Proof.
  destruct a; cbn [Popup.act]; Popup.fields; auto.
  - unfold Popup.onStartStop.
    destruct (Popup.started p) eqn:Es; cbn [negb]; Popup.fields.
    + right. right. left. auto.
    + destruct (Popup.enabled p) eqn:Ee; cbn [negb]; Popup.fields; auto.
      right. left. auto.
  - destruct (Popup.emitArmed p) eqn:Ea; auto.
    unfold Popup.emitSettingsChanged. Popup.fields. right. right. right. auto.
  - destruct (nth_error _ _) as [[| | |]|]; cbn [Popup.resume]; auto;
      repeat match goal with |- context [if ?b then _ else _] => destruct b end;
      Popup.fields; auto.
Qed.

Lemma popup_act_pill a p :
  (Popup.runtimeStatus p = Popup.active -> Popup.started p = true) ->
  Popup.runtimeStatus (Popup.act a p) = Popup.active ->
  Popup.started (Popup.act a p) = true.
Proof.
  intros Hinv. destruct a; cbn [Popup.act]; Popup.fields; auto.
  - unfold Popup.onStartStop.
    destruct (Popup.started p) eqn:Es; cbn [negb]; Popup.fields; auto.
    destruct (Popup.enabled p); cbn [negb]; Popup.fields;
      intros H; try discriminate. apply Hinv in H. congruence.
  - destruct (Popup.emitArmed p); auto.
  - destruct (nth_error _ _) as [[| | |]|]; cbn [Popup.resume]; auto;
      repeat match goal with |- context [if ?b then _ else _] => destruct b end;
      Popup.fields; auto; discriminate.
Qed.

Lemma popup_act_started a p :
  (Popup.started p = true -> exists m, In m (Popup.sent p) /\ Popup.isStart m) ->
  (forall k, nth_error (Popup.awaiting p) k = Some Popup.awaitStart ->
             exists m, In m (Popup.sent p) /\ Popup.isStart m) ->
  (Popup.started (Popup.act a p) = true ->
   exists m, In m (Popup.sent (Popup.act a p)) /\ Popup.isStart m) /\
  (forall k, nth_error (Popup.awaiting (Popup.act a p)) k
             = Some Popup.awaitStart ->
             exists m, In m (Popup.sent (Popup.act a p)) /\ Popup.isStart m).
Proof.
  intros Hs Hw.
  assert (Happ : forall x, x <> Popup.awaitStart ->
            forall k, nth_error (Popup.awaiting p ++ [x]) k
                      = Some Popup.awaitStart ->
            exists m, In m (Popup.sent p) /\ Popup.isStart m).
  { intros x Hx k Hk.
    destruct (Nat.lt_ge_cases k (length (Popup.awaiting p))) as [Hlt|Hge].
    - rewrite nth_error_app1 in Hk by exact Hlt. now apply (Hw k).
    - rewrite nth_error_app2 in Hk by exact Hge.
      destruct (k - _)%nat as [|j]; cbn [nth_error] in Hk.
      + congruence.
      + now destruct j. }
  destruct a; cbn [Popup.act]; Popup.fields.
  1, 2, 3: split; [exact Hs | apply Happ; discriminate].
  - unfold Popup.onStartStop.
    destruct (Popup.started p) eqn:Es; cbn [negb]; Popup.fields.
    + split.
      * intros _. destruct (Hs eq_refl) as (m & Hin & Hm).
        exists m. split; [now right | exact Hm].
      * intros k Hk.
        destruct (Happ Popup.awaitStop ltac:(discriminate) k Hk)
          as (m & Hin & Hm).
        exists m. split; [now right | exact Hm].
    + destruct (Popup.enabled p); cbn [negb]; Popup.fields.
      * split; [rewrite Es; discriminate|]. intros k _.
        exists (START_TRANSLATION (Popup.payload p)). split; [now left | exact I].
      * split; [rewrite Es; discriminate | exact Hw].
  - destruct (Popup.emitArmed p); [|now split].
    unfold Popup.emitSettingsChanged. Popup.fields. split.
    + intros H. destruct (Hs H) as (m & Hin & Hm).
      exists m. split; [now right | exact Hm].
    + intros k Hk.
      destruct (Happ Popup.awaitEmit ltac:(discriminate) k Hk)
        as (m & Hin & Hm).
      exists m. split; [now right | exact Hm].
  - destruct (nth_error (Popup.awaiting p) k) as [a|] eqn:Ek; [|now split].
    assert (Hrem : forall j, nth_error (removeNth k (Popup.awaiting p)) j
                             = Some Popup.awaitStart ->
                   exists m, In m (Popup.sent p) /\ Popup.isStart m).
    { intros j Hj.
      assert (Hin : In Popup.awaitStart (Popup.awaiting p)).
      { apply nth_error_In in Hj. clear -Hj. revert k Hj.
        induction (Popup.awaiting p) as [|x rest IH]; intros k Hj.
        - now destruct k.
        - destruct k; cbn [removeNth] in Hj; [now right|].
          destruct Hj as [->|Hj]; [now left | right; now apply (IH k)]. }
      apply In_nth_error in Hin. destruct Hin as [i Hi]. now apply (Hw i). }
    destruct a; cbn [Popup.resume];
      repeat match goal with |- context [if ?b then _ else _] => destruct b end;
      Popup.fields; split; trivial; try discriminate.
    intros _. now apply (Hw k).
Qed.

(** X18.  In every run of the popup: a start message is sent only with
    [enabled: true]; the pill shows Active only while the button is in the
    started state; and the button reaches the started state only after a
    start message was sent. *)
Theorem popup_starts_only_enabled (storedEnabled : bool)
        (storedLanguage storedHint : option string)
        (l : list Popup.Action) :
  let p := Popup.acts l (Popup.init storedEnabled storedLanguage storedHint) in
  (forall m, In m (Popup.sent p) -> ~ Popup.startWhileDisabled m) /\
  (Popup.runtimeStatus p = Popup.active -> Popup.started p = true) /\
  (Popup.started p = true ->
   exists m, In m (Popup.sent p) /\ Popup.isStart m).
Proof.
  intros p. subst p.
  set (p0 := Popup.init storedEnabled storedLanguage storedHint).
  assert (H0 : (forall m, In m (Popup.sent p0) -> ~ Popup.startWhileDisabled m) /\
               (Popup.runtimeStatus p0 = Popup.active -> Popup.started p0 = true) /\
               (Popup.started p0 = true ->
                exists m, In m (Popup.sent p0) /\ Popup.isStart m) /\
               (forall k, nth_error (Popup.awaiting p0) k = Some Popup.awaitStart ->
                exists m, In m (Popup.sent p0) /\ Popup.isStart m)).
  { subst p0. cbn. repeat split; try discriminate; try tauto.
    intros k Hk. now destruct k. }
  enough (H : (forall m, In m (Popup.sent (Popup.acts l p0)) ->
                         ~ Popup.startWhileDisabled m) /\
              (Popup.runtimeStatus (Popup.acts l p0) = Popup.active ->
               Popup.started (Popup.acts l p0) = true) /\
              (Popup.started (Popup.acts l p0) = true ->
               exists m, In m (Popup.sent (Popup.acts l p0)) /\ Popup.isStart m) /\
              (forall k, nth_error (Popup.awaiting (Popup.acts l p0)) k
                         = Some Popup.awaitStart ->
               exists m, In m (Popup.sent (Popup.acts l p0)) /\ Popup.isStart m))
    by (destruct H as (A & B & C & _); auto).
  revert H0. generalize p0. clear p0.
  induction l as [|a rest IH]; intros p (Hsent & Hpill & Hst & Hw).
  - cbn [Popup.acts fold_left]. auto.
  - cbn [Popup.acts fold_left]. apply IH.
    destruct (popup_act_started a p Hst Hw) as [Hst' Hw'].
    split; [|split; [|split]]; trivial.
    + intros m Hin.
      destruct (popup_act_sent a p)
        as [E|[(_ & _ & He & E)|[(_ & _ & E)|(_ & _ & E)]]];
        rewrite E in Hin; [now apply Hsent| | |];
        destruct Hin as [<-|Hin]; try now apply Hsent.
      * cbn. rewrite He. discriminate.
      * cbn. tauto.
      * cbn. tauto.
    + now apply popup_act_pill.
Qed.

Lemma popup_starts_only_enabled_witness :
  let p := Popup.acts [Popup.Toggle true; Popup.Click;
                       Popup.Resumes 1 true false]
                      (Popup.init false None None) in
  (forall m, In m (Popup.sent p) -> ~ Popup.startWhileDisabled m) /\
  (Popup.runtimeStatus p = Popup.active -> Popup.started p = true) /\
  (Popup.started p = true ->
   exists m, In m (Popup.sent p) /\ Popup.isStart m).
Proof.
  apply (popup_starts_only_enabled false None None
           [Popup.Toggle true; Popup.Click; Popup.Resumes 1 true false]).
Defined.

Lemma popup_quiet_sent a p :
  Popup.quiet a -> Popup.sent (Popup.act a p) = Popup.sent p.
Proof.
  intros Hq. destruct (popup_act_sent a p) as [E|[(-> & _)|[(-> & _)|(-> & _)]]];
    [exact E | | |]; now destruct Hq.
Qed.

Lemma popup_quiet_values a p :
  Popup.quiet a ->
  (Popup.enabled (Popup.act a p), Popup.language (Popup.act a p),
   Popup.hint (Popup.act a p))
  = Popup.edited [a] (Popup.enabled p, Popup.language p, Popup.hint p).
Proof.
  intros Hq. destruct a; cbn [Popup.act Popup.edited fold_left]; Popup.fields;
    trivial; try now destruct Hq.
  destruct (nth_error _ _) as [[| | |]|]; cbn [Popup.resume]; trivial;
    repeat match goal with |- context [if ?b then _ else _] => destruct b end;
    Popup.fields; trivial.
Qed.

Lemma popup_quiet_run l :
  Forall Popup.quiet l ->
  forall p,
  Popup.sent (Popup.acts l p) = Popup.sent p /\
  (Popup.enabled (Popup.acts l p), Popup.language (Popup.acts l p),
   Popup.hint (Popup.acts l p))
  = Popup.edited l (Popup.enabled p, Popup.language p, Popup.hint p).
Proof.
  induction 1 as [|a rest Ha Hrest IH]; intros p; [now split|].
  cbn [Popup.acts fold_left]. destruct (IH (Popup.act a p)) as [Hs Hv].
  fold (Popup.acts rest (Popup.act a p)).
  rewrite Hs, Hv, (popup_quiet_sent a p Ha), (popup_quiet_values a p Ha).
  split; reflexivity.
Qed.

(** X19.  The settings message is debounced and reads [STATE] when the
    timer runs: after any number of edits (with handlers resuming in
    between) and with the timer armed, the timer sends one
    SETTINGS_CHANGED, carrying the values of the last edits, also of edits
    whose storage write has not returned; a second run of the timer sends
    nothing. *)
Theorem debounce_sends_latest_settings (p : Popup.STATE)
        (l : list Popup.Action) :
  Forall Popup.quiet l ->
  Popup.emitArmed (Popup.acts l p) = true ->
  let '(e, lang, h) :=
    Popup.edited l (Popup.enabled p, Popup.language p, Popup.hint p) in
  let m := SETTINGS_CHANGED (Some (mkSettings e (Some lang) (Some h))) in
  Popup.sent (Popup.acts (l ++ [Popup.TimerFires]) p) = m :: Popup.sent p /\
  Popup.sent (Popup.acts (l ++ [Popup.TimerFires; Popup.TimerFires]) p)
  = m :: Popup.sent p.
Proof.
  intros Hq Harm. destruct (popup_quiet_run l Hq p) as [Hs Hv].
  destruct (Popup.edited l _) as [[e lang] h]. injection Hv as He Hl Hh.
  unfold Popup.acts in *. rewrite !fold_left_app.
  cbn [fold_left Popup.act]. rewrite Harm.
  unfold Popup.emitSettingsChanged, Popup.payload. Popup.fields.
  rewrite Hs, He, Hl, Hh. split; reflexivity.
Qed.

Lemma debounce_sends_latest_settings_witness :
  let p := Popup.init false None None in
  let l := [Popup.HintInput "a"; Popup.Resumes 0 true false;
            Popup.HintInput "ab"; Popup.Toggle true] in
  let m := SETTINGS_CHANGED (Some (mkSettings true (Some "en") (Some "ab"))) in
  Popup.sent (Popup.acts (l ++ [Popup.TimerFires]) p) = m :: Popup.sent p /\
  Popup.sent (Popup.acts (l ++ [Popup.TimerFires; Popup.TimerFires]) p)
  = m :: Popup.sent p.
Proof.
  apply (debounce_sends_latest_settings (Popup.init false None None)
           [Popup.HintInput "a"; Popup.Resumes 0 true false;
            Popup.HintInput "ab"; Popup.Toggle true]).
  - repeat constructor.
  - reflexivity.
Defined.

(** * The popup and the page *)

(** X20.  The toggle alone switches the page on and off, and the button and
    the pill of the popup do not follow.  When the debounce timer runs, the
    page that receives the SETTINGS_CHANGED message takes [enabled] from
    the popup: with [enabled] false it ends IDLE whatever its mode was, with
    [enabled] true an IDLE page goes ACTIVE.  When the answer comes back,
    [STATE.started] is what it was, and the pill is what it was unless the
    answer is a failure, which shows Error. *)
Theorem settings_message_bypasses_button (p : Popup.STATE) (env : Env)
        (s : State) (ok offline : bool) :
  Popup.emitArmed p = true ->
  let p1 := Popup.act Popup.TimerFires p in
  let m := SETTINGS_CHANGED (Popup.payload p) in
  let s' := step env (Message m) s in
  let p2 :=
    Popup.act (Popup.Resumes (length (Popup.awaiting p)) ok offline) p1 in
  Popup.sent p1 = m :: Popup.sent p /\
  enabled s' = Popup.enabled p /\
  (Popup.enabled p = false -> mode s' = IDLE) /\
  (Popup.enabled p = true -> mode s = IDLE -> mode s' = ACTIVE) /\
  Popup.started p2 = Popup.started p /\
  Popup.sent p2 = Popup.sent p1 /\
  (Popup.runtimeStatus p2 = Popup.runtimeStatus p \/
   ok = false /\ offline = false /\ Popup.runtimeStatus p2 = Popup.error).
Proof.
  intros Harm p1 m s' p2. subst p1 m s' p2.
  cbn [Popup.act step]. rewrite Harm.
  unfold Popup.emitSettingsChanged. Popup.fields.
  rewrite nth_error_app2, Nat.sub_diag by apply le_n. cbn [nth_error].
  split; [reflexivity|].
  unfold onMessage, Popup.payload, settingsEnabled, settingsLanguage,
    settingsHint. cbn [s_enabled s_language s_hint]. fields.
  set (s0 := set_hint _ (set_language _ (set_enabled (Popup.enabled p) s))).
  assert (He0 : enabled s0 = Popup.enabled p) by reflexivity.
  assert (Hm0 : mode s0 = mode s) by reflexivity.
  split; [|split; [|split; [|split; [|split]]]].
  - change (enabled s0 && mode_eqb (mode s0) IDLE) with
      (Popup.enabled p && mode_eqb (mode s) IDLE).
    destruct (Popup.enabled p) eqn:Ee; cbn [andb negb].
    + destruct (mode_eqb (mode s) IDLE); [|exact He0].
      now rewrite enabled_tryStartActive.
    + destruct (negb (mode_eqb (mode s) IDLE)); [|exact He0].
      destruct (stopAll_fields s0) as (_ & _ & _ & _ & _ & -> & _).
      exact He0.
  - intros Ee.
    change (enabled s0 && mode_eqb (mode s0) IDLE) with
      (Popup.enabled p && mode_eqb (mode s) IDLE).
    change (negb (enabled s0) && negb (mode_eqb (mode s0) IDLE)) with
      (negb (Popup.enabled p) && negb (mode_eqb (mode s) IDLE)).
    rewrite Ee. cbn [andb negb].
    destruct (mode_eqb (mode s) IDLE) eqn:Em; cbn [negb].
    + rewrite Hm0. now apply mode_eqb_eq.
    + now destruct (stopAll_fields s0) as (-> & _).
  - intros Ee Hidle.
    change (enabled s0 && mode_eqb (mode s0) IDLE) with
      (Popup.enabled p && mode_eqb (mode s) IDLE).
    rewrite Ee, Hidle. cbn [andb mode_eqb].
    apply mode_tryStartActive_enabled. now rewrite He0.
  - cbn [Popup.resume]. destruct (negb ok && negb offline); reflexivity.
  - cbn [Popup.resume]. destruct (negb ok && negb offline); reflexivity.
  - cbn [Popup.resume]. destruct ok, offline; cbn [negb andb]; Popup.fields;
      auto.
Qed.

Lemma settings_message_bypasses_button_witness :
  let p := Popup.acts [Popup.Toggle true; Popup.Click;
                       Popup.Resumes 1 true false; Popup.Toggle false;
                       Popup.Resumes 0 true false; Popup.Resumes 0 true false]
                      (Popup.init false None None) in
  let env := envAt 3000 in
  let s := run (boot (envAt 0)) traceStarted in
  let p1 := Popup.act Popup.TimerFires p in
  let m := SETTINGS_CHANGED (Popup.payload p) in
  let s' := step env (Message m) s in
  let p2 := Popup.act (Popup.Resumes (length (Popup.awaiting p)) true false) p1 in
  Popup.sent p1 = m :: Popup.sent p /\
  enabled s' = Popup.enabled p /\
  (Popup.enabled p = false -> mode s' = IDLE) /\
  (Popup.enabled p = true -> mode s = IDLE -> mode s' = ACTIVE) /\
  Popup.started p2 = Popup.started p /\
  Popup.sent p2 = Popup.sent p1 /\
  (Popup.runtimeStatus p2 = Popup.runtimeStatus p \/
   true = false /\ false = false /\ Popup.runtimeStatus p2 = Popup.error).
Proof.
  apply (settings_message_bypasses_button
           (Popup.acts [Popup.Toggle true; Popup.Click;
                        Popup.Resumes 1 true false; Popup.Toggle false;
                        Popup.Resumes 0 true false; Popup.Resumes 0 true false]
                       (Popup.init false None None))
           (envAt 3000) (run (boot (envAt 0)) traceStarted) true false).
  vm_compute. reflexivity.
Defined.
